(** * Ethereal static evaluator: a shallow embedding of [evaluate.c] and [psqt.c]

    Bitboards ([uint64_t]) are integers in [0, 2^64) with the bit operations of
    [Z]; the only operation that can leave that range, the complement [~], is
    written with its 64-bit mask.  C [int] arithmetic on scores and counters is
    modelled by the arithmetic of [Z]: signed overflow is undefined in C, so the
    model describes the runs in which it does not happen; the casts of the
    packed-score macros (to [unsigned], to [int16_t]) are written out with their
    wrap-around.  Arrays indexed by colour are pairs, [EvalInfo] is a record
    that is threaded through the evaluators, and the [while (bb) poplsb(&bb)]
    loops are a fuelled loop over the bitboard. *)

From Stdlib Require Import ZArith List Lia Bool Permutation Btauto FinFun.
Import ListNotations.
Local Open Scope Z_scope.

(* ================================================================== *)
(** ** Colours, piece kinds and colour-indexed arrays *)

Inductive Colour := WHITE | BLACK.

Inductive PieceType := PAWN | KNIGHT | BISHOP | ROOK | QUEEN | KING.

(** [!colour] *)
Definition opp (c : Colour) : Colour :=
  match c with WHITE => BLACK | BLACK => WHITE end.

Definition colourIndex (c : Colour) : Z :=
  match c with WHITE => 0 | BLACK => 1 end.

Definition pieceIndex (p : PieceType) : Z :=
  match p with
  | PAWN => 0 | KNIGHT => 1 | BISHOP => 2 | ROOK => 3 | QUEEN => 4 | KING => 5
  end.

(** [T a[COLOUR_NB]] *)
Definition PerColour (A : Type) : Type := (A * A)%type.

Definition sel {A} (c : Colour) (a : PerColour A) : A :=
  match c with WHITE => fst a | BLACK => snd a end.

Definition upd {A} (c : Colour) (v : A) (a : PerColour A) : PerColour A :=
  match c with WHITE => (v, snd a) | BLACK => (fst a, v) end.

(** [T a[6]], indexed by piece kind *)
Record PerPiece (A : Type) : Type := mkPerPiece {
  ofPawn : A; ofKnight : A; ofBishop : A; ofRook : A; ofQueen : A; ofKing : A
}.
Arguments mkPerPiece {A}.
Arguments ofPawn {A}.
Arguments ofKnight {A}.
Arguments ofBishop {A}.
Arguments ofRook {A}.
Arguments ofQueen {A}.
Arguments ofKing {A}.

Definition selP {A} (p : PieceType) (a : PerPiece A) : A :=
  match p with
  | PAWN => ofPawn a | KNIGHT => ofKnight a | BISHOP => ofBishop a
  | ROOK => ofRook a | QUEEN => ofQueen a | KING => ofKing a
  end.

Definition updP {A} (p : PieceType) (v : A) (a : PerPiece A) : PerPiece A :=
  match p with
  | PAWN   => mkPerPiece v (ofKnight a) (ofBishop a) (ofRook a) (ofQueen a) (ofKing a)
  | KNIGHT => mkPerPiece (ofPawn a) v (ofBishop a) (ofRook a) (ofQueen a) (ofKing a)
  | BISHOP => mkPerPiece (ofPawn a) (ofKnight a) v (ofRook a) (ofQueen a) (ofKing a)
  | ROOK   => mkPerPiece (ofPawn a) (ofKnight a) (ofBishop a) v (ofQueen a) (ofKing a)
  | QUEEN  => mkPerPiece (ofPawn a) (ofKnight a) (ofBishop a) (ofRook a) v (ofKing a)
  | KING   => mkPerPiece (ofPawn a) (ofKnight a) (ofBishop a) (ofRook a) (ofQueen a) v
  end.

(** Table lookups: [t[i]], [t[i][j]] and [t[i][j][k]] on constant tables.  An
    index outside the table, which C leaves undefined, reads 0 here. *)
Definition nthZ (i : Z) (t : list Z) : Z :=
  if i <? 0 then 0 else nth (Z.to_nat i) t 0.

Definition nthZ2 (i j : Z) (t : list (list Z)) : Z :=
  if i <? 0 then 0 else nthZ j (nth (Z.to_nat i) t []).

Definition nthZ3 (i j k : Z) (t : list (list (list Z))) : Z :=
  if i <? 0 then 0 else nthZ2 j k (nth (Z.to_nat i) t []).

(** C's [!x] and the value of a comparison, as an [int] *)
Definition b2z (b : bool) : Z := if b then 1 else 0.

(* ================================================================== *)
(** ** Bitboards *)

Definition U64_MAX : Z := 18446744073709551615.

(** [~b] on [uint64_t] *)
Definition bbNot (b : Z) : Z := Z.land (Z.lnot b) U64_MAX.

(** The 64 squares, a1 = 0, b1 = 1, ..., h8 = 63. *)
Definition allSquares : list Z := map Z.of_nat (seq 0 64).

(** The bitboard of the squares that satisfy [p]. *)
Definition bbOf (p : Z -> bool) : Z :=
  fold_right (fun s acc => if p s then Z.lor (Z.shiftl 1 s) acc else acc)
             0 allSquares.

(** The squares of a bitboard, in ascending order. *)
Definition squares (b : Z) : list Z := filter (Z.testbit b) allSquares.

(** Modelled from the spec: the bitboard primitives of [bitboards.c] are not
    part of the sources under study; §6 lists them by name ([popcount],
    [getlsb], [poplsb], [setBit], [testBit], [onlyOne], [backmost]).  They are
    given here their usual meaning on a 64-bit word. *)
Definition popcount (b : Z) : Z := Z.of_nat (length (squares b)).

Definition getlsb (b : Z) : Z := hd 0 (squares b).

Definition getmsb (b : Z) : Z := last (squares b) 0.

Definition several (b : Z) : bool := negb (Z.land b (b - 1) =? 0).

Definition onlyOne (b : Z) : bool := negb (b =? 0) && negb (several b).

Definition testBit (b : Z) (i : Z) : bool := Z.testbit b i.

Definition setBit (b : Z) (i : Z) : Z := Z.lxor b (Z.shiftl 1 i).

(** [sq = poplsb(&bb)]: the least significant square, and what is left. *)
Definition poplsb (b : Z) : Z * Z := (getlsb b, Z.land b (b - 1)).

(** [while (bb) { sq = poplsb(&bb); body }].  The body sees the square and the
    bitboard that is left after the pop.  A 64-bit word has at most 64 bits
    set, so 64 rounds of fuel always reach the exit of the loop
    (lemma [bbLoop_squares]). *)
Fixpoint bbLoop {S : Type} (fuel : nat) (body : Z -> Z -> S -> S)
         (bb : Z) (s : S) : S :=
  match fuel with
  | O => s
  | Datatypes.S fuel' =>
      if bb =? 0 then s
      else let '(sq, bb') := poplsb bb in
           bbLoop fuel' body bb' (body sq bb' s)
  end.

(** [for (i = lo; i <= hi; i++)] *)
Definition zrange (lo hi : Z) : list Z :=
  map (fun i => lo + Z.of_nat i) (seq 0 (Z.to_nat (hi - lo + 1))).

(* ================================================================== *)
(** ** Squares *)

(** Modelled from the spec: the square utilities of [bitboards.c] ([fileOf],
    [rankOf], [relativeRankOf], [mirrorFile], [distanceBetween], [backmost],
    §6) on the usual numbering [sq = 8 * rank + file]. *)
Definition fileOf (sq : Z) : Z := sq mod 8.

Definition rankOf (sq : Z) : Z := sq / 8.

Definition relativeRankOf (c : Colour) (sq : Z) : Z :=
  match c with WHITE => rankOf sq | BLACK => 7 - rankOf sq end.

Definition mirrorFile (file : Z) : Z := nthZ file [0; 1; 2; 3; 3; 2; 1; 0].

Definition distanceBetween (s1 s2 : Z) : Z :=
  Z.max (Z.abs (fileOf s1 - fileOf s2)) (Z.abs (rankOf s1 - rankOf s2)).

Definition backmost (c : Colour) (b : Z) : Z :=
  match c with WHITE => getlsb b | BLACK => getmsb b end.

(** The direction in which the pawns of a colour advance. *)
Definition Forward (c : Colour) : Z :=
  match c with WHITE => 8 | BLACK => -8 end.

Definition forwardRank (c : Colour) : Z :=
  match c with WHITE => 1 | BLACK => -1 end.

(* ================================================================== *)
(** ** Masks and attack sets *)

(** Modelled from the spec: [masks.c], [attacks.c] and the constants of
    [bitboards.h] are not part of the sources under study.  The definitions
    below follow the wording of §3, §4.3 to §4.7 and the glossary: each mask
    is the set of squares the spec describes, and each attack set is the set
    of squares the piece attacks by the rules of chess (sliders stop at the
    first occupied square, which they attack). *)
Definition Files (f : Z) : Z := bbOf (fun s => fileOf s =? f).

Definition Ranks (r : Z) : Z := bbOf (fun s => rankOf s =? r).

Definition RANK_3 : Z := Ranks 2.
Definition RANK_6 : Z := Ranks 5.

(** The light squares (b1, d1, ..., a2, ...) and the dark squares. *)
Definition WHITE_SQUARES : Z := bbOf (fun s => Z.odd (rankOf s + fileOf s)).
Definition BLACK_SQUARES : Z := bbOf (fun s => Z.even (rankOf s + fileOf s)).

Definition adjacentFilesMasks (f : Z) : Z :=
  bbOf (fun s => Z.abs (fileOf s - f) =? 1).

(** The ranks at or ahead of [r], seen from colour [c]. *)
Definition forwardRanksMasks (c : Colour) (r : Z) : Z :=
  bbOf (fun s => match c with
                 | WHITE => r <=? rankOf s
                 | BLACK => rankOf s <=? r
                 end).

(** Strictly ahead of [sq], seen from colour [c]. *)
Definition aheadOf (c : Colour) (sq s : Z) : bool :=
  match c with
  | WHITE => rankOf sq <? rankOf s
  | BLACK => rankOf s <? rankOf sq
  end.

(** File and adjacent files, ranks ahead. *)
Definition passedPawnMasks (c : Colour) (sq : Z) : Z :=
  bbOf (fun s => (Z.abs (fileOf s - fileOf sq) <=? 1) && aheadOf c sq s).

(** Ranks 4 to 6, seen from colour [c]. *)
Definition outpostRanksMasks (c : Colour) : Z :=
  bbOf (fun s => (3 <=? relativeRankOf c s) && (relativeRankOf c s <=? 5)).

(** The squares from which an enemy pawn could come to attack [sq]. *)
Definition outpostSquareMasks (c : Colour) (sq : Z) : Z :=
  bbOf (fun s => (Z.abs (fileOf s - fileOf sq) =? 1) && aheadOf c sq s).

(** The squares attacked by a pawn of colour [c] on [sq]. *)
Definition pawnAttacks (c : Colour) (sq : Z) : Z :=
  bbOf (fun s => (Z.abs (fileOf s - fileOf sq) =? 1)
                 && (rankOf s =? rankOf sq + forwardRank c)).

(** The squares of the own pawns that protect a pawn on [sq] or stand next to
    it. *)
Definition pawnConnectedMasks (c : Colour) (sq : Z) : Z :=
  bbOf (fun s => (Z.abs (fileOf s - fileOf sq) =? 1)
                 && ((rankOf s =? rankOf sq)
                     || (rankOf s =? rankOf sq - forwardRank c))).

Definition knightAttacks (sq : Z) : Z :=
  bbOf (fun s => let df := Z.abs (fileOf s - fileOf sq) in
                 let dr := Z.abs (rankOf s - rankOf sq) in
                 ((df =? 1) && (dr =? 2)) || ((df =? 2) && (dr =? 1))).

Definition kingAttacks (sq : Z) : Z :=
  bbOf (fun s => Z.max (Z.abs (fileOf s - fileOf sq))
                       (Z.abs (rankOf s - rankOf sq)) =? 1).

(** The king's square, its neighbours, and those neighbours moved one rank
    towards the enemy. *)
Definition kingAreaMasks (c : Colour) (sq : Z) : Z :=
  bbOf (fun s => let df := Z.abs (fileOf s - fileOf sq) in
                 let dr := rankOf s - rankOf sq in
                 (df <=? 1)
                 && ((Z.abs dr <=? 1) || (dr =? 2 * forwardRank c))).

(** [s] is one of the 64 squares. *)
Definition onBoard (s : Z) : bool := (0 <=? s) && (s <? 64).

(** Bit [i] of the 64-bit word [b]. *)
Definition bit64 (b i : Z) : bool := onBoard i && Z.testbit b i.

(** The squares of [b] above [sq]: what is left of [b] in a [poplsb] loop
    after [sq] has been popped. *)
Definition above (b sq : Z) : Z := bbOf (fun s => (sq <? s) && Z.testbit b s).

(** No occupied square strictly between [sq] and [s], which lie [n] steps
    apart on a line. *)
Definition clearBetween (occupied sq s n : Z) : bool :=
  forallb (fun k => negb (bit64 occupied (sq + k * ((s - sq) / n))))
          (zrange 1 (n - 1)).

Definition bishopAttacks (sq occupied : Z) : Z :=
  bbOf (fun s => let df := Z.abs (fileOf s - fileOf sq) in
                 let dr := Z.abs (rankOf s - rankOf sq) in
                 (df =? dr) && (0 <? df) && clearBetween occupied sq s df).

Definition rookAttacks (sq occupied : Z) : Z :=
  bbOf (fun s => let df := Z.abs (fileOf s - fileOf sq) in
                 let dr := Z.abs (rankOf s - rankOf sq) in
                 (((df =? 0) && (0 <? dr)) || ((dr =? 0) && (0 <? df)))
                 && clearBetween occupied sq s (df + dr)).

(** The squares one step ahead of [pawns] that are not in [occupied]. *)
Definition pawnAdvance (pawns occupied : Z) (c : Colour) : Z :=
  bbOf (fun s => negb (Z.testbit occupied s) && bit64 pawns (s - Forward c)).

(** The squares of [targets] attacked by some pawn of [pawns]: a pawn one
    rank behind, on the file to the left or to the right. *)
Definition pawnAttackSpan (pawns targets : Z) (c : Colour) : Z :=
  bbOf (fun s => Z.testbit targets s
                 && (((1 <=? fileOf s) && bit64 pawns (s - Forward c - 1))
                     || ((fileOf s <=? 6) && bit64 pawns (s - Forward c + 1)))).

(* ================================================================== *)
(** ** Packed scores *)

(** Conversions to [int] and to [int16_t], two's complement. *)
Definition toInt32 (z : Z) : Z := (z + 2147483648) mod 4294967296 - 2147483648.

Definition toInt16 (z : Z) : Z := (z + 32768) mod 65536 - 32768.

(** Modelled from the spec: [evaluate.h] is not part of the sources under
    study.  §4.1: "[MakeScore(mg, eg)] produces the packed score", a 32-bit
    word with the endgame half in the high bits, and "[ScoreMG] and [ScoreEG]
    extract signed halves"; the endgame half is read after the carry of a
    negative middlegame half is put back. *)
Definition MakeScore (mg eg : Z) : Z :=
  toInt32 (Z.shiftl (eg mod 4294967296) 16 mod 4294967296) + mg.

Definition ScoreMG (s : Z) : Z := toInt16 (s mod 4294967296).

Definition ScoreEG (s : Z) : Z :=
  toInt16 (Z.shiftr ((s + 32768) mod 4294967296) 16).

Definition MG : Z := 0.
Definition EG : Z := 1.

(* ================================================================== *)
(** ** [evaluate.c]: the evaluation terms *)

Section EvaluationTerms.

(** [#define S(mg, eg) (MakeScore((mg), (eg)))] *)
Notation "'S(' mg , eg ')'" := (MakeScore mg eg)
  (at level 0, mg at level 200, eg at level 200).

(** *** Material *)

Definition PawnValue   := S( 110, 129).
Definition KnightValue := S( 460, 412).
Definition BishopValue := S( 481, 430).
Definition RookValue   := S( 677, 714).
Definition QueenValue  := S(1263,1375).
Definition KingValue   := S(   0,   0).

Definition PieceValues : list (list Z) :=
  [ [ 110; 129]; [ 460; 412]; [ 481; 430]; [ 677; 714];
    [1263;1375]; [   0;   0]; [   0;   0]; [   0;   0] ].

(** *** Pawns *)

Definition PawnCandidatePasser : list (list Z) :=
  [ [S(   0,   0); S( -26, -11); S( -12,   9); S( -12,  27);
     S(   3,  62); S(  47,  68); S(   0,   0); S(   0,   0)];
    [S(   0,   0); S( -13,  14); S(  -5,  21); S(   4,  44);
     S(  16,  85); S(  33,  52); S(   0,   0); S(   0,   0)] ].

Definition PawnIsolated := S(  -8, -10).

Definition PawnStacked := S( -19, -26).

Definition PawnBackwards : list Z := [ S(   8,  -2); S(  -6, -18) ].

Definition PawnConnected32 : list Z :=
  [ S(   0,   0); S(   0,   0); S(   0,   0); S(   0,   0);
    S(  -2,  -7); S(  11,   0); S(   4,   0); S(   4,  18);
    S(  15,   0); S(  34,  -1); S(  22,  10); S(  26,  18);
    S(  10,   0); S(  23,   4); S(  10,  12); S(  15,  23);
    S(  16,   7); S(  24,  14); S(  31,  20); S(  34,  21);
    S(  57,  26); S(  53,  47); S(  69,  55); S(  82,  59);
    S( 110,  -1); S( 202,  10); S( 227,  28); S( 240,  51);
    S(   0,   0); S(   0,   0); S(   0,   0); S(   0,   0) ].

(** *** Knights *)

Definition KnightOutpost : list Z := [ S(   7, -25); S(  31,  -3) ].

Definition KnightBehindPawn := S(   4,  21).

Definition KnightMobility : list Z :=
  [ S( -81,-101); S( -32, -99); S( -17, -43); S(  -3, -17);
    S(   8,  -6); S(  15,   8); S(  24,  12); S(  34,  12);
    S(  45,   0) ].

(** *** Bishops *)

Definition BishopPair := S(  26,  70).

Definition BishopRammedPawns := S( -10, -16).

Definition BishopOutpost : list Z := [ S(  10, -11); S(  42,   0) ].

Definition BishopBehindPawn := S(   3,  19).

Definition BishopMobility : list Z :=
  [ S( -64,-146); S( -28, -95); S(  -8, -55); S(   2, -29);
    S(  12, -16); S(  19,  -1); S(  22,   8); S(  22,  14);
    S(  22,  19); S(  24,  20); S(  23,  20); S(  39,   9);
    S(  40,  13); S(  65, -20) ].

(** *** Rooks *)

Definition RookFile : list Z := [ S(  18,   6); S(  40,   2) ].

Definition RookOnSeventh := S(   0,  32).

Definition RookMobility : list Z :=
  [ S(-149,-112); S( -52,-116); S( -12, -62); S(  -4, -20);
    S(  -5,   0); S(  -5,  15); S(  -4,  25); S(   1,  28);
    S(   8,  31); S(  11,  36); S(  14,  42); S(  18,  46);
    S(  18,  51); S(  25,  45); S(  70,  17) ].

(** *** Queens *)

Definition QueenMobility : list Z :=
  [ S( -61,-263); S(-211,-387); S( -60,-202); S( -25,-192);
    S( -13,-141); S(  -8, -90); S(  -2, -62); S(  -3, -35);
    S(   0, -24); S(   0,  -1); S(   3,  10); S(   4,  23);
    S(   6,  24); S(   8,  34); S(   5,  39); S(   5,  42);
    S(   3,  46); S(  -1,  45); S(   0,  39); S(  -3,  33);
    S(   4,  12); S(  18,  -7); S(  19, -37); S(  21, -55);
    S(   5, -70); S(  20, -95); S( -57, -39); S( -27, -54) ].

(** *** Kings *)

Definition KingDefenders : list Z :=
  [ S( -21,  -3); S(  -9,   0); S(   0,   2); S(   7,   4);
    S(  16,   5); S(  27,   2); S(  32,   0); S(  14,   0);
    S(  12,   6); S(  12,   6); S(  12,   6); S(  12,   6) ].

Definition KingShelter : list (list (list Z)) :=
 [ [ [S( -12,   4); S(  16, -24); S(  18,  -9); S(   9,   2);
      S(   4,   3); S(   7,   2); S(  -2, -32); S( -49,  19)];
     [S(  16,  -6); S(  23, -18); S(   0,  -5); S( -17,   2);
      S( -30,  13); S( -69,  69); S(  93,  84); S( -29,   3)];
     [S(  32,  -1); S(  16,  -9); S( -26,   6); S( -11,  -9);
      S( -22,  -4); S(  -7,  -1); S(   0,  66); S( -15,   0)];
     [S(   3,  13); S(  20,  -8); S(   3, -11); S(  14, -23);
      S(  23, -35); S( -51,   1); S(-137,  51); S(   3,  -5)];
     [S( -13,   8); S(   1,  -2); S( -26,   0); S( -18,   2);
      S( -20,  -8); S( -38,   0); S(  34, -15); S(  -8,  -1)];
     [S(  44, -14); S(  25, -18); S( -21,   0); S( -12, -19);
      S(   4, -25); S(  17, -23); S(  42, -29); S( -25,   1)];
     [S(  23, -10); S(   1, -17); S( -23,  -4); S( -19, -11);
      S( -29,  -9); S( -34,  31); S(   0,  44); S( -12,   3)];
     [S( -10,  -8); S(   7, -18); S(   8,  -2); S(  -2,   7);
      S( -11,  13); S(  -9,  37); S(-190,  87); S( -19,  15)] ];
   [ [S(   0,   0); S( -10, -22); S(   0, -16); S( -42,  16);
      S( -18,   0); S(   3,  43); S(-167,  -9); S( -45,  11)];
     [S(   0,   0); S(  25, -20); S(   6,  -8); S( -19,  -3);
      S(   0, -15); S(  28,  71); S(-184,  -4); S( -42,   6)];
     [S(   0,   0); S(  35, -11); S(  -1,  -6); S(   8, -18);
      S(  13,  -8); S( -91,  48); S( -85, -75); S( -22,  -3)];
     [S(   0,   0); S(  -1,   9); S(  -1,   1); S( -15,   0);
      S( -26,   0); S(-101,  29); S(   7, -42); S( -23,  -4)];
     [S(   0,   0); S(  11,   3); S(  11,  -5); S(  13, -11);
      S(  13, -24); S( -54,  15); S(-105, -63); S(  -2,  -6)];
     [S(   0,   0); S(   9,  -6); S( -20,   0); S( -27,  -8);
      S(  18, -26); S( -39,   2); S(  56,  39); S( -21,  -3)];
     [S(   0,   0); S(  24, -13); S(  11, -12); S( -10,  -9);
      S( -29,   5); S(  -8,  14); S( -56, -51); S( -34,  14)];
     [S(   0,   0); S(  14, -36); S(  19, -27); S( -18,  -5);
      S( -17,  15); S(  -1,  15); S(-229, -57); S( -23,   6)] ] ].

Definition KingStorm : list (list (list Z)) :=
 [ [ [S(   1,  23); S( 114, -11); S( -26,  24); S( -22,  10);
      S( -13,   2); S(  -8,  -2); S( -18,   6); S( -22,  -2)];
     [S(   0,  45); S(  57,  11); S( -18,  23); S(  -6,  11);
      S(  -3,   4); S(   5,  -4); S(   0,   0); S( -12,   0)];
     [S(  11,  34); S(  20,  20); S( -24,  20); S( -13,   9);
      S(   3,   2); S(   7,   0); S(   8,  -7); S(   2,  -1)];
     [S(   0,  23); S(  20,  18); S( -13,   8); S( -15,   3);
      S( -13,   1); S(   7, -10); S(   0,  -7); S( -14,   2)] ];
   [ [S(   0,   0); S( -11, -13); S( -16,  -1); S(  20, -16);
      S(  11,  -7); S(   0, -17); S(  -7,   0); S(  16,  27)];
     [S(   0,   0); S( -13, -28); S(  -7, -10); S(  32, -13);
      S(  -1,   0); S(  10, -22); S( -11,  -8); S( -15,   2)];
     [S(   0,   0); S( -23, -42); S( -30,  -8); S(   9, -10);
      S(   2,  -1); S(  -9, -14); S( -13, -13); S( -10,   5)];
     [S(   0,   0); S(  -1, -14); S( -17, -18); S( -11,  -3);
      S(  -4,  -5); S(   6, -29); S(  67,  -6); S(  12,  18)] ] ].

(** *** King safety *)

Definition KSAttackWeight : list Z := [ 0; 16; 6; 10; 8; 0 ].
Definition KSAttackValue     :=   44.
Definition KSWeakSquares     :=   38.
Definition KSFriendlyPawns   :=  -22.
Definition KSNoEnemyQueens   := -276.
Definition KSSafeQueenCheck  :=   95.
Definition KSSafeRookCheck   :=   94.
Definition KSSafeBishopCheck :=   51.
Definition KSSafeKnightCheck :=  123.
Definition KSAdjustment      :=  -18.

(** *** Passed pawns *)

Definition PassedPawn : list (list (list Z)) :=
 [ [ [S(   0,   0); S( -38,   0); S( -53,  22); S( -83,  26);
      S(  -6,  16); S(  66,   0); S( 152,  59); S(   0,   0)];
     [S(   0,   0); S( -26,   1); S( -46,  20); S( -71,  25);
      S( -13,  27); S(  84,  27); S( 183,  94); S(   0,   0)] ];
   [ [S(   0,   0); S( -25,  10); S( -47,  17); S( -74,  32);
      S(  -2,  34); S(  88,  41); S( 258, 123); S(   0,   0)];
     [S(   0,   0); S( -28,   6); S( -40,  13); S( -65,  35);
      S(  -3,  58); S(  76, 140); S( 156, 302); S(   0,   0)] ] ].

Definition PassedFriendlyDistance : list Z :=
  [ S(   0,   0); S(   0,   0); S(   3,  -3); S(   7, -11);
    S(   6, -16); S(  -6, -16); S( -13, -11); S(   0,   0) ].

Definition PassedEnemyDistance : list Z :=
  [ S(   0,   0); S(   3,   0); S(   4,   1); S(   8,  10);
    S(   1,  25); S(   8,  34); S(  24,  37); S(   0,   0) ].

Definition PassedSafePromotionPath := S( -27,  36).

(** *** Threats *)

Definition ThreatWeakPawn             := S( -14, -28).
Definition ThreatMinorAttackedByPawn  := S( -56, -47).
Definition ThreatMinorAttackedByMinor := S( -28, -35).
Definition ThreatMinorAttackedByMajor := S( -25, -44).
Definition ThreatRookAttackedByLesser := S( -58, -10).
Definition ThreatQueenAttackedByOne   := S( -48, -15).
Definition ThreatOverloadedPieces     := S(  -8, -16).
Definition ThreatByPawnPush           := S(  16,  20).

(** *** General *)

Definition Tempo : list Z := [ S(  25,  12); S( -25, -12) ].

End EvaluationTerms.

(* ================================================================== *)
(** ** [psqt.c] *)

Section PSQTTerms.

Notation "'S(' mg , eg ')'" := (MakeScore mg eg)
  (at level 0, mg at level 200, eg at level 200).

Definition PawnPSQT32 : list Z :=
  [ S(   0,   0); S(   0,   0); S(   0,   0); S(   0,   0);
    S( -15,  11); S(   9,   2); S( -14,   5); S( -10,  -3);
    S( -17,   4); S( -12,   5); S(  -7, -10); S(  -5, -18);
    S( -17,  19); S( -10,  14); S(  18, -17); S(  15, -35);
    S(  -3,  24); S(   4,  13); S(   6,  -2); S(  21, -29);
    S(  -8,  41); S(  -9,  37); S(  -1,  17); S(  29, -11);
    S( -13, -15); S( -78,  17); S(  25, -25); S(  49, -27);
    S(   0,   0); S(   0,   0); S(   0,   0); S(   0,   0) ].

Definition KnightPSQT32 : list Z :=
  [ S( -72, -10); S( -16, -48); S( -25, -25); S( -10, -28);
    S( -13, -11); S(   1, -24); S( -12, -33); S(   0, -25);
    S(  -6, -26); S(  14, -30); S(   5, -29); S(  13,  -7);
    S(  13,   7); S(   8,  11); S(  20,  14); S(  18,  24);
    S(  24,  22); S(  21,  10); S(  33,  26); S(  20,  43);
    S( -11,  20); S(   0,  11); S(  36,  24); S(  12,  38);
    S(   1,   9); S( -24,  12); S(  11, -10); S(  70,   6);
    S(-144,  -2); S( -62,  24); S(-107,  43); S( -19,  23) ].

Definition BishopPSQT32 : list Z :=
  [ S(  13, -15); S(  15, -22); S( -20,  -6); S(   5, -13);
    S(  27, -27); S(  19, -28); S(  18, -14); S(   3,  -6);
    S(  11,  -6); S(  24, -12); S(  11,  -3); S(  14,   0);
    S(   7, -10); S(  15,   0); S(  12,   8); S(  11,  14);
    S( -19,  10); S(  14,   5); S(  -1,  14); S(   2,  23);
    S(   1,   2); S( -11,  23); S(  10,  15); S(  15,  15);
    S( -43,  17); S( -50,  13); S(  -2,  13); S( -30,  11);
    S( -33,  14); S( -36,  20); S( -94,  24); S(-118,  31) ].

Definition RookPSQT32 : list Z :=
  [ S(  -8, -36); S( -21, -20); S(  -6, -27); S(   0, -36);
    S( -71, -17); S( -25, -34); S( -20, -35); S( -11, -39);
    S( -27, -21); S(  -9, -16); S( -30, -18); S( -13, -25);
    S( -14,  -4); S( -11,  13); S( -21,   7); S(  -9,   2);
    S(  -5,  23); S(  17,  23); S(  12,  14); S(  26,   8);
    S( -17,  37); S(  12,  29); S( -14,  37); S(  16,  19);
    S(  -5,  24); S( -24,  36); S( -14,  27); S(  12,  25);
    S(  40,  26); S(  36,  32); S(  23,  39); S(  -4,  43) ].

Definition QueenPSQT32 : list Z :=
  [ S(  13, -82); S( -26, -27); S(  -9, -60); S(   2, -48);
    S(   6, -28); S(  16, -65); S(  17, -86); S(   1, -19);
    S(  -2, -16); S(  14, -21); S(  -3,   4); S(  -7,  -3);
    S(   0,  -8); S(  -1,  27); S( -17,  35); S( -32,  80);
    S(  -4,  -4); S( -20,  56); S( -34,  43); S( -46,  92);
    S( -35,  31); S( -38,  45); S( -45,  50); S( -21,  32);
    S( -15,  41); S( -69,  82); S( -33,  41); S( -45,  66);
    S(  -1,  41); S(  -3,  44); S( -12,  35); S(   8,  41) ].

Definition KingPSQT32 : list Z :=
  [ S(  50,-110); S(  50, -75); S(   4, -44); S(  -4, -62);
    S(  32, -49); S(   1, -43); S( -27, -17); S( -32, -18);
    S(  11, -49); S(  13, -41); S(   8, -15); S(  -9,  -2);
    S(  -6, -38); S(  60, -35); S(  23,   5); S( -33,  18);
    S(  -3,  -5); S(  88, -16); S(  35,  24); S( -13,  31);
    S(  61,  -2); S( 120,  -1); S(  99,  30); S(  47,  25);
    S(  17,  -3); S(  51,  12); S(  28,  29); S(   2,  15);
    S(  15, -94); S(  79, -50); S( -13,  -1); S( -17,  18) ].

End PSQTTerms.

Definition edgeDistance : list Z := [0; 1; 2; 3; 3; 2; 1; 0].

Definition relativeSquare32 (s : Z) (c : Colour) : Z :=
  4 * relativeRankOf c s + nthZ (fileOf s) edgeDistance.

(** Modelled from the spec: the piece codes of [types.h], which is not part
    of the sources under study; a piece packs its kind and its colour, and
    [PSQT] has a row for each of them. *)
Definition makePiece (p : PieceType) (c : Colour) : Z :=
  4 * pieceIndex p + colourIndex c.

Definition pieceValueScore (p : PieceType) : Z :=
  MakeScore (nthZ2 (pieceIndex p) MG PieceValues)
            (nthZ2 (pieceIndex p) EG PieceValues).

Definition PSQT32 (p : PieceType) : list Z :=
  match p with
  | PAWN => PawnPSQT32 | KNIGHT => KnightPSQT32 | BISHOP => BishopPSQT32
  | ROOK => RookPSQT32 | QUEEN => QueenPSQT32 | KING => KingPSQT32
  end.

(** [int PSQT[32][SQUARE_NB]], a table that is written row by row. *)
Definition PSQTTable : Type := list (list Z).

Definition emptyPSQT : PSQTTable := repeat (repeat 0 64%nat) 32%nat.

Fixpoint setNth {A} (n : nat) (v : A) (l : list A) : list A :=
  match l, n with
  | [], _ => []
  | _ :: t, O => v :: t
  | h :: t, Datatypes.S n' => h :: setNth n' v t
  end.

(** [PSQT[piece][s] = v] *)
Definition setPSQT (piece s v : Z) (t : PSQTTable) : PSQTTable :=
  setNth (Z.to_nat piece) (setNth (Z.to_nat s) v (nth (Z.to_nat piece) t [])) t.

Definition allPieceTypes : list PieceType :=
  [PAWN; KNIGHT; BISHOP; ROOK; QUEEN; KING].

(** The body of the loop of [initializePSQT]: the six assignments for the
    white pieces, then the six for the black pieces. *)
Definition initializePSQT_square (t : PSQTTable) (s : Z) : PSQTTable :=
  let w32 := relativeSquare32 s WHITE in
  let b32 := relativeSquare32 s BLACK in
  let t := fold_left (fun t p =>
             setPSQT (makePiece p WHITE) s
                     (pieceValueScore p + nthZ w32 (PSQT32 p)) t)
             allPieceTypes t in
  fold_left (fun t p =>
             setPSQT (makePiece p BLACK) s
                     (- pieceValueScore p - nthZ b32 (PSQT32 p)) t)
             allPieceTypes t.

Definition initializePSQT : PSQTTable :=
  fold_left initializePSQT_square allSquares emptyPSQT.

(** The table after initialisation, computed once. *)
Definition PSQT : PSQTTable := Eval vm_compute in initializePSQT.

(* ================================================================== *)
(** ** The board and the evaluation scratchpad *)

Record Board := mkBoard {
  pieces_  : PerPiece Z;       (* uint64_t pieces[8]  *)
  colours_ : PerColour Z;      (* uint64_t colours[3] *)
  turn     : Colour;
  psqtmat  : Z;
  pkhash   : Z
}.

(** [board->pieces[PIECE]] and [board->colours[COLOUR]] *)
Definition pieces (board : Board) (p : PieceType) : Z := selP p (pieces_ board).

Definition colours (board : Board) (c : Colour) : Z := sel c (colours_ board).

(** Modelled from the spec: the pawn-king table of [transposition.c], which is
    not part of the sources under study.  §3 and §4.9: an entry is
    [{pkhash, passedPawns, eval}] and the table is direct-mapped and keyed by
    [board.pkhash]; a lookup hits when the entry in the slot of the key holds
    that key. *)
Record PawnKingEntry := mkPKEntry {
  pke_pkhash : Z;
  pke_passed : Z;
  pke_eval   : Z
}.

Definition PawnKingTable : Type := Z -> PawnKingEntry.

Definition pkSlot (pkhash : Z) : Z := Z.shiftr pkhash 48.

Definition getPawnKingEntry (pktable : PawnKingTable) (pkhash : Z)
  : option PawnKingEntry :=
  let pkentry := pktable (pkSlot pkhash) in
  if pke_pkhash pkentry =? pkhash then Some pkentry else None.

Definition storePawnKingEntry (pktable : PawnKingTable) (pkhash passed eval : Z)
  : PawnKingTable :=
  fun slot => if slot =? pkSlot pkhash
              then mkPKEntry pkhash passed eval
              else pktable slot.

(** The field [pawnAttacks] of the scratchpad is [pawnAttacks_] here, since
    [pawnAttacks] is also the name of the attack function. *)
Record EvalInfo := mkEvalInfo {
  pawnAttacks_         : PerColour Z;
  rammedPawns          : PerColour Z;
  blockedPawns         : PerColour Z;
  kingAreas            : PerColour Z;
  mobilityAreas        : PerColour Z;
  attacked             : PerColour Z;
  attackedBy2          : PerColour Z;
  attackedBy           : PerColour (PerPiece Z);
  occupiedMinusBishops : PerColour Z;
  occupiedMinusRooks   : PerColour Z;
  passedPawns          : Z;
  kingSquare           : PerColour Z;
  kingAttacksCount     : PerColour Z;
  kingAttackersCount   : PerColour Z;
  kingAttackersWeight  : PerColour Z;
  pkeval               : PerColour Z;
  pkentry              : option PawnKingEntry
}.

(** Assignments to the fields that the evaluators write. *)
Definition set_attacked (v : PerColour Z) (ei : EvalInfo) : EvalInfo :=
  mkEvalInfo (pawnAttacks_ ei) (rammedPawns ei) (blockedPawns ei) (kingAreas ei)
    (mobilityAreas ei) v (attackedBy2 ei) (attackedBy ei)
    (occupiedMinusBishops ei) (occupiedMinusRooks ei) (passedPawns ei)
    (kingSquare ei) (kingAttacksCount ei) (kingAttackersCount ei)
    (kingAttackersWeight ei) (pkeval ei) (pkentry ei).

Definition set_attackedBy2 (v : PerColour Z) (ei : EvalInfo) : EvalInfo :=
  mkEvalInfo (pawnAttacks_ ei) (rammedPawns ei) (blockedPawns ei) (kingAreas ei)
    (mobilityAreas ei) (attacked ei) v (attackedBy ei)
    (occupiedMinusBishops ei) (occupiedMinusRooks ei) (passedPawns ei)
    (kingSquare ei) (kingAttacksCount ei) (kingAttackersCount ei)
    (kingAttackersWeight ei) (pkeval ei) (pkentry ei).

Definition set_attackedBy (v : PerColour (PerPiece Z)) (ei : EvalInfo) : EvalInfo :=
  mkEvalInfo (pawnAttacks_ ei) (rammedPawns ei) (blockedPawns ei) (kingAreas ei)
    (mobilityAreas ei) (attacked ei) (attackedBy2 ei) v
    (occupiedMinusBishops ei) (occupiedMinusRooks ei) (passedPawns ei)
    (kingSquare ei) (kingAttacksCount ei) (kingAttackersCount ei)
    (kingAttackersWeight ei) (pkeval ei) (pkentry ei).

Definition set_passedPawns (v : Z) (ei : EvalInfo) : EvalInfo :=
  mkEvalInfo (pawnAttacks_ ei) (rammedPawns ei) (blockedPawns ei) (kingAreas ei)
    (mobilityAreas ei) (attacked ei) (attackedBy2 ei) (attackedBy ei)
    (occupiedMinusBishops ei) (occupiedMinusRooks ei) v
    (kingSquare ei) (kingAttacksCount ei) (kingAttackersCount ei)
    (kingAttackersWeight ei) (pkeval ei) (pkentry ei).

Definition set_kingAttacksCount (v : PerColour Z) (ei : EvalInfo) : EvalInfo :=
  mkEvalInfo (pawnAttacks_ ei) (rammedPawns ei) (blockedPawns ei) (kingAreas ei)
    (mobilityAreas ei) (attacked ei) (attackedBy2 ei) (attackedBy ei)
    (occupiedMinusBishops ei) (occupiedMinusRooks ei) (passedPawns ei)
    (kingSquare ei) v (kingAttackersCount ei)
    (kingAttackersWeight ei) (pkeval ei) (pkentry ei).

Definition set_kingAttackersCount (v : PerColour Z) (ei : EvalInfo) : EvalInfo :=
  mkEvalInfo (pawnAttacks_ ei) (rammedPawns ei) (blockedPawns ei) (kingAreas ei)
    (mobilityAreas ei) (attacked ei) (attackedBy2 ei) (attackedBy ei)
    (occupiedMinusBishops ei) (occupiedMinusRooks ei) (passedPawns ei)
    (kingSquare ei) (kingAttacksCount ei) v
    (kingAttackersWeight ei) (pkeval ei) (pkentry ei).

Definition set_kingAttackersWeight (v : PerColour Z) (ei : EvalInfo) : EvalInfo :=
  mkEvalInfo (pawnAttacks_ ei) (rammedPawns ei) (blockedPawns ei) (kingAreas ei)
    (mobilityAreas ei) (attacked ei) (attackedBy2 ei) (attackedBy ei)
    (occupiedMinusBishops ei) (occupiedMinusRooks ei) (passedPawns ei)
    (kingSquare ei) (kingAttacksCount ei) (kingAttackersCount ei)
    v (pkeval ei) (pkentry ei).

Definition set_pkeval (v : PerColour Z) (ei : EvalInfo) : EvalInfo :=
  mkEvalInfo (pawnAttacks_ ei) (rammedPawns ei) (blockedPawns ei) (kingAreas ei)
    (mobilityAreas ei) (attacked ei) (attackedBy2 ei) (attackedBy ei)
    (occupiedMinusBishops ei) (occupiedMinusRooks ei) (passedPawns ei)
    (kingSquare ei) (kingAttacksCount ei) (kingAttackersCount ei)
    (kingAttackersWeight ei) v (pkentry ei).

(* ================================================================== *)
(** ** [evaluate.c]: the evaluators

    Every evaluator takes the scratchpad, the board and a colour, and returns
    its score together with the scratchpad it leaves behind. *)

(** The three assignments with which every piece evaluator stores the attacks
    of a piece:
    [attackedBy2[US] |= attacks & attacked[US]; attacked[US] |= attacks;
     attackedBy[US][PIECE] |= attacks]. *)
Definition storeAttacks (US : Colour) (piece : PieceType) (attacks : Z)
           (ei : EvalInfo) : EvalInfo :=
  let ei := set_attackedBy2
              (upd US (Z.lor (sel US (attackedBy2 ei))
                             (Z.land attacks (sel US (attacked ei))))
                   (attackedBy2 ei)) ei in
  let ei := set_attacked
              (upd US (Z.lor (sel US (attacked ei)) attacks) (attacked ei)) ei in
  set_attackedBy
    (upd US (updP piece (Z.lor (selP piece (sel US (attackedBy ei))) attacks)
                  (sel US (attackedBy ei)))
         (attackedBy ei)) ei.

(** [attackedBy[US][PIECE] = 0ull] *)
Definition clearAttackedBy (US : Colour) (piece : PieceType) (ei : EvalInfo)
  : EvalInfo :=
  set_attackedBy (upd US (updP piece 0 (sel US (attackedBy ei))) (attackedBy ei)) ei.

(** "Update for King Safety calculation": the attacks of the piece that fall
    into the king area of the enemy. *)
Definition updateKingSafety (US : Colour) (piece : PieceType) (attacks : Z)
           (ei : EvalInfo) : EvalInfo :=
  let attacks := Z.land attacks (sel (opp US) (kingAreas ei)) in
  if attacks =? 0 then ei
  else
    let ei := set_kingAttacksCount
                (upd US (sel US (kingAttacksCount ei) + popcount attacks)
                     (kingAttacksCount ei)) ei in
    let ei := set_kingAttackersCount
                (upd US (sel US (kingAttackersCount ei) + 1)
                     (kingAttackersCount ei)) ei in
    set_kingAttackersWeight
      (upd US (sel US (kingAttackersWeight ei)
               + nthZ (pieceIndex piece) KSAttackWeight)
           (kingAttackersWeight ei)) ei.

(** *** Pawns *)

(** "Save passed pawn information for later evaluation", else "apply a bonus
    for pawns which will become passers by advancing a single square". *)
Definition pawnPassedOrCandidate (US : Colour) (myPawns enemyPawns sq : Z)
           (st : EvalInfo * Z) : EvalInfo * Z :=
  let '(ei, pkeval) := st in
  let THEM := opp US in
  let stoppers    := Z.land enemyPawns (passedPawnMasks US sq) in
  let threats     := Z.land enemyPawns (pawnAttacks US sq) in
  let support     := Z.land myPawns (pawnAttacks THEM sq) in
  let pushThreats := Z.land enemyPawns (pawnAttacks US (sq + Forward US)) in
  let pushSupport := Z.land myPawns (pawnAttacks THEM (sq + Forward US)) in
  let leftovers   := Z.lxor (Z.lxor stoppers threats) pushThreats in
  if stoppers =? 0 then
    (set_passedPawns (setBit (passedPawns ei) sq) ei, pkeval)
  else if (leftovers =? 0) && (popcount pushThreats <=? popcount pushSupport)
  then
    let flag := b2z (popcount threats <=? popcount support) in
    (ei, pkeval + nthZ2 flag (relativeRankOf US sq) PawnCandidatePasser)
  else (ei, pkeval).

(** "Apply a penalty if the pawn is isolated" *)
Definition pawnIsolated (myPawns sq : Z) (pkeval : Z) : Z :=
  if Z.land (adjacentFilesMasks (fileOf sq)) myPawns =? 0
  then pkeval + PawnIsolated else pkeval.

(** "Apply a penalty if the pawn is stacked" *)
Definition pawnStacked (sq tempPawns : Z) (pkeval : Z) : Z :=
  if negb (Z.land (Files (fileOf sq)) tempPawns =? 0)
  then pkeval + PawnStacked else pkeval.

(** "Apply a penalty if the pawn is backward", else "apply a bonus if the pawn
    is connected and not backward". *)
Definition pawnBackwardOrConnected (US : Colour) (ei : EvalInfo)
           (myPawns enemyPawns sq : Z) (pkeval : Z) : Z :=
  let THEM := opp US in
  if (Z.land (passedPawnMasks THEM sq) myPawns =? 0)
     && testBit (sel THEM (pawnAttacks_ ei)) (sq + Forward US)
  then
    let flag := b2z (Z.land (Files (fileOf sq)) enemyPawns =? 0) in
    pkeval + nthZ flag PawnBackwards
  else if negb (Z.land (pawnConnectedMasks US sq) myPawns =? 0)
  then pkeval + nthZ (relativeSquare32 sq US) PawnConnected32
  else pkeval.

(** The body of "Evaluate each pawn (but not for being passed)". *)
Definition evaluatePawns_body (US : Colour) (myPawns enemyPawns : Z)
           (sq tempPawns : Z) (st : EvalInfo * Z) : EvalInfo * Z :=
  let '(ei, pkeval) := pawnPassedOrCandidate US myPawns enemyPawns sq st in
  let pkeval := pawnIsolated myPawns sq pkeval in
  let pkeval := pawnStacked sq tempPawns pkeval in
  let pkeval := pawnBackwardOrConnected US ei myPawns enemyPawns sq pkeval in
  (ei, pkeval).

Definition evaluatePawns (ei : EvalInfo) (board : Board) (colour : Colour)
  : Z * EvalInfo :=
  let US := colour in
  let THEM := opp colour in
  let eval := 0 in
  (* Store off pawn attacks for king safety and threat computations *)
  let ei := set_attackedBy2
              (upd US (Z.land (sel US (pawnAttacks_ ei)) (sel US (attacked ei)))
                   (attackedBy2 ei)) ei in
  let ei := set_attacked
              (upd US (Z.lor (sel US (attacked ei)) (sel US (pawnAttacks_ ei)))
                   (attacked ei)) ei in
  let ei := set_attackedBy
              (upd US (updP PAWN (sel US (pawnAttacks_ ei)) (sel US (attackedBy ei)))
                   (attackedBy ei)) ei in
  (* Update attacker counts for King Safety computation *)
  let attacks := Z.land (sel US (pawnAttacks_ ei)) (sel THEM (kingAreas ei)) in
  let ei := set_kingAttacksCount
              (upd US (sel US (kingAttacksCount ei) + popcount attacks)
                   (kingAttacksCount ei)) ei in
  (* Pawn hash holds the rest of the pawn evaluation *)
  match pkentry ei with
  | Some _ => (eval, ei)
  | None =>
      let pawns := pieces board PAWN in
      let myPawns := Z.land pawns (colours board US) in
      let enemyPawns := Z.land pawns (colours board THEM) in
      let '(ei, pk) :=
        bbLoop 64 (evaluatePawns_body US myPawns enemyPawns) myPawns (ei, 0) in
      (* Save eval for the Pawn Hash *)
      (eval, set_pkeval (upd US pk (pkeval ei)) ei)
  end.

(** *** Knights *)

(** The outpost bonus of knights and bishops: the piece is on an outpost rank
    and no enemy pawn can come to attack it; the bonus is larger when one of
    our pawns supports it. *)
Definition outpostTerm (US : Colour) (ei : EvalInfo) (enemyPawns sq : Z)
           (table : list Z) : Z :=
  if testBit (outpostRanksMasks US) sq
     && (Z.land (outpostSquareMasks US sq) enemyPawns =? 0)
  then
    let defended := b2z (testBit (sel US (pawnAttacks_ ei)) sq) in
    nthZ defended table
  else 0.

(** [count = popcount(ei->mobilityAreas[US] & attacks)] *)
Definition mobilityCount (US : Colour) (ei : EvalInfo) (attacks : Z) : Z :=
  popcount (Z.land (sel US (mobilityAreas ei)) attacks).

Definition evaluateKnights_body (US : Colour) (board : Board) (enemyPawns : Z)
           (sq tempKnights : Z) (st : Z * EvalInfo) : Z * EvalInfo :=
  let '(eval, ei) := st in
  let THEM := opp US in
  (* Compute possible attacks and store off information for king safety *)
  let attacks := knightAttacks sq in
  let ei := storeAttacks US KNIGHT attacks ei in
  (* Outpost *)
  let eval := eval + outpostTerm US ei enemyPawns sq KnightOutpost in
  (* Behind a pawn *)
  let eval := if testBit (pawnAdvance (pieces board PAWN) 0 THEM) sq
              then eval + KnightBehindPawn else eval in
  (* Mobility *)
  let count := mobilityCount US ei attacks in
  let eval := eval + nthZ count KnightMobility in
  (* Update for King Safety calculation *)
  (eval, updateKingSafety US KNIGHT attacks ei).

Definition evaluateKnights (ei : EvalInfo) (board : Board) (colour : Colour)
  : Z * EvalInfo :=
  let US := colour in
  let THEM := opp colour in
  let enemyPawns := Z.land (pieces board PAWN) (colours board THEM) in
  let tempKnights := Z.land (pieces board KNIGHT) (colours board US) in
  let ei := clearAttackedBy US KNIGHT ei in
  bbLoop 64 (evaluateKnights_body US board enemyPawns) tempKnights (0, ei).

(** *** Bishops *)

Definition evaluateBishops_body (US : Colour) (myPawns enemyPawns : Z)
           (sq tempBishops : Z) (st : Z * EvalInfo) : Z * EvalInfo :=
  let '(eval, ei) := st in
  let THEM := opp US in
  (* Compute possible attacks and store off information for king safety *)
  let attacks := bishopAttacks sq (sel US (occupiedMinusBishops ei)) in
  let ei := storeAttacks US BISHOP attacks ei in
  (* Rammed pawns of our colour on the shade of square of the bishop *)
  let count := popcount (Z.land (sel US (rammedPawns ei))
                                (if testBit WHITE_SQUARES sq
                                 then WHITE_SQUARES else BLACK_SQUARES)) in
  let eval := eval + count * BishopRammedPawns in
  (* Outpost *)
  let eval := eval + outpostTerm US ei enemyPawns sq BishopOutpost in
  (* Behind a pawn *)
  let eval := if testBit (pawnAdvance (Z.lor myPawns enemyPawns) 0 THEM) sq
              then eval + BishopBehindPawn else eval in
  (* Mobility *)
  let count := mobilityCount US ei attacks in
  let eval := eval + nthZ count BishopMobility in
  (* Update for King Safety calculation *)
  (eval, updateKingSafety US BISHOP attacks ei).

Definition evaluateBishops (ei : EvalInfo) (board : Board) (colour : Colour)
  : Z * EvalInfo :=
  let US := colour in
  let THEM := opp colour in
  let myPawns := Z.land (pieces board PAWN) (colours board US) in
  let enemyPawns := Z.land (pieces board PAWN) (colours board THEM) in
  let tempBishops := Z.land (pieces board BISHOP) (colours board US) in
  let ei := clearAttackedBy US BISHOP ei in
  (* Apply a bonus for having a pair of bishops *)
  let eval := if negb (Z.land tempBishops WHITE_SQUARES =? 0)
                 && negb (Z.land tempBishops BLACK_SQUARES =? 0)
              then BishopPair else 0 in
  bbLoop 64 (evaluateBishops_body US myPawns enemyPawns) tempBishops (eval, ei).

(** *** Rooks *)

(** "Rook gains a bonus for being located on seventh rank relative to its
    colour so long as the enemy king is on the last two ranks of the board" *)
Definition rookOnSeventh (US : Colour) (ei : EvalInfo) (sq : Z) : bool :=
  (relativeRankOf US sq =? 6)
  && (6 <=? relativeRankOf US (sel (opp US) (kingSquare ei))).

Definition evaluateRooks_body (US : Colour) (myPawns enemyPawns : Z)
           (sq tempRooks : Z) (st : Z * EvalInfo) : Z * EvalInfo :=
  let '(eval, ei) := st in
  let THEM := opp US in
  (* Compute possible attacks and store off information for king safety *)
  let attacks := rookAttacks sq (sel US (occupiedMinusRooks ei)) in
  let ei := storeAttacks US ROOK attacks ei in
  (* Semi-open and open files *)
  let eval := if Z.land myPawns (Files (fileOf sq)) =? 0
              then
                let open := b2z (Z.land enemyPawns (Files (fileOf sq)) =? 0) in
                eval + nthZ open RookFile
              else eval in
  (* Seventh rank *)
  let eval := if rookOnSeventh US ei sq then eval + RookOnSeventh else eval in
  (* Mobility *)
  let count := mobilityCount US ei attacks in
  let eval := eval + nthZ count RookMobility in
  (* Update for King Safety calculation *)
  (eval, updateKingSafety US ROOK attacks ei).

Definition evaluateRooks (ei : EvalInfo) (board : Board) (colour : Colour)
  : Z * EvalInfo :=
  let US := colour in
  let THEM := opp colour in
  let myPawns := Z.land (pieces board PAWN) (colours board US) in
  let enemyPawns := Z.land (pieces board PAWN) (colours board THEM) in
  let tempRooks := Z.land (pieces board ROOK) (colours board US) in
  let ei := clearAttackedBy US ROOK ei in
  bbLoop 64 (evaluateRooks_body US myPawns enemyPawns) tempRooks (0, ei).

(** *** Queens *)

Definition queenAttacks (US : Colour) (ei : EvalInfo) (sq : Z) : Z :=
  Z.lor (rookAttacks sq (sel US (occupiedMinusRooks ei)))
        (bishopAttacks sq (sel US (occupiedMinusBishops ei))).

Definition evaluateQueens_body (US : Colour)
           (sq tempQueens : Z) (st : Z * EvalInfo) : Z * EvalInfo :=
  let '(eval, ei) := st in
  (* Compute possible attacks and store off information for king safety *)
  let attacks := queenAttacks US ei sq in
  let ei := storeAttacks US QUEEN attacks ei in
  (* Mobility *)
  let count := mobilityCount US ei attacks in
  let eval := eval + nthZ count QueenMobility in
  (* Update for King Safety calculation *)
  (eval, updateKingSafety US QUEEN attacks ei).

Definition evaluateQueens (ei : EvalInfo) (board : Board) (colour : Colour)
  : Z * EvalInfo :=
  let US := colour in
  let tempQueens := Z.land (pieces board QUEEN) (colours board US) in
  let ei := clearAttackedBy US QUEEN ei in
  bbLoop 64 (evaluateQueens_body US) tempQueens (0, ei).

Section Evaluator.

(** The king-safety count of [evaluateKings] is computed in floating point:
    [float scaledAttackCounts = 9.0 * kingAttacksCount[THEM] / popcount(kingAreas[US])],
    then [count += KSAttackValue * scaledAttackCounts + ... + KSAdjustment], a
    sum of a [float] and of eight [int] summands that is converted back to
    [int].  The result depends on the rounding of the platform; it is a
    function of the integers that enter the computation, and the model takes
    that function as given: [floatCount count attacks area summands] is the
    value of [count] after the assignment, where [count] is its value before,
    [attacks] is [kingAttacksCount[THEM]], [area] is
    [popcount(kingAreas[US])] and [summands] are the eight integer summands in
    the order of the source. *)
Variable floatCount : Z -> Z -> Z -> list Z -> Z.

(** Modelled from the spec: the scale factors of [evaluate.h], which is not
    part of the sources under study.  §4.8: "exact scale numerators are tuning
    constants; [SCALE_NORMAL] is the divisor denominator for all others". *)
Variables SCALE_OCB_BISHOPS_ONLY SCALE_OCB_ONE_KNIGHT
          SCALE_OCB_ONE_ROOK SCALE_NORMAL : Z.

(** *** Kings *)

(** "Perform King Safety when we have two attackers, or one attacker with a
    potential for a Queen attacker": the condition as the code tests it. *)
Definition kingSafetyGate (US : Colour) (ei : EvalInfo) (enemyQueens : Z) : bool :=
  1 - popcount enemyQueens <? sel (opp US) (kingAttackersCount ei).

(** The value of [count] at the end of the king-safety block. *)
Definition kingSafetyCount (US : Colour) (ei : EvalInfo) (board : Board) : Z :=
  let THEM := opp US in
  let myPawns     := Z.land (pieces board PAWN) (colours board US) in
  let enemyQueens := Z.land (pieces board QUEEN) (colours board THEM) in
  let kingSq := sel US (kingSquare ei) in
  (* Weak squares are attacked by the enemy, defended no more than once and
     only defended by our Queens or our King *)
  let weak := Z.land (Z.land (sel THEM (attacked ei))
                             (bbNot (sel US (attackedBy2 ei))))
                     (Z.lor (Z.lor (bbNot (sel US (attacked ei)))
                                   (selP QUEEN (sel US (attackedBy ei))))
                            (selP KING (sel US (attackedBy ei)))) in
  (* Safe target squares are defended or are weak and attacked by two *)
  let safe := Z.land (bbNot (colours board THEM))
                     (Z.lor (bbNot (sel US (attacked ei)))
                            (Z.land weak (sel THEM (attackedBy2 ei)))) in
  (* Find square and piece combinations which would check our King *)
  let occupied      := Z.lor (colours board WHITE) (colours board BLACK) in
  let knightThreats := knightAttacks kingSq in
  let bishopThreats := bishopAttacks kingSq occupied in
  let rookThreats   := rookAttacks kingSq occupied in
  let queenThreats  := Z.lor bishopThreats rookThreats in
  (* Identify if there are pieces which can move to the checking squares safely *)
  let knightChecks := Z.land (Z.land knightThreats safe)
                             (selP KNIGHT (sel THEM (attackedBy ei))) in
  let bishopChecks := Z.land (Z.land bishopThreats safe)
                             (selP BISHOP (sel THEM (attackedBy ei))) in
  let rookChecks   := Z.land (Z.land rookThreats safe)
                             (selP ROOK (sel THEM (attackedBy ei))) in
  let queenChecks  := Z.land (Z.land queenThreats safe)
                             (selP QUEEN (sel THEM (attackedBy ei))) in
  let count := sel THEM (kingAttackersCount ei)
               * sel THEM (kingAttackersWeight ei) in
  floatCount count
    (sel THEM (kingAttacksCount ei))
    (popcount (sel US (kingAreas ei)))
    [ KSWeakSquares     * popcount (Z.land weak (sel US (kingAreas ei)));
      KSFriendlyPawns   * popcount (Z.land (Z.land myPawns (sel US (kingAreas ei)))
                                           (bbNot weak));
      KSNoEnemyQueens   * b2z (enemyQueens =? 0);
      KSSafeQueenCheck  * popcount queenChecks;
      KSSafeRookCheck   * popcount rookChecks;
      KSSafeBishopCheck * popcount bishopChecks;
      KSSafeKnightCheck * popcount knightChecks;
      KSAdjustment ].

(** One round of the loop over the file of the king and the adjacent files. *)
Definition kingShelterStorm (US : Colour) (myPawns enemyPawns kingFile kingRank : Z)
           (ei : EvalInfo) (file : Z) : EvalInfo :=
  (* Find closest friendly pawn at or above our King on a given file *)
  let ours := Z.land (Z.land myPawns (Files file)) (forwardRanksMasks US kingRank) in
  let ourDist := if ours =? 0 then 7
                 else Z.abs (kingRank - rankOf (backmost US ours)) in
  (* Find closest enemy pawn at or above our King on a given file *)
  let theirs := Z.land (Z.land enemyPawns (Files file)) (forwardRanksMasks US kingRank) in
  let theirDist := if theirs =? 0 then 7
                   else Z.abs (kingRank - rankOf (backmost US theirs)) in
  (* King Shelter *)
  let ei := set_pkeval
              (upd US (sel US (pkeval ei)
                       + nthZ3 (b2z (file =? kingFile)) file ourDist KingShelter)
                   (pkeval ei)) ei in
  (* King Storm *)
  let blocked := b2z (negb (ourDist =? 7) && (ourDist =? theirDist - 1)) in
  set_pkeval
    (upd US (sel US (pkeval ei)
             + nthZ3 blocked (mirrorFile file) theirDist KingStorm)
         (pkeval ei)) ei.

Definition evaluateKings (ei : EvalInfo) (board : Board) (colour : Colour)
  : Z * EvalInfo :=
  let US := colour in
  let THEM := opp colour in
  let eval := 0 in
  let myPawns     := Z.land (pieces board PAWN) (colours board US) in
  let enemyPawns  := Z.land (pieces board PAWN) (colours board THEM) in
  let enemyQueens := Z.land (pieces board QUEEN) (colours board THEM) in
  let myDefenders := Z.lor (Z.lor (Z.land (pieces board PAWN) (colours board US))
                                  (Z.land (pieces board KNIGHT) (colours board US)))
                           (Z.land (pieces board BISHOP) (colours board US)) in
  let kingSq := sel US (kingSquare ei) in
  let kingFile := fileOf kingSq in
  let kingRank := rankOf kingSq in
  (* Bonus for our pawns and minors sitting within our king area *)
  let count := popcount (Z.land myDefenders (sel US (kingAreas ei))) in
  let eval := eval + nthZ count KingDefenders in
  (* Perform King Safety when we have two attackers, or
     one attacker with a potential for a Queen attacker *)
  let eval :=
    if kingSafetyGate US ei enemyQueens then
      let count := kingSafetyCount US ei board in
      (* Convert safety to an MG and EG score, if we are unsafe *)
      if 0 <? count
      then eval - MakeScore (Z.quot (count * count) 720) (Z.quot count 20)
      else eval
    else eval in
  (* King Shelter & King Storm are stored in the Pawn King Table *)
  match pkentry ei with
  | Some _ => (eval, ei)
  | None =>
      (eval,
       fold_left (kingShelterStorm US myPawns enemyPawns kingFile kingRank)
                 (zrange (Z.max 0 (kingFile - 1)) (Z.min (8 - 1) (kingFile + 1)))
                 ei)
  end.

(** *** Passed pawns *)

Definition evaluatePassedPawns_body (US : Colour) (ei : EvalInfo) (occupied : Z)
           (sq tempPawns : Z) (eval : Z) : Z :=
  let THEM := opp US in
  let rank := relativeRankOf US sq in
  let bitboard := pawnAdvance (Z.shiftl 1 sq) 0 US in
  (* Evaluate based on rank, ability to advance, and safety *)
  let canAdvance := b2z (Z.land bitboard occupied =? 0) in
  let safeAdvance := b2z (Z.land bitboard (sel THEM (attacked ei)) =? 0) in
  let eval := eval + nthZ3 canAdvance safeAdvance rank PassedPawn in
  (* Evaluate based on distance from our king *)
  let dist := distanceBetween sq (sel US (kingSquare ei)) in
  let eval := eval + dist * nthZ rank PassedFriendlyDistance in
  (* Evaluate based on distance from their king *)
  let dist := distanceBetween sq (sel THEM (kingSquare ei)) in
  let eval := eval + dist * nthZ rank PassedEnemyDistance in
  (* Apply a bonus when the path to promoting is uncontested *)
  let bitboard := Z.land (forwardRanksMasks US (rankOf sq)) (Files (fileOf sq)) in
  let flag := b2z (Z.land bitboard (sel THEM (attacked ei)) =? 0) in
  eval + flag * PassedSafePromotionPath.

Definition evaluatePassedPawns (ei : EvalInfo) (board : Board) (colour : Colour)
  : Z * EvalInfo :=
  let US := colour in
  let tempPawns := Z.land (colours board US) (passedPawns ei) in
  let occupied := Z.lor (colours board WHITE) (colours board BLACK) in
  (bbLoop 64 (evaluatePassedPawns_body US ei occupied) tempPawns 0, ei).

(** *** Threats *)

Definition evaluateThreats (ei : EvalInfo) (board : Board) (colour : Colour)
  : Z * EvalInfo :=
  let US := colour in
  let THEM := opp colour in
  let Rank3Rel := match US with WHITE => RANK_3 | BLACK => RANK_6 end in
  let eval := 0 in
  let friendly := colours board US in
  let enemy    := colours board THEM in
  let occupied := Z.lor friendly enemy in
  let pawns   := Z.land friendly (pieces board PAWN) in
  let knights := Z.land friendly (pieces board KNIGHT) in
  let bishops := Z.land friendly (pieces board BISHOP) in
  let rooks   := Z.land friendly (pieces board ROOK) in
  let queens  := Z.land friendly (pieces board QUEEN) in
  let attacksByPawns  := selP PAWN (sel THEM (attackedBy ei)) in
  let attacksByMinors := Z.lor (selP KNIGHT (sel THEM (attackedBy ei)))
                               (selP BISHOP (sel THEM (attackedBy ei))) in
  let attacksByMajors := Z.lor (selP ROOK (sel THEM (attackedBy ei)))
                               (selP QUEEN (sel THEM (attackedBy ei))) in
  (* Squares with more attackers, few defenders, and no pawn support *)
  let poorlyDefended :=
    Z.lor (Z.land (sel THEM (attacked ei)) (bbNot (sel US (attacked ei))))
          (Z.land (Z.land (sel THEM (attackedBy2 ei))
                          (bbNot (sel US (attackedBy2 ei))))
                  (bbNot (selP PAWN (sel US (attackedBy ei))))) in
  (* A friendly minor / major is overloaded if attacked and defended by exactly one *)
  let overloaded :=
    Z.land (Z.land (Z.land (Z.land (Z.lor (Z.lor (Z.lor knights bishops) rooks) queens)
                                   (sel US (attacked ei)))
                           (bbNot (sel US (attackedBy2 ei))))
                   (sel THEM (attacked ei)))
           (bbNot (sel THEM (attackedBy2 ei))) in
  (* Enemy non-pawn pieces which we may threaten with a pawn advance *)
  let pushThreat := pawnAdvance pawns occupied US in
  let pushThreat :=
    Z.lor pushThreat
          (pawnAdvance (Z.land (Z.land pushThreat (bbNot attacksByPawns)) Rank3Rel)
                       occupied US) in
  let pushThreat :=
    Z.land pushThreat
           (Z.land (bbNot attacksByPawns)
                   (Z.lor (sel US (attacked ei)) (bbNot (sel THEM (attacked ei))))) in
  let pushThreat :=
    pawnAttackSpan pushThreat
      (Z.land enemy (bbNot (selP PAWN (sel US (attackedBy ei))))) US in
  (* Penalty for each of our poorly supported pawns *)
  let count := popcount (Z.land (Z.land pawns (bbNot attacksByPawns)) poorlyDefended) in
  let eval := eval + count * ThreatWeakPawn in
  (* Penalty for pawn threats against our minors *)
  let count := popcount (Z.land (Z.lor knights bishops) attacksByPawns) in
  let eval := eval + count * ThreatMinorAttackedByPawn in
  (* Penalty for any minor threat against minor pieces *)
  let count := popcount (Z.land (Z.lor knights bishops) attacksByMinors) in
  let eval := eval + count * ThreatMinorAttackedByMinor in
  (* Penalty for all major threats against poorly supported minors *)
  let count := popcount (Z.land (Z.land (Z.lor knights bishops) poorlyDefended)
                                attacksByMajors) in
  let eval := eval + count * ThreatMinorAttackedByMajor in
  (* Penalty for pawn and minor threats against our rooks *)
  let count := popcount (Z.land rooks (Z.lor attacksByPawns attacksByMinors)) in
  let eval := eval + count * ThreatRookAttackedByLesser in
  (* Penalty for any threat against our queens *)
  let count := popcount (Z.land queens (sel THEM (attacked ei))) in
  let eval := eval + count * ThreatQueenAttackedByOne in
  (* Penalty for any overloaded minors or majors *)
  let count := popcount overloaded in
  let eval := eval + count * ThreatOverloadedPieces in
  (* Bonus for giving threats by safe pawn pushes *)
  let count := popcount pushThreat in
  let eval := eval + count * ThreatByPawnPush in
  (eval, ei).

(** *** The scale factor *)

Definition evaluateScaleFactor (board : Board) : Z :=
  let white   := colours board WHITE in
  let black   := colours board BLACK in
  let knights := pieces board KNIGHT in
  let bishops := pieces board BISHOP in
  let rooks   := pieces board ROOK in
  let queens  := pieces board QUEEN in
  if onlyOne (Z.land white bishops)
     && onlyOne (Z.land black bishops)
     && onlyOne (Z.land bishops WHITE_SQUARES)
  then
    if Z.lor (Z.lor knights rooks) queens =? 0
    then SCALE_OCB_BISHOPS_ONLY
    else if (Z.lor rooks queens =? 0)
            && onlyOne (Z.land white knights)
            && onlyOne (Z.land black knights)
    then SCALE_OCB_ONE_KNIGHT
    else if (Z.lor knights queens =? 0)
            && onlyOne (Z.land white rooks)
            && onlyOne (Z.land black rooks)
    then SCALE_OCB_ONE_ROOK
    else SCALE_NORMAL
  else SCALE_NORMAL.

(** *** The scratchpad at the start of an evaluation *)

Definition initializeEvalInfo (board : Board) (pktable : option PawnKingTable)
  : EvalInfo :=
  let white   := colours board WHITE in
  let black   := colours board BLACK in
  let pawns   := pieces board PAWN in
  let bishops := pieces board BISHOP in
  let rooks   := pieces board ROOK in
  let queens  := pieces board QUEEN in
  let kings   := pieces board KING in
  let whitePawns := Z.land white pawns in
  let blackPawns := Z.land black pawns in
  let wKingSq := getlsb (Z.land white kings) in
  let bKingSq := getlsb (Z.land black kings) in
  let pawnAttacksW := pawnAttackSpan whitePawns (bbNot 0) WHITE in
  let pawnAttacksB := pawnAttackSpan blackPawns (bbNot 0) BLACK in
  let blockedPawnsW := pawnAdvance (Z.lor white black) (bbNot whitePawns) BLACK in
  let blockedPawnsB := pawnAdvance (Z.lor white black) (bbNot blackPawns) WHITE in
  let pke := match pktable with
             | None => None
             | Some t => getPawnKingEntry t (pkhash board)
             end in
  {| kingSquare := (wKingSq, bKingSq);
     pawnAttacks_ := (pawnAttacksW, pawnAttacksB);
     rammedPawns := (pawnAdvance blackPawns (bbNot whitePawns) BLACK,
                     pawnAdvance whitePawns (bbNot blackPawns) WHITE);
     blockedPawns := (blockedPawnsW, blockedPawnsB);
     kingAreas := (kingAreaMasks WHITE wKingSq, kingAreaMasks BLACK bKingSq);
     mobilityAreas :=
       (bbNot (Z.lor (Z.lor pawnAttacksB (Z.land white kings)) blockedPawnsW),
        bbNot (Z.lor (Z.lor pawnAttacksW (Z.land black kings)) blockedPawnsB));
     attacked := (kingAttacks wKingSq, kingAttacks bKingSq);
     attackedBy :=
       (mkPerPiece 0 0 0 0 0 (kingAttacks wKingSq),
        mkPerPiece 0 0 0 0 0 (kingAttacks bKingSq));
     attackedBy2 := (0, 0);
     occupiedMinusBishops :=
       (Z.lxor (Z.lor white black) (Z.land white (Z.lor bishops queens)),
        Z.lxor (Z.lor white black) (Z.land black (Z.lor bishops queens)));
     occupiedMinusRooks :=
       (Z.lxor (Z.lor white black) (Z.land white (Z.lor rooks queens)),
        Z.lxor (Z.lor white black) (Z.land black (Z.lor rooks queens)));
     kingAttacksCount    := (0, 0);
     kingAttackersCount  := (0, 0);
     kingAttackersWeight := (0, 0);
     pkentry     := pke;
     passedPawns := match pke with None => 0 | Some e => pke_passed e end;
     pkeval      := (match pke with None => 0 | Some e => pke_eval e end,
                     match pke with None => 0 | Some _ => 0 end) |}.

(** *** The whole evaluation *)

(** [f(ei, board, WHITE) - f(ei, board, BLACK)], the call for [WHITE] first. *)
Definition whiteMinusBlack (f : EvalInfo -> Board -> Colour -> Z * EvalInfo)
           (ei : EvalInfo) (board : Board) : Z * EvalInfo :=
  let '(w, ei) := f ei board WHITE in
  let '(b, ei) := f ei board BLACK in
  (w - b, ei).

Definition evaluatePieces (ei : EvalInfo) (board : Board) : Z * EvalInfo :=
  let eval := 0 in
  let '(d, ei) := whiteMinusBlack evaluatePawns ei board in
  let eval := eval + d in
  let '(d, ei) := whiteMinusBlack evaluateKnights ei board in
  let eval := eval + d in
  let '(d, ei) := whiteMinusBlack evaluateBishops ei board in
  let eval := eval + d in
  let '(d, ei) := whiteMinusBlack evaluateRooks ei board in
  let eval := eval + d in
  let '(d, ei) := whiteMinusBlack evaluateQueens ei board in
  let eval := eval + d in
  let '(d, ei) := whiteMinusBlack evaluateKings ei board in
  let eval := eval + d in
  let '(d, ei) := whiteMinusBlack evaluatePassedPawns ei board in
  let eval := eval + d in
  let '(d, ei) := whiteMinusBlack evaluateThreats ei board in
  let eval := eval + d in
  (eval, ei).

(** "Calcuate the game phase based on remaining material (Fruit Method)" *)
Definition gamePhase (board : Board) : Z :=
  let phase := 24 - 4 * popcount (pieces board QUEEN)
                  - 2 * popcount (pieces board ROOK)
                  - 1 * popcount (Z.lor (pieces board KNIGHT) (pieces board BISHOP)) in
  Z.quot (phase * 256 + 12) 24.

(** The score accumulated from White's point of view, before it is tapered:
    [eval] after [eval += pkeval + board->psqtmat + Tempo[board->turn]]. *)
Definition accumulatedScore (board : Board) (pktable : option PawnKingTable) : Z :=
  let ei := initializeEvalInfo board pktable in
  let '(eval, ei) := evaluatePieces ei board in
  let pkdiff := sel WHITE (pkeval ei) - sel BLACK (pkeval ei) in
  eval + (pkdiff + psqtmat board + nthZ (colourIndex (turn board)) Tempo).

(** [evaluateBoard] returns the score and leaves the pawn-king table, when
    there is one, with the new entry of a miss. *)
Definition evaluateBoard (board : Board) (pktable : option PawnKingTable)
  : Z * option PawnKingTable :=
  (* Setup and perform all evaluations *)
  let ei := initializeEvalInfo board pktable in
  let '(eval, ei) := evaluatePieces ei board in
  let pkdiff := sel WHITE (pkeval ei) - sel BLACK (pkeval ei) in
  let eval := eval + (pkdiff + psqtmat board + nthZ (colourIndex (turn board)) Tempo) in
  (* Calcuate the game phase based on remaining material (Fruit Method) *)
  let phase := gamePhase board in
  (* Scale evaluation based on remaining material *)
  let factor := evaluateScaleFactor board in
  (* Compute the interpolated and scaled evaluation *)
  let eval := Z.quot (ScoreMG eval * (256 - phase)
                      + Z.quot (ScoreEG eval * phase * factor) SCALE_NORMAL) 256 in
  (* Store a new Pawn King Entry if we did not have one *)
  let pktable := match pkentry ei, pktable with
                 | None, Some t =>
                     Some (storePawnKingEntry t (pkhash board) (passedPawns ei) pkdiff)
                 | _, _ => pktable
                 end in
  (* Return the evaluation relative to the side to move *)
  (match turn board with WHITE => eval | BLACK => - eval end, pktable).

End Evaluator.

(* ================================================================== *)
(** ** Boards the evaluator accepts *)

(** A 64-bit word. *)
Definition inU64 (b : Z) : bool := (0 <=? b) && (b <=? U64_MAX).

(** No square holds two kinds of piece. *)
Fixpoint pairwiseDisjoint (l : list Z) : bool :=
  match l with
  | [] => true
  | b :: t => forallb (fun b' => Z.land b b' =? 0) t && pairwiseDisjoint t
  end.

(** The preconditions of §7 together with the invariants of the board
    representation: the bitboards are 64-bit words, the two colours are
    disjoint, the piece kinds are disjoint and make up the two colours, each
    side has exactly one king, and no pawn stands on the first or the last
    rank. *)
Definition wfBoard (b : Board) : bool :=
  forallb (fun p => inU64 (pieces b p)) allPieceTypes
  && inU64 (colours b WHITE) && inU64 (colours b BLACK)
  && (Z.land (colours b WHITE) (colours b BLACK) =? 0)
  && pairwiseDisjoint (map (pieces b) allPieceTypes)
  && (fold_right Z.lor 0 (map (pieces b) allPieceTypes)
      =? Z.lor (colours b WHITE) (colours b BLACK))
  && onlyOne (Z.land (colours b WHITE) (pieces b KING))
  && onlyOne (Z.land (colours b BLACK) (pieces b KING))
  && (Z.land (pieces b PAWN) (Z.lor (Ranks 0) (Ranks 7)) =? 0).

(** The sum of [f] over the squares of a bitboard. *)
Definition sumOver (f : Z -> Z) (b : Z) : Z :=
  fold_right Z.add 0 (map f (squares b)).

(** Modelled from the spec: [psqtmat] is maintained by the move-making code,
    which is not part of the sources under study.  §3: it is the "running sum
    of PSQT+material over all pieces on board (invariant: equals what the
    evaluator would compute from scratch)"; §8.2: "the sum over all pieces of
    [PSQT[piece][square]]". *)
Definition psqtSide (board : Board) (c : Colour) : Z :=
  fold_right Z.add 0
    (map (fun p => sumOver (fun sq => nthZ2 (makePiece p c) sq PSQT)
                           (Z.land (pieces board p) (colours board c)))
         allPieceTypes).

Definition psqtSum (board : Board) : Z :=
  psqtSide board WHITE + psqtSide board BLACK.

(* ================================================================== *)
(** ** The colour-mirrored twin of a position *)

(** The square with the rank mirrored: a1 and a8, e2 and e7, ... *)
Definition flipSq (s : Z) : Z := 8 * (7 - rankOf s) + fileOf s.

(** The bitboard flipped vertically. *)
Definition flipBB (b : Z) : Z := bbOf (fun s => Z.testbit b (flipSq s)).

Definition mapP {A B} (f : A -> B) (a : PerPiece A) : PerPiece B :=
  mkPerPiece (f (ofPawn a)) (f (ofKnight a)) (f (ofBishop a))
             (f (ofRook a)) (f (ofQueen a)) (f (ofKing a)).

(** Board flipped vertically, colours swapped, side to move swapped.  The
    castling rights are no part of what the evaluator reads.  The fields
    [psqtmat] and [pkhash] of the twin are those of its own representation. *)
Definition mirrorBoard (b : Board) (psqtmat' pkhash' : Z) : Board :=
  {| pieces_  := mapP flipBB (pieces_ b);
     colours_ := (flipBB (colours b BLACK), flipBB (colours b WHITE));
     turn     := opp (turn b);
     psqtmat  := psqtmat';
     pkhash   := pkhash' |}.

(** Bitboards of both sides mirrored, and the two sides exchanged. *)
Definition mirrorBBs (a : PerColour Z) : PerColour Z :=
  (flipBB (snd a), flipBB (fst a)).

Definition mirrorSqs (a : PerColour Z) : PerColour Z :=
  (flipSq (snd a), flipSq (fst a)).

Definition swapSides {A} (a : PerColour A) : PerColour A := (snd a, fst a).

(** The scratchpad of the twin: what [ei] holds for one side, the twin holds,
    flipped, for the other.  The pawn-king fields are left to the caller. *)
Definition mirrorInfo (ei : EvalInfo) : EvalInfo :=
  {| pawnAttacks_ := mirrorBBs (pawnAttacks_ ei);
     rammedPawns := mirrorBBs (rammedPawns ei);
     blockedPawns := mirrorBBs (blockedPawns ei);
     kingAreas := mirrorBBs (kingAreas ei);
     mobilityAreas := mirrorBBs (mobilityAreas ei);
     attacked := mirrorBBs (attacked ei);
     attackedBy2 := mirrorBBs (attackedBy2 ei);
     attackedBy := (mapP flipBB (snd (attackedBy ei)),
                    mapP flipBB (fst (attackedBy ei)));
     occupiedMinusBishops := mirrorBBs (occupiedMinusBishops ei);
     occupiedMinusRooks := mirrorBBs (occupiedMinusRooks ei);
     passedPawns := flipBB (passedPawns ei);
     kingSquare := mirrorSqs (kingSquare ei);
     kingAttacksCount := swapSides (kingAttacksCount ei);
     kingAttackersCount := swapSides (kingAttackersCount ei);
     kingAttackersWeight := swapSides (kingAttackersWeight ei);
     pkeval := swapSides (pkeval ei);
     pkentry := pkentry ei |}.

(* ================================================================== *)
(** ** What the specification says, and positions to try it on *)

(** §4.8: "[phase = 24 − 4·Q − 2·R − (N+B)], clamped non-negative", then
    "[phase = (phase·256 + 12) / 24]". *)
Definition rawPhase (board : Board) : Z :=
  24 - 4 * popcount (pieces board QUEEN) - 2 * popcount (pieces board ROOK)
     - popcount (pieces board KNIGHT) - popcount (pieces board BISHOP).

Definition specPhase (board : Board) : Z :=
  Z.quot (Z.max 0 (rawPhase board) * 256 + 12) 24.

(** §4.8: "[raw = (mg·(256 − phase) + eg·phase·scale/SCALE_NORMAL) / 256]",
    with the divisions of C. *)
Definition taperedBlend (scaleNormal mg eg phase scale : Z) : Z :=
  Z.quot (mg * (256 - phase) + Z.quot (eg * phase * scale) scaleNormal) 256.

(** §4.8: "one bishop each, different complexes". *)
Definition oppositeBishops (board : Board) : bool :=
  let wb := Z.land (colours board WHITE) (pieces board BISHOP) in
  let bb := Z.land (colours board BLACK) (pieces board BISHOP) in
  (popcount wb =? 1) && (popcount bb =? 1)
  && xorb (testBit WHITE_SQUARES (getlsb wb)) (testBit WHITE_SQUARES (getlsb bb)).

(** Exactly one piece of kind [p] for each side. *)
Definition oneEach (board : Board) (p : PieceType) : bool :=
  (popcount (Z.land (colours board WHITE) (pieces board p)) =? 1)
  && (popcount (Z.land (colours board BLACK) (pieces board p)) =? 1).

(** No piece of kind [p] on the board. *)
Definition noneOf (board : Board) (p : PieceType) : bool :=
  popcount (pieces board p) =? 0.

(** §4.3 in the spec's words, for one pawn: "Passed if [stoppers] is empty:
    [...] no pawn-term bonus here.  Candidate passer otherwise, if
    [leftovers] is empty and [|pushSupport| >= |pushThreats|]: add
    [PawnCandidatePasser[supportDominates][relativeRank]] where
    [supportDominates = |support| >= |threats|]". *)
Definition candidateBonus (US : Colour) (myPawns enemyPawns sq : Z) : Z :=
  let THEM := opp US in
  let stoppers    := Z.land enemyPawns (passedPawnMasks US sq) in
  let threats     := Z.land enemyPawns (pawnAttacks US sq) in
  let support     := Z.land myPawns (pawnAttacks THEM sq) in
  let pushThreats := Z.land enemyPawns (pawnAttacks US (sq + Forward US)) in
  let pushSupport := Z.land myPawns (pawnAttacks THEM (sq + Forward US)) in
  let leftovers   := Z.lxor (Z.lxor stoppers threats) pushThreats in
  if stoppers =? 0 then 0
  else if (leftovers =? 0) && (popcount pushThreats <=? popcount pushSupport)
  then nthZ2 (b2z (popcount threats <=? popcount support))
             (relativeRankOf US sq) PawnCandidatePasser
  else 0.

(** §9: "a fixed-point substitute multiplying by 9 and later dividing": an
    instance of the king-safety count that needs no floating point. *)
Definition fixedPointCount (count attacks area : Z) (summands : list Z) : Z :=
  count + Z.quot (KSAttackValue * 9 * attacks) area + fold_right Z.add 0 summands.

(** The scratchpad at the call of [evaluateKings]: after the pawns, knights,
    bishops, rooks and queens of both sides. *)
Definition infoBeforeKings (board : Board) (pktable : option PawnKingTable)
  : EvalInfo :=
  let ei := initializeEvalInfo board pktable in
  let ei := snd (whiteMinusBlack evaluatePawns ei board) in
  let ei := snd (whiteMinusBlack evaluateKnights ei board) in
  let ei := snd (whiteMinusBlack evaluateBishops ei board) in
  let ei := snd (whiteMinusBlack evaluateRooks ei board) in
  snd (whiteMinusBlack evaluateQueens ei board).

Definition bbOfSquares (l : list Z) : Z :=
  fold_right (fun s acc => Z.lor (Z.shiftl 1 s) acc) 0 l.

(** A loop that pops the squares of a bitboard in the order [order]: at each
    square, the square and the bitboard that is left.  The loops of the
    evaluators pop in ascending order ([poplsb]). *)
Fixpoint visits (order : list Z) : list (Z * Z) :=
  match order with
  | [] => []
  | sq :: rest => (sq, bbOfSquares rest) :: visits rest
  end.

(** A board with its [psqtmat] as the invariant of §3 wants it. *)
Definition withPsqtmat (b : Board) : Board :=
  mkBoard (pieces_ b) (colours_ b) (turn b) (psqtSum b) (pkhash b).

(** The initial position. *)
Definition startBoard : Board :=
  withPsqtmat
    {| pieces_ := mkPerPiece 0x00FF00000000FF00 0x4200000000000042
                             0x2400000000000024 0x8100000000000081
                             0x0800000000000008 0x1000000000000010;
       colours_ := (0x000000000000FFFF, 0xFFFF000000000000);
       turn := WHITE; psqtmat := 0; pkhash := 0x463B96181691FC9C |}.

(** The initial position after White's a-pawn has taken its way to b8 and
    become a second queen: [rQbqkbnr/1ppppppp/8/8/8/8/1PPPPPPP/RNBQKBNR b]. *)
Definition promotedBoard : Board :=
  withPsqtmat
    {| pieces_ := mkPerPiece 0x00FE00000000FE00 0x4000000000000042
                             0x2400000000000024 0x8100000000000081
                             0x0A00000000000008 0x1000000000000010;
       colours_ := (0x020000000000FEFF, 0xFDFE000000000000);
       turn := BLACK; psqtmat := 0; pkhash := 0x1F3A5C7E9B2D4F60 |}.

(** White king a1; black king h8 and black queens h5 and h6:
    [7k/8/7q/7q/8/8/8/K7 w]. *)
Definition twoQueensBoard : Board :=
  withPsqtmat
    {| pieces_ := mkPerPiece 0 0 0 0 (bbOfSquares [39; 47]) (bbOfSquares [0; 63]);
       colours_ := (bbOfSquares [0], bbOfSquares [39; 47; 63]);
       turn := WHITE; psqtmat := 0; pkhash := 0x0123456789ABCDEF |}.

(** White king e1 and rook a7, black king g8: [6k1/R7/8/8/8/8/8/4K3 w]. *)
Definition rookSeventhBoard : Board :=
  withPsqtmat
    {| pieces_ := mkPerPiece 0 0 0 (bbOfSquares [48]) 0 (bbOfSquares [4; 62]);
       colours_ := (bbOfSquares [4; 48], bbOfSquares [62]);
       turn := WHITE; psqtmat := 0; pkhash := 0x0F1E2D3C4B5A6978 |}.

(** White king e1 and bishop e2, black king e6 and bishop c5:
    [8/8/4k3/2b5/8/8/4B3/4K3 w]. *)
Definition oppositeBishopsBoard : Board :=
  withPsqtmat
    {| pieces_ := mkPerPiece 0 0 (bbOfSquares [12; 34]) 0 0 (bbOfSquares [4; 44]);
       colours_ := (bbOfSquares [4; 12], bbOfSquares [34; 44]);
       turn := WHITE; psqtmat := 0; pkhash := 0x1122334455667788 |}.

(** White king g1 and pawns e4, e5, f2, g2, h2; black king g8 and pawns d5,
    f7, g7, h7: [6k1/5ppp/8/3pP3/4P3/8/5PPP/6K1 w]. *)
Definition pawnsBoard : Board :=
  withPsqtmat
    {| pieces_ := mkPerPiece (bbOfSquares [13; 14; 15; 28; 36; 35; 53; 54; 55])
                             0 0 0 0 (bbOfSquares [6; 62]);
       colours_ := (bbOfSquares [6; 13; 14; 15; 28; 36],
                    bbOfSquares [35; 53; 54; 55; 62]);
       turn := WHITE; psqtmat := 0; pkhash := 0x7766554433221100 |}.

(** The scratchpad of that position when the pawns of Black are evaluated:
    after [evaluatePawns] for White. *)
Definition pawnsInfoForBlack : EvalInfo :=
  snd (evaluatePawns (initializeEvalInfo pawnsBoard None) pawnsBoard WHITE).

(** The scratchpad with its three pawn-king fields replaced. *)
Definition withPawnKing (e : option PawnKingEntry) (passed : Z) (pk : PerColour Z)
           (ei : EvalInfo) : EvalInfo :=
  mkEvalInfo (pawnAttacks_ ei) (rammedPawns ei) (blockedPawns ei) (kingAreas ei)
    (mobilityAreas ei) (attacked ei) (attackedBy2 ei) (attackedBy ei)
    (occupiedMinusBishops ei) (occupiedMinusRooks ei) passed
    (kingSquare ei) (kingAttacksCount ei) (kingAttackersCount ei)
    (kingAttackersWeight ei) pk e.

(** A pawn-king table that has never been written. *)
Definition emptyPawnKingTable : PawnKingTable := fun _ => mkPKEntry 0 0 0.

(** What an evaluator returns, with the pawn-king fields of the scratchpad
    replaced. *)
Definition liftPK (e : option PawnKingEntry) (p : Z) (k : PerColour Z)
           (st : Z * EvalInfo) : Z * EvalInfo :=
  (fst st, withPawnKing e p k (snd st)).

(** The invariants of the board representation, spelled out. *)
Record WellFormed (b : Board) : Prop := {
  wf_pieces   : forall p, 0 <= pieces b p < 2 ^ 64;
  wf_colours  : forall c, 0 <= colours b c < 2 ^ 64;
  wf_sides    : Z.land (colours b WHITE) (colours b BLACK) = 0;
  wf_kinds    : forall p q, p <> q -> Z.land (pieces b p) (pieces b q) = 0;
  wf_cover    : fold_right Z.lor 0 (map (pieces b) allPieceTypes)
                = Z.lor (colours b WHITE) (colours b BLACK);
  wf_wking    : popcount (Z.land (colours b WHITE) (pieces b KING)) = 1;
  wf_bking    : popcount (Z.land (colours b BLACK) (pieces b KING)) = 1;
  wf_pawns    : Z.land (pieces b PAWN) (Z.lor (Ranks 0) (Ranks 7)) = 0
}.

(* ================================================================== *)
(** ** The shape of the evaluators, for the proofs *)

(** The squares between two squares of a line, seen from the other side of
    the board. *)
Definition betweenFlipped (sq s n : Z) : bool :=
  forallb (fun k => flipSq (flipSq sq + k * ((s - flipSq sq) / n))
                    =? sq + k * ((flipSq s - sq) / n))
          (zrange 1 (n - 1)).

(** The fields of the scratchpad that no evaluator writes. *)
Definition staticView (ei : EvalInfo) :=
  (pawnAttacks_ ei, rammedPawns ei, blockedPawns ei, kingAreas ei,
   mobilityAreas ei, occupiedMinusBishops ei, occupiedMinusRooks ei,
   kingSquare ei, pkentry ei).

(** What a piece evaluator does to the scratchpad for one piece. *)
Definition dynStep (US : Colour) (piece : PieceType) (attacks : Z)
           (ei : EvalInfo) : EvalInfo :=
  updateKingSafety US piece attacks (storeAttacks US piece attacks ei).

Definition liftInfo (g : EvalInfo -> EvalInfo) (st : Z * EvalInfo) : Z * EvalInfo :=
  (fst st, g (snd st)).

(** The common shape of [evaluateKnights], [evaluateBishops], [evaluateRooks]
    and [evaluateQueens]: for every piece, a bonus is added and its attacks
    are stored. *)
Definition pieceStep (US : Colour) (piece : PieceType)
           (att bonus : EvalInfo -> Z -> Z) (sq tempPieces : Z)
           (st : Z * EvalInfo) : Z * EvalInfo :=
  (fst st + bonus (snd st) sq, dynStep US piece (att (snd st) sq) (snd st)).

Definition pieceLoop (US : Colour) (piece : PieceType)
           (att bonus : EvalInfo -> Z -> Z) (bb ev0 : Z) (ei : EvalInfo)
  : Z * EvalInfo :=
  bbLoop 64 (pieceStep US piece att bonus) bb (ev0, clearAttackedBy US piece ei).

(** What the evaluators add to [eval] for one piece. *)
Definition knightBonus (US : Colour) (board : Board) (ei : EvalInfo) (sq : Z) : Z :=
  outpostTerm US ei (Z.land (pieces board PAWN) (colours board (opp US))) sq
              KnightOutpost
  + (if testBit (pawnAdvance (pieces board PAWN) 0 (opp US)) sq
     then KnightBehindPawn else 0)
  + nthZ (mobilityCount US ei (knightAttacks sq)) KnightMobility.

Definition bishopAttacksOf (US : Colour) (ei : EvalInfo) (sq : Z) : Z :=
  bishopAttacks sq (sel US (occupiedMinusBishops ei)).

Definition rookAttacksOf (US : Colour) (ei : EvalInfo) (sq : Z) : Z :=
  rookAttacks sq (sel US (occupiedMinusRooks ei)).

Definition bishopBonus (US : Colour) (board : Board) (ei : EvalInfo) (sq : Z) : Z :=
  popcount (Z.land (sel US (rammedPawns ei))
                   (if testBit WHITE_SQUARES sq
                    then WHITE_SQUARES else BLACK_SQUARES))
  * BishopRammedPawns
  + outpostTerm US ei (Z.land (pieces board PAWN) (colours board (opp US))) sq
                BishopOutpost
  + (if testBit (pawnAdvance
                   (Z.lor (Z.land (pieces board PAWN) (colours board US))
                          (Z.land (pieces board PAWN) (colours board (opp US))))
                   0 (opp US)) sq
     then BishopBehindPawn else 0)
  + nthZ (mobilityCount US ei (bishopAttacksOf US ei sq)) BishopMobility.

Definition rookBonus (US : Colour) (board : Board) (ei : EvalInfo) (sq : Z) : Z :=
  (if Z.land (Z.land (pieces board PAWN) (colours board US)) (Files (fileOf sq)) =? 0
   then nthZ (b2z (Z.land (Z.land (pieces board PAWN) (colours board (opp US)))
                          (Files (fileOf sq)) =? 0)) RookFile
   else 0)
  + (if rookOnSeventh US ei sq then RookOnSeventh else 0)
  + nthZ (mobilityCount US ei (rookAttacksOf US ei sq)) RookMobility.

Definition queenBonus (US : Colour) (ei : EvalInfo) (sq : Z) : Z :=
  nthZ (mobilityCount US ei (queenAttacks US ei sq)) QueenMobility.

(** A quantity read off the scratchpad that depends on nothing an evaluator
    writes. *)
Definition Static {A} (f : EvalInfo -> A) : Prop :=
  forall ei ei', staticView ei = staticView ei' -> f ei = f ei'.

(** The head of [evaluatePawns]: "store off pawn attacks for king safety and
    threat computations", "update attacker counts for King Safety
    computation". *)
Definition pawnStore (US : Colour) (ei : EvalInfo) : EvalInfo :=
  let THEM := opp US in
  let ei := set_attackedBy2
              (upd US (Z.land (sel US (pawnAttacks_ ei)) (sel US (attacked ei)))
                   (attackedBy2 ei)) ei in
  let ei := set_attacked
              (upd US (Z.lor (sel US (attacked ei)) (sel US (pawnAttacks_ ei)))
                   (attacked ei)) ei in
  let ei := set_attackedBy
              (upd US (updP PAWN (sel US (pawnAttacks_ ei)) (sel US (attackedBy ei)))
                   (attackedBy ei)) ei in
  let attacks := Z.land (sel US (pawnAttacks_ ei)) (sel THEM (kingAreas ei)) in
  set_kingAttacksCount
    (upd US (sel US (kingAttacksCount ei) + popcount attacks)
         (kingAttacksCount ei)) ei.

(** What one pawn does to [passedPawns]. *)
Definition passedStep (US : Colour) (enemyPawns pp sq : Z) : Z :=
  if Z.land enemyPawns (passedPawnMasks US sq) =? 0 then setBit pp sq else pp.

(** The passed pawns of a side. *)
Definition passedMask (US : Colour) (myPawns enemyPawns : Z) : Z :=
  fold_left (passedStep US enemyPawns) (squares myPawns) 0.

(** What one pawn adds to [pkeval], the stacked penalty apart. *)
Definition pawnTerm (US : Colour) (ei : EvalInfo) (myPawns enemyPawns sq : Z) : Z :=
  pawnBackwardOrConnected US ei myPawns enemyPawns sq
    (pawnIsolated myPawns sq
       (snd (pawnPassedOrCandidate US myPawns enemyPawns sq (ei, 0)))).

(** The stacked penalties of a side: for every file, one [PawnStacked] for
    each pawn after the first. *)
Definition stackedTotal (myPawns : Z) : Z :=
  fold_right Z.add 0
    (map (fun f => Z.max (popcount (Z.land myPawns (Files f)) - 1) 0 * PawnStacked)
         (zrange 0 7)).

Definition pawnScore (US : Colour) (ei : EvalInfo) (board : Board) : Z :=
  let myPawns := Z.land (pieces board PAWN) (colours board US) in
  let enemyPawns := Z.land (pieces board PAWN) (colours board (opp US)) in
  sumOver (pawnTerm US ei myPawns enemyPawns) myPawns + stackedTotal myPawns.

(** The scratchpad that [evaluatePawns] leaves on a miss, given the score and
    the passed pawns of the side. *)
Definition pawnFinal (US : Colour) (score mask : Z) (ei : EvalInfo) : EvalInfo :=
  let ei := pawnStore US ei in
  let ei := set_passedPawns (Z.lxor (passedPawns ei) mask) ei in
  set_pkeval (upd US score (pkeval ei)) ei.

(** What one file adds to [pkeval] in the shelter and storm loop of
    [evaluateKings]. *)
Definition shelterTerm (US : Colour) (myPawns enemyPawns kingFile kingRank file : Z)
  : Z :=
  let ours := Z.land (Z.land myPawns (Files file)) (forwardRanksMasks US kingRank) in
  let ourDist := if ours =? 0 then 7
                 else Z.abs (kingRank - rankOf (backmost US ours)) in
  let theirs := Z.land (Z.land enemyPawns (Files file)) (forwardRanksMasks US kingRank) in
  let theirDist := if theirs =? 0 then 7
                   else Z.abs (kingRank - rankOf (backmost US theirs)) in
  let blocked := b2z (negb (ourDist =? 7) && (ourDist =? theirDist - 1)) in
  nthZ3 (b2z (file =? kingFile)) file ourDist KingShelter
  + nthZ3 blocked (mirrorFile file) theirDist KingStorm.

(** The shelter and storm score of a king on [kingSq]: the king's file and
    the files next to it. *)
Definition shelterSum (US : Colour) (board : Board) (kingSq : Z) : Z :=
  let myPawns := Z.land (pieces board PAWN) (colours board US) in
  let enemyPawns := Z.land (pieces board PAWN) (colours board (opp US)) in
  let kingFile := fileOf kingSq in
  let kingRank := rankOf kingSq in
  fold_right Z.add 0
    (map (shelterTerm US myPawns enemyPawns kingFile kingRank)
         (zrange (Z.max 0 (kingFile - 1)) (Z.min (8 - 1) (kingFile + 1)))).

(** What one passed pawn adds to the score of [evaluatePassedPawns]. *)
Definition passedTerm (US : Colour) (ei : EvalInfo) (occupied sq : Z) : Z :=
  evaluatePassedPawns_body US ei occupied sq 0 0.

(** A scratchpad on which the evaluators of a position may run: the fields
    that no evaluator writes are those that [initializeEvalInfo] computes,
    without a pawn-king entry. *)
Definition freshView (b : Board) (ei : EvalInfo) : Prop :=
  staticView ei = staticView (initializeEvalInfo b None).


(** * Bitboards as sets of squares *)

Lemma In_allSquares (s : Z) : In s allSquares <-> 0 <= s < 64.
Proof.
  unfold allSquares. rewrite in_map_iff. split.
  - intros (n & <- & Hn). apply in_seq in Hn. lia.
  - intros H. exists (Z.to_nat s). split; [lia | apply in_seq; lia].
Qed.

Lemma onBoard_true (s : Z) : onBoard s = true <-> 0 <= s < 64.
Proof. unfold onBoard. rewrite andb_true_iff, Z.leb_le, Z.ltb_lt. tauto. Qed.

Lemma onBoard_In (s : Z) : onBoard s = true <-> In s allSquares.
Proof. rewrite onBoard_true, In_allSquares. tauto. Qed.

Lemma forall_squares (P : Z -> bool) :
  forallb P allSquares = true -> forall s, 0 <= s < 64 -> P s = true.
Proof.
  intros H s Hs. rewrite forallb_forall in H. apply H, In_allSquares, Hs.
Qed.

Lemma testbit_shiftl_1 (s n : Z) : 0 <= s -> Z.testbit (Z.shiftl 1 s) n = (s =? n).
Proof.
  intros Hs. rewrite Z.shiftl_1_l. apply Z.pow2_bits_eqb, Hs.
Qed.

Lemma testbit_fold_squares (p : Z -> bool) (l : list Z) (i : Z) :
  (forall s, In s l -> 0 <= s) ->
  Z.testbit (fold_right (fun s acc => if p s then Z.lor (Z.shiftl 1 s) acc else acc) 0 l) i
  = existsb (fun s => (s =? i) && p s) l.
Proof.
  induction l as [|s l IH]; intros Hl; simpl.
  - apply Z.testbit_0_l.
  - rewrite <- IH by (intros; apply Hl; now right).
    destruct (p s).
    + rewrite Z.lor_spec, testbit_shiftl_1 by (apply Hl; now left).
      now rewrite andb_true_r.
    + now rewrite andb_false_r.
Qed.

Lemma testbit_bbOf (p : Z -> bool) (i : Z) :
  Z.testbit (bbOf p) i = onBoard i && p i.
Proof.
  unfold bbOf. rewrite testbit_fold_squares
    by (intros s Hs; apply In_allSquares in Hs; lia).
  apply eq_iff_eq_true. rewrite existsb_exists, andb_true_iff, onBoard_In.
  split.
  - intros (s & Hin & H). apply andb_true_iff in H as [E Hp].
    apply Z.eqb_eq in E. subst s. now split.
  - intros [Hin Hp]. exists i. split; [exact Hin|].
    now rewrite Z.eqb_refl.
Qed.

Lemma range_of_bits (a : Z) :
  (forall n, 64 <= n -> Z.testbit a n = false) -> 0 <= a < 2 ^ 64.
Proof.
  intros H.
  assert (E : a = a mod 2 ^ 64).
  { apply Z.bits_inj'. intros n Hn.
    destruct (Z.ltb_spec n 64).
    - now rewrite Z.mod_pow2_bits_low.
    - rewrite Z.mod_pow2_bits_high by lia. now apply H. }
  rewrite E. apply Z.mod_pos_bound. lia.
Qed.

Lemma testbit_high (a n : Z) : 0 <= a < 2 ^ 64 -> 64 <= n -> Z.testbit a n = false.
Proof.
  intros Ha Hn. rewrite <- (Z.mod_small a (2 ^ 64)) by exact Ha.
  apply Z.mod_pow2_bits_high. lia.
Qed.

Lemma testbit_onBoard (a i : Z) :
  0 <= a < 2 ^ 64 -> Z.testbit a i = onBoard i && Z.testbit a i.
Proof.
  intros Ha. unfold onBoard.
  destruct (Z.leb_spec 0 i); simpl.
  - destruct (Z.ltb_spec i 64); simpl; [reflexivity|]. now apply testbit_high.
  - now apply Z.testbit_neg_r.
Qed.

Lemma bb_ext (a b : Z) :
  0 <= a < 2 ^ 64 -> 0 <= b < 2 ^ 64 ->
  (forall s, 0 <= s < 64 -> Z.testbit a s = Z.testbit b s) -> a = b.
Proof.
  intros Ha Hb H. apply Z.bits_inj'. intros n Hn.
  destruct (Z.ltb_spec n 64).
  - apply H. lia.
  - now rewrite !testbit_high.
Qed.

Lemma bbOf_range (p : Z -> bool) : 0 <= bbOf p < 2 ^ 64.
Proof.
  apply range_of_bits. intros n Hn. rewrite testbit_bbOf.
  unfold onBoard. destruct (Z.ltb_spec n 64); [lia|]. now rewrite andb_false_r.
Qed.

Lemma bbOf_ext (p q : Z -> bool) :
  (forall s, 0 <= s < 64 -> p s = q s) -> bbOf p = bbOf q.
Proof.
  intros H. apply bb_ext; try apply bbOf_range.
  intros s Hs. rewrite !testbit_bbOf. now rewrite H.
Qed.

Lemma bbOf_testbit (a : Z) : 0 <= a < 2 ^ 64 -> bbOf (Z.testbit a) = a.
Proof.
  intros Ha. apply bb_ext; [apply bbOf_range | exact Ha |].
  intros s Hs. rewrite testbit_bbOf.
  apply onBoard_true in Hs. now rewrite Hs.
Qed.

Lemma U64_MAX_ones : U64_MAX = Z.ones 64.
Proof. reflexivity. Qed.

Lemma testbit_bbNot (a i : Z) :
  Z.testbit (bbNot a) i = onBoard i && negb (Z.testbit a i).
Proof.
  unfold bbNot, onBoard. rewrite U64_MAX_ones, Z.land_spec.
  destruct (Z.leb_spec 0 i); simpl.
  - rewrite Z.lnot_spec, Z.testbit_ones_nonneg by lia.
    apply andb_comm.
  - now rewrite (Z.testbit_neg_r (Z.lnot a)).
Qed.

Lemma bbNot_range (a : Z) : 0 <= bbNot a < 2 ^ 64.
Proof.
  apply range_of_bits. intros n Hn. rewrite testbit_bbNot.
  unfold onBoard. destruct (Z.ltb_spec n 64); [lia|]. now rewrite andb_false_r.
Qed.

Lemma land_range_l (a b : Z) : 0 <= a < 2 ^ 64 -> 0 <= Z.land a b < 2 ^ 64.
Proof.
  intros Ha. apply range_of_bits. intros n Hn.
  now rewrite Z.land_spec, (testbit_high a).
Qed.

Lemma land_range_r (a b : Z) : 0 <= b < 2 ^ 64 -> 0 <= Z.land a b < 2 ^ 64.
Proof. rewrite Z.land_comm. apply land_range_l. Qed.

Lemma lor_range (a b : Z) :
  0 <= a < 2 ^ 64 -> 0 <= b < 2 ^ 64 -> 0 <= Z.lor a b < 2 ^ 64.
Proof.
  intros Ha Hb. apply range_of_bits. intros n Hn.
  now rewrite Z.lor_spec, (testbit_high a), (testbit_high b).
Qed.

Lemma lxor_range (a b : Z) :
  0 <= a < 2 ^ 64 -> 0 <= b < 2 ^ 64 -> 0 <= Z.lxor a b < 2 ^ 64.
Proof.
  intros Ha Hb. apply range_of_bits. intros n Hn.
  now rewrite Z.lxor_spec, (testbit_high a), (testbit_high b).
Qed.

Lemma inU64_true (a : Z) : inU64 a = true <-> 0 <= a < 2 ^ 64.
Proof.
  unfold inU64, U64_MAX. rewrite andb_true_iff, Z.leb_le, Z.leb_le.
  change (2 ^ 64) with 18446744073709551616. lia.
Qed.

(** * The squares of a bitboard *)

Lemma squares_In (b s : Z) :
  In s (squares b) <-> 0 <= s < 64 /\ Z.testbit b s = true.
Proof. unfold squares. now rewrite filter_In, In_allSquares. Qed.

Lemma squares_bbOf (p : Z -> bool) : squares (bbOf p) = filter p allSquares.
Proof.
  unfold squares. apply filter_ext_in. intros s Hs.
  rewrite testbit_bbOf. apply onBoard_In in Hs. now rewrite Hs.
Qed.

Lemma squares_ext (a b : Z) :
  (forall s, 0 <= s < 64 -> Z.testbit a s = Z.testbit b s) -> squares a = squares b.
Proof.
  intros H. unfold squares. apply filter_ext_in.
  intros s Hs. apply H, In_allSquares, Hs.
Qed.

Lemma squares_nil (b : Z) : 0 <= b < 2 ^ 64 -> squares b = [] -> b = 0.
Proof.
  intros Hb E. apply bb_ext; [exact Hb | lia |].
  intros s Hs. rewrite Z.testbit_0_l.
  destruct (Z.testbit b s) eqn:Hbit; [|reflexivity].
  assert (In s (squares b)) by (apply squares_In; tauto).
  rewrite E in H. contradiction.
Qed.

Lemma NoDup_allSquares : NoDup allSquares.
Proof.
  unfold allSquares. apply Injective_map_NoDup.
  - intros x y. apply Nat2Z.inj.
  - apply seq_NoDup.
Qed.

Lemma NoDup_squares (b : Z) : NoDup (squares b).
Proof. apply NoDup_filter, NoDup_allSquares. Qed.


(** * [poplsb] and the loop over a bitboard *)

Lemma filter_none {A} (p : A -> bool) (l : list A) :
  (forall x, In x l -> p x = false) -> filter p l = [].
Proof.
  induction l as [|a l IH]; intros H; simpl; [reflexivity|].
  rewrite (H a) by now left. apply IH. intros x Hx. apply H. now right.
Qed.

Lemma filter_seq_first (p : Z -> bool) (n a : nat) (k : Z) (rest : list Z) :
  filter p (map Z.of_nat (seq a n)) = k :: rest ->
  (forall j, Z.of_nat a <= j < k -> p j = false)
  /\ rest = filter (fun s => (k <? s) && p s) (map Z.of_nat (seq a n)).
Proof.
  revert a. induction n as [|n IH]; intros a E; cbn [seq map filter] in *.
  - discriminate.
  - destruct (p (Z.of_nat a)) eqn:Hp.
    + injection E as Ek Er. subst k. split; [intros j Hj; lia|].
      rewrite Z.ltb_irrefl. cbn [andb]. rewrite <- Er.
      apply filter_ext_in. intros x Hx.
      apply in_map_iff in Hx as (m & <- & Hm). apply in_seq in Hm.
      destruct (Z.ltb_spec (Z.of_nat a) (Z.of_nat m)); [reflexivity | lia].
    + destruct (IH _ E) as [H1 H2].
      assert (Hk : In k (filter p (map Z.of_nat (seq (S a) n))))
        by (rewrite E; now left).
      apply filter_In in Hk as [Hk _].
      apply in_map_iff in Hk as (m & Em & Hm). apply in_seq in Hm.
      split.
      * intros j Hj. destruct (Z.eq_dec j (Z.of_nat a)) as [->|Hne];
          [exact Hp | apply H1; lia].
      * destruct (Z.ltb_spec k (Z.of_nat a)); [lia|]. exact H2.
Qed.

Lemma allSquares_unfold : allSquares = map Z.of_nat (seq 0 64).
Proof. reflexivity. Qed.

Lemma squares_unfold (b : Z) : squares b = filter (Z.testbit b) allSquares.
Proof. reflexivity. Qed.

(** The least square of a non-empty bitboard. *)
Lemma squares_first (b k : Z) (rest : list Z) :
  squares b = k :: rest ->
  0 <= k < 64 /\ Z.testbit b k = true
  /\ (forall j, 0 <= j < k -> Z.testbit b j = false)
  /\ rest = filter (fun s => (k <? s) && Z.testbit b s) allSquares.
Proof.
  intros E.
  assert (Hk : In k (squares b)) by (rewrite E; now left).
  apply squares_In in Hk as [Hk Hbit].
  split; [exact Hk|]. split; [exact Hbit|].
  rewrite squares_unfold, allSquares_unfold in E.
  rewrite allSquares_unfold.
  destruct (filter_seq_first _ _ _ _ _ E) as [H1 H2].
  split; [|exact H2].
  intros j Hj. apply H1. lia.
Qed.

Lemma squares_above (b k : Z) :
  squares (above b k) = filter (fun s => (k <? s) && Z.testbit b s) allSquares.
Proof. apply squares_bbOf. Qed.

Lemma testbit_pred_lowest (b k i : Z) :
  0 <= k -> Z.testbit b k = true ->
  (forall j, 0 <= j < k -> Z.testbit b j = false) ->
  0 <= i ->
  Z.testbit (b - 1) i = if i <=? k then i <? k else Z.testbit b i.
Proof.
  intros Hk Hbit Hlow Hi.
  assert (Hmod : b mod 2 ^ (k + 1) = 2 ^ k).
  { apply Z.bits_inj'. intros n Hn.
    rewrite Z.pow2_bits_eqb by exact Hk.
    destruct (Z.ltb_spec n (k + 1)).
    - rewrite Z.mod_pow2_bits_low by lia.
      destruct (Z.eqb_spec k n); [now subst | apply Hlow; lia].
    - rewrite Z.mod_pow2_bits_high by lia.
      destruct (Z.eqb_spec k n); [lia | reflexivity]. }
  assert (Hpos : 0 < 2 ^ k) by (apply Z.pow_pos_nonneg; lia).
  assert (Hpow : 2 ^ (k + 1) = 2 * 2 ^ k)
    by (rewrite Z.pow_add_r by lia; rewrite Z.pow_1_r; lia).
  pose proof (Z.div_mod b (2 ^ (k + 1)) ltac:(lia)) as Hdm.
  rewrite Hmod in Hdm.
  assert (Hdiv : (b - 1) / 2 ^ (k + 1) = b / 2 ^ (k + 1)).
  { symmetry. apply Z.div_unique with (r := 2 ^ k - 1); lia. }
  assert (Hmod' : (b - 1) mod 2 ^ (k + 1) = Z.ones k).
  { rewrite Z.ones_equiv. symmetry.
    apply Z.mod_unique with (q := b / 2 ^ (k + 1)); lia. }
  destruct (Z.leb_spec i k).
  - rewrite <- (Z.mod_pow2_bits_low (b - 1) (k + 1)) by lia.
    rewrite Hmod'. apply Z.testbit_ones_nonneg; lia.
  - replace i with ((i - (k + 1)) + (k + 1)) at 1 by lia.
    rewrite <- Z.div_pow2_bits by lia. rewrite Hdiv.
    rewrite Z.div_pow2_bits by lia. f_equal. lia.
Qed.

Lemma testbit_land_pred (b k i : Z) :
  0 <= k -> Z.testbit b k = true ->
  (forall j, 0 <= j < k -> Z.testbit b j = false) ->
  0 <= i ->
  Z.testbit (Z.land b (b - 1)) i = (k <? i) && Z.testbit b i.
Proof.
  intros Hk Hbit Hlow Hi.
  rewrite Z.land_spec, (testbit_pred_lowest b k i) by assumption.
  destruct (Z.leb_spec i k); destruct (Z.ltb_spec k i); try lia.
  - destruct (Z.ltb_spec i k).
    + rewrite Hlow by lia. reflexivity.
    + assert (i = k) by lia. subst. now rewrite andb_false_r.
  - now rewrite andb_diag.
Qed.

(** Popping the least square. *)
Lemma poplsb_squares (b k : Z) (rest : list Z) :
  0 <= b < 2 ^ 64 -> squares b = k :: rest ->
  poplsb b = (k, above b k) /\ rest = squares (above b k).
Proof.
  intros Hb E. pose proof (squares_first _ _ _ E) as (Hk & Hbit & Hlow & Hrest).
  split.
  - unfold poplsb, getlsb. rewrite E. simpl. f_equal.
    apply bb_ext; [now apply land_range_l | apply bbOf_range |].
    intros s Hs. unfold above. rewrite testbit_bbOf.
    rewrite (testbit_land_pred b k s) by (assumption || lia).
    apply onBoard_true in Hs. now rewrite Hs.
  - now rewrite squares_above.
Qed.

Lemma above_above (b k x : Z) : k < x -> above (above b k) x = above b x.
Proof.
  intros H. unfold above. apply bbOf_ext. intros s Hs.
  rewrite testbit_bbOf. apply onBoard_true in Hs. rewrite Hs. simpl.
  destruct (Z.ltb_spec x s); [|reflexivity].
  destruct (Z.ltb_spec k s); [reflexivity | lia].
Qed.

Lemma above_range (b k : Z) : 0 <= above b k < 2 ^ 64.
Proof. apply bbOf_range. Qed.

Lemma squares_above_gt (b k x : Z) : In x (squares (above b k)) -> k < x.
Proof.
  rewrite squares_above, filter_In. intros [_ H].
  apply andb_true_iff in H as [H _]. now apply Z.ltb_lt.
Qed.

Lemma squares_length_le (b : Z) : (length (squares b) <= 64)%nat.
Proof.
  unfold squares. etransitivity; [apply filter_length_le|].
  unfold allSquares. now rewrite length_map, length_seq.
Qed.

Lemma fold_left_ext_In {A B} (f g : A -> B -> A) (l : list B) :
  (forall a x, In x l -> f a x = g a x) ->
  forall a, fold_left f l a = fold_left g l a.
Proof.
  induction l as [|x l IH]; intros H a; simpl; [reflexivity|].
  rewrite H by now left. apply IH. intros a' y Hy. apply H. now right.
Qed.

Lemma bbLoop_fold_gen {S} (body : Z -> Z -> S -> S) (n : nat) :
  forall (b : Z) (s : S),
    0 <= b < 2 ^ 64 -> (length (squares b) <= n)%nat ->
    bbLoop n body b s
    = fold_left (fun s sq => body sq (above b sq) s) (squares b) s.
Proof.
  induction n as [|n IH]; intros b s Hb Hlen.
  - destruct (squares b); [reflexivity | simpl in Hlen; lia].
  - cbn [bbLoop]. destruct (Z.eqb_spec b 0) as [->|Hnz]; [reflexivity|].
    destruct (squares b) as [|k rest] eqn:E.
    + exfalso. apply Hnz. now apply squares_nil.
    + destruct (poplsb_squares b k rest Hb E) as [-> Hrest].
      cbn [fold_left]. rewrite IH.
      * rewrite <- Hrest. apply fold_left_ext_In.
        intros a x Hx. rewrite above_above; [reflexivity|].
        rewrite Hrest in Hx. now apply squares_above_gt in Hx.
      * apply above_range.
      * rewrite <- Hrest. simpl in Hlen. lia.
Qed.

(** 64 rounds are enough for any 64-bit word: the loop runs its body once for
    every square of the bitboard, in ascending order. *)
Lemma bbLoop_squares {S} (body : Z -> Z -> S -> S) (b : Z) (s : S) :
  0 <= b < 2 ^ 64 ->
  bbLoop 64 body b s
  = fold_left (fun s sq => body sq (above b sq) s) (squares b) s.
Proof.
  intros Hb. apply bbLoop_fold_gen; [exact Hb | apply squares_length_le].
Qed.


(** * Counting squares *)

Lemma popcount_unfold (b : Z) : popcount b = Z.of_nat (length (squares b)).
Proof. reflexivity. Qed.

Lemma popcount_bounds (b : Z) : 0 <= popcount b <= 64.
Proof.
  rewrite popcount_unfold. pose proof (squares_length_le b). lia.
Qed.

Lemma squares_0 : squares 0 = [].
Proof.
  rewrite squares_unfold. apply filter_none. intros x _. apply Z.testbit_0_l.
Qed.

Lemma popcount_0 : popcount 0 = 0.
Proof. rewrite popcount_unfold, squares_0. reflexivity. Qed.

Lemma popcount_zero_iff (b : Z) : 0 <= b < 2 ^ 64 -> (popcount b = 0 <-> b = 0).
Proof.
  intros Hb. split.
  - rewrite popcount_unfold. intros H. apply squares_nil; [exact Hb|].
    destruct (squares b); [reflexivity | simpl in H; lia].
  - intros ->. apply popcount_0.
Qed.

Lemma filter_length_mono {A} (p q : A -> bool) (l : list A) :
  (forall x, In x l -> p x = true -> q x = true) ->
  (length (filter p l) <= length (filter q l))%nat.
Proof.
  induction l as [|a l IH]; intros H; simpl; [lia|].
  assert (IH' : (length (filter p l) <= length (filter q l))%nat)
    by (apply IH; intros x Hx; apply H; now right).
  destruct (p a) eqn:Hp.
  - rewrite (H a (or_introl eq_refl) Hp). simpl. lia.
  - destruct (q a); simpl; lia.
Qed.

Lemma popcount_subset (a b : Z) :
  (forall s, 0 <= s < 64 -> Z.testbit a s = true -> Z.testbit b s = true) ->
  popcount a <= popcount b.
Proof.
  intros H. rewrite !popcount_unfold, !squares_unfold.
  apply inj_le, filter_length_mono.
  intros x Hx. apply H, In_allSquares, Hx.
Qed.

Lemma popcount_land_le_r (a b : Z) : popcount (Z.land a b) <= popcount b.
Proof.
  apply popcount_subset. intros s _. rewrite Z.land_spec.
  intros H. now apply andb_true_iff in H.
Qed.

Lemma popcount_land_le_l (a b : Z) : popcount (Z.land a b) <= popcount a.
Proof. rewrite Z.land_comm. apply popcount_land_le_r. Qed.

Lemma filter_length_orb {A} (p q : A -> bool) (l : list A) :
  (forall x, In x l -> p x && q x = false) ->
  length (filter (fun x => p x || q x) l)
  = (length (filter p l) + length (filter q l))%nat.
Proof.
  induction l as [|a l IH]; intros H; simpl; [reflexivity|].
  assert (IH' := IH (fun x Hx => H x (or_intror Hx))).
  pose proof (H a (or_introl eq_refl)) as Ha.
  destruct (p a), (q a); simpl in *; try discriminate; lia.
Qed.

Lemma popcount_lor_disjoint (a b : Z) :
  (forall s, 0 <= s < 64 -> Z.testbit a s && Z.testbit b s = false) ->
  popcount (Z.lor a b) = popcount a + popcount b.
Proof.
  intros H. rewrite !popcount_unfold, !squares_unfold.
  rewrite <- Nat2Z.inj_add. f_equal.
  rewrite <- filter_length_orb by (intros x Hx; apply H, In_allSquares, Hx).
  f_equal. apply filter_ext. intros x. apply Z.lor_spec.
Qed.

Lemma land_zero_bits (a b s : Z) :
  Z.land a b = 0 -> Z.testbit a s && Z.testbit b s = false.
Proof. intros H. rewrite <- Z.land_spec, H. apply Z.testbit_0_l. Qed.

Lemma popcount_lor_le (a b : Z) : popcount (Z.lor a b) <= popcount a + popcount b.
Proof.
  rewrite !popcount_unfold, !squares_unfold, <- Nat2Z.inj_add.
  apply inj_le. induction allSquares as [|x l IH]; simpl; [lia|].
  rewrite Z.lor_spec. destruct (Z.testbit a x), (Z.testbit b x); simpl; lia.
Qed.

Lemma popcount_ext (a b : Z) :
  (forall s, 0 <= s < 64 -> Z.testbit a s = Z.testbit b s) -> popcount a = popcount b.
Proof. intros H. rewrite !popcount_unfold. f_equal. f_equal. now apply squares_ext. Qed.

(** [onlyOne] holds of the words with exactly one bit. *)
Lemma onlyOne_popcount (b : Z) :
  0 <= b < 2 ^ 64 -> onlyOne b = (popcount b =? 1).
Proof.
  intros Hb. unfold onlyOne, several.
  destruct (Z.eqb_spec b 0) as [->|Hnz].
  - rewrite popcount_0. reflexivity.
  - cbn [negb andb]. rewrite popcount_unfold.
    destruct (squares b) as [|k rest] eqn:E.
    + exfalso. apply Hnz. now apply squares_nil.
    + destruct (poplsb_squares b k rest Hb E) as [Hp Hrest].
      unfold poplsb in Hp. injection Hp as _ Hland. rewrite Hland, negb_involutive.
      cbn [length]. destruct rest as [|k' rest'].
      * symmetry in Hrest. apply squares_nil in Hrest; [|apply above_range].
        rewrite Hrest. reflexivity.
      * destruct (Z.eqb_spec (above b k) 0) as [E0|_].
        -- rewrite E0, squares_0 in Hrest. discriminate.
        -- symmetry. apply Z.eqb_neq. simpl length. lia.
Qed.

Lemma popcount_one_squares (b : Z) :
  popcount b = 1 -> squares b = [getlsb b].
Proof.
  rewrite popcount_unfold. unfold getlsb.
  destruct (squares b) as [|k [|k' rest]]; simpl; intros H; try lia. reflexivity.
Qed.

Lemma getlsb_spec (b : Z) :
  0 <= b < 2 ^ 64 -> b <> 0 ->
  0 <= getlsb b < 64 /\ Z.testbit b (getlsb b) = true
  /\ (forall j, 0 <= j < getlsb b -> Z.testbit b j = false).
Proof.
  intros Hb Hnz. unfold getlsb.
  destruct (squares b) as [|k rest] eqn:E.
  - exfalso. apply Hnz. now apply squares_nil.
  - simpl. destruct (squares_first _ _ _ E) as (H1 & H2 & H3 & _). tauto.
Qed.

Lemma popcount_one_bits (b s : Z) :
  popcount b = 1 -> 0 <= s < 64 -> Z.testbit b s = (s =? getlsb b).
Proof.
  intros H Hs. pose proof (popcount_one_squares b H) as E.
  destruct (Z.testbit b s) eqn:Hbit.
  - assert (Hin : In s (squares b)) by (apply squares_In; tauto).
    rewrite E in Hin. destruct Hin as [<-|[]]. now rewrite Z.eqb_refl.
  - destruct (Z.eqb_spec s (getlsb b)) as [->|]; [|reflexivity].
    assert (Hin : In (getlsb b) (squares b)) by (rewrite E; now left).
    apply squares_In in Hin as [_ Hin]. congruence.
Qed.


(** Reads of a field after writes of the scratchpad. *)
Ltac ei_simpl :=
  cbn [withPawnKing set_kingAttacksCount set_kingAttackersCount
       set_kingAttackersWeight set_attackedBy set_attacked set_attackedBy2
       set_passedPawns set_pkeval
       pawnAttacks_ rammedPawns blockedPawns kingAreas mobilityAreas attacked
       attackedBy2 attackedBy occupiedMinusBishops occupiedMinusRooks
       passedPawns kingSquare kingAttacksCount kingAttackersCount
       kingAttackersWeight pkeval pkentry].

Ltac ei_simpl_in H :=
  cbn [withPawnKing set_kingAttacksCount set_kingAttackersCount
       set_kingAttackersWeight set_attackedBy set_attacked set_attackedBy2
       set_passedPawns set_pkeval
       pawnAttacks_ rammedPawns blockedPawns kingAreas mobilityAreas attacked
       attackedBy2 attackedBy occupiedMinusBishops occupiedMinusRooks
       passedPawns kingSquare kingAttacksCount kingAttackersCount
       kingAttackersWeight pkeval pkentry] in H.

(** * Facts about well-formed boards *)

Lemma wfBoard_WellFormed (b : Board) : wfBoard b = true -> WellFormed b.
Proof.
  unfold wfBoard. cbn [allPieceTypes forallb map pairwiseDisjoint fold_right].
  rewrite !andb_true_iff, !Z.eqb_eq, !inU64_true.
  intros H. decompose [and] H. clear H.
  assert (Hp : forall p, 0 <= pieces b p < 2 ^ 64) by (intros []; split; assumption).
  assert (Hc : forall c, 0 <= colours b c < 2 ^ 64) by (intros []; split; assumption).
  constructor; try assumption.
  - intros p q Hpq.
    destruct p, q; try congruence; try assumption;
      rewrite Z.land_comm; assumption.
  - rewrite onlyOne_popcount in * by (apply land_range_l, Hc).
    now apply Z.eqb_eq.
  - rewrite onlyOne_popcount in * by (apply land_range_l, Hc).
    now apply Z.eqb_eq.
Qed.


(** * The game phase *)

Lemma gamePhase_rawPhase (b : Board) :
  WellFormed b -> gamePhase b = Z.quot (rawPhase b * 256 + 12) 24.
Proof.
  intros W. unfold gamePhase, rawPhase.
  rewrite popcount_lor_disjoint.
  - f_equal. lia.
  - intros s _. apply land_zero_bits, (wf_kinds b W). discriminate.
Qed.

(** C4, as the code has it: the game phase is
    [24 - 4 * queens - 2 * rooks - knights - bishops], not clamped, remapped
    as [(phase * 256 + 12) / 24] with the division of C; it is the clamped
    phase of the specification whenever the raw phase is not negative; the
    material of the initial position gives 0 and bare kings give 256. *)
Theorem gamePhase_formula (b : Board) :
  wfBoard b = true ->
  gamePhase b = Z.quot (rawPhase b * 256 + 12) 24
  /\ (0 <= rawPhase b -> gamePhase b = specPhase b)
  /\ (popcount (pieces b QUEEN) = 2 -> popcount (pieces b ROOK) = 4 ->
      popcount (pieces b KNIGHT) = 4 -> popcount (pieces b BISHOP) = 4 ->
      gamePhase b = 0)
  /\ (noneOf b QUEEN = true -> noneOf b ROOK = true ->
      noneOf b KNIGHT = true -> noneOf b BISHOP = true ->
      gamePhase b = 256).
Proof.
  intros Hwf. apply wfBoard_WellFormed in Hwf.
  pose proof (gamePhase_rawPhase b Hwf) as E. split; [exact E|]. split; [|split].
  - intros Hraw. rewrite E. unfold specPhase. now rewrite Z.max_r.
  - intros Hq Hr Hn Hb. rewrite E. unfold rawPhase. rewrite Hq, Hr, Hn, Hb.
    reflexivity.
  - unfold noneOf. rewrite !Z.eqb_eq. intros Hq Hr Hn Hb.
    rewrite E. unfold rawPhase. rewrite Hq, Hr, Hn, Hb. reflexivity.
Qed.

Lemma gamePhase_formula_witness :
  wfBoard startBoard = true
  /\ gamePhase startBoard = Z.quot (rawPhase startBoard * 256 + 12) 24.
Proof.
  split; [vm_compute; reflexivity|].
  destruct (gamePhase_formula startBoard) as [H _];
    [vm_compute; reflexivity | exact H].
Defined.

(** C4, as the claim states it, fails after a promotion: with three queens
    on the board the code's phase is negative, where the clamped phase of the
    claim is 0. *)
Lemma gamePhase_not_clamped :
  gamePhase promotedBoard <> specPhase promotedBoard.
Proof. vm_compute. discriminate. Qed.

(** * Rooks on the seventh rank *)

(** C9, as the code has it: the bonus [RookOnSeventh] = (0, 32) is added for
    a rook exactly when its relative rank is 6, counting from 0 (the seventh
    rank), and the relative rank of the enemy king is at least 6 (the last
    two ranks). *)
Theorem rookOnSeventh_iff (US : Colour) (ei : EvalInfo)
        (myPawns enemyPawns sq tempRooks eval : Z) :
  let attacks := rookAttacks sq (sel US (occupiedMinusRooks ei)) in
  let fileBonus :=
    if Z.land myPawns (Files (fileOf sq)) =? 0
    then nthZ (b2z (Z.land enemyPawns (Files (fileOf sq)) =? 0)) RookFile
    else 0 in
  let onSeventh :=
    (relativeRankOf US sq =? 6)
    && (6 <=? relativeRankOf US (sel (opp US) (kingSquare ei))) in
  fst (evaluateRooks_body US myPawns enemyPawns sq tempRooks (eval, ei))
  = eval + fileBonus + (if onSeventh then RookOnSeventh else 0)
    + nthZ (mobilityCount US ei attacks) RookMobility
  /\ ScoreMG RookOnSeventh = 0 /\ ScoreEG RookOnSeventh = 32.
Proof.
  cbv zeta. split; [|split; reflexivity].
  unfold evaluateRooks_body. cbv zeta. cbn [fst].
  unfold rookOnSeventh, mobilityCount, storeAttacks.
  cbn [kingSquare mobilityAreas set_attackedBy set_attacked set_attackedBy2].
  destruct (Z.land myPawns (Files (fileOf sq)) =? 0);
    destruct ((relativeRankOf US sq =? 6)
              && (6 <=? relativeRankOf US (sel (opp US) (kingSquare ei))));
    lia.
Qed.

(** C9, as the claim states it, fails for a white rook on a7 with the black
    king on g8: the bonus is given, and the relative rank of the rook,
    counting from 0, is 6 and not 7. *)
Lemma rookOnSeventh_not_rank7 :
  ~ (rookOnSeventh WHITE (initializeEvalInfo rookSeventhBoard None) 48 = true
     <-> relativeRankOf WHITE 48 = 7
         /\ 7 <= relativeRankOf WHITE
                   (sel BLACK (kingSquare (initializeEvalInfo rookSeventhBoard None)))).
Proof.
  intros [H _].
  assert (E : rookOnSeventh WHITE (initializeEvalInfo rookSeventhBoard None) 48 = true)
    by (vm_compute; reflexivity).
  destruct (H E) as [H7 _]. vm_compute in H7. discriminate.
Qed.

(** * Passed pawns and candidate passers *)

Lemma testbit_setBit (b sq s : Z) :
  0 <= sq -> Z.testbit (setBit b sq) s = xorb (Z.testbit b s) (sq =? s).
Proof.
  intros H. unfold setBit. now rewrite Z.lxor_spec, testbit_shiftl_1.
Qed.


(** * The gate of the king-safety block *)

(** C5, on the code: with the white king on a1 against the black king on h8
    and two black queens on h5 and h6, no black piece attacks the area of the
    white king, and the king-safety block of [evaluateKings] runs all the
    same, since [1 - popcount(enemyQueens)] is -1. *)
Theorem kingSafetyGate_two_queens_no_attackers :
  wfBoard twoQueensBoard = true
  /\ sel BLACK (kingAttackersCount (infoBeforeKings twoQueensBoard None)) = 0
  /\ popcount (Z.land (pieces twoQueensBoard QUEEN) (colours twoQueensBoard BLACK)) = 2
  /\ kingSafetyGate WHITE (infoBeforeKings twoQueensBoard None)
       (Z.land (pieces twoQueensBoard QUEEN) (colours twoQueensBoard BLACK)) = true.
Proof. vm_compute. repeat split; reflexivity. Qed.

Section Tapering.

Variable floatCount : Z -> Z -> Z -> list Z -> Z.
Variables SCALE_OCB_BISHOPS_ONLY SCALE_OCB_ONE_KNIGHT
          SCALE_OCB_ONE_ROOK SCALE_NORMAL : Z.

(** C1: [evaluateBoard] returns the tapered blend of the score accumulated
    from White's point of view (the pieces, the pawn-king difference,
    [psqtmat] and the tempo of the side to move), negated exactly when Black
    is to move. *)
Theorem evaluateBoard_tapered (board : Board) (pktable : option PawnKingTable) :
  let '(eval, ei) := evaluatePieces floatCount (initializeEvalInfo board pktable) board in
  let acc := eval + (sel WHITE (pkeval ei) - sel BLACK (pkeval ei))
             + psqtmat board
             + match turn board with
               | WHITE => MakeScore 25 12
               | BLACK => - MakeScore 25 12
               end in
  let raw := taperedBlend SCALE_NORMAL (ScoreMG acc) (ScoreEG acc)
               (gamePhase board)
               (evaluateScaleFactor SCALE_OCB_BISHOPS_ONLY SCALE_OCB_ONE_KNIGHT
                                    SCALE_OCB_ONE_ROOK SCALE_NORMAL board) in
  accumulatedScore floatCount board pktable = acc
  /\ fst (evaluateBoard floatCount SCALE_OCB_BISHOPS_ONLY SCALE_OCB_ONE_KNIGHT
                        SCALE_OCB_ONE_ROOK SCALE_NORMAL board pktable)
     = match turn board with WHITE => raw | BLACK => - raw end.
Proof.
  unfold evaluateBoard, accumulatedScore.
  destruct (evaluatePieces floatCount (initializeEvalInfo board pktable) board)
    as [eval ei].
  cbv zeta. cbn [fst].
  assert (E : nthZ (colourIndex (turn board)) Tempo
              = match turn board with
                | WHITE => MakeScore 25 12
                | BLACK => - MakeScore 25 12
                end) by (destruct (turn board); reflexivity).
  rewrite E. split; [lia|].
  unfold taperedBlend.
  replace (eval + (sel WHITE (pkeval ei) - sel BLACK (pkeval ei) + psqtmat board
                   + match turn board with
                     | WHITE => MakeScore 25 12
                     | BLACK => - MakeScore 25 12
                     end))
    with (eval + (sel WHITE (pkeval ei) - sel BLACK (pkeval ei)) + psqtmat board
          + match turn board with
            | WHITE => MakeScore 25 12
            | BLACK => - MakeScore 25 12
            end) by lia.
  reflexivity.
Qed.

End Tapering.


(** * Mobility counts *)

Lemma bit64_0 (i : Z) : bit64 0 i = false.
Proof. unfold bit64. rewrite Z.testbit_0_l. apply andb_false_r. Qed.

Lemma clearBetween_0 (sq s n : Z) : clearBetween 0 sq s n = true.
Proof.
  unfold clearBetween. apply forallb_forall. intros k _. now rewrite bit64_0.
Qed.

Lemma bishopAttacks_subset (sq occ s : Z) :
  Z.testbit (bishopAttacks sq occ) s = true ->
  Z.testbit (bishopAttacks sq 0) s = true.
Proof.
  unfold bishopAttacks. rewrite !testbit_bbOf, clearBetween_0.
  rewrite !andb_true_iff. tauto.
Qed.

Lemma rookAttacks_subset (sq occ s : Z) :
  Z.testbit (rookAttacks sq occ) s = true ->
  Z.testbit (rookAttacks sq 0) s = true.
Proof.
  unfold rookAttacks. rewrite !testbit_bbOf, clearBetween_0.
  rewrite !andb_true_iff. tauto.
Qed.

Lemma attacks_on_empty_board :
  forallb (fun sq => (popcount (knightAttacks sq) <=? 8)
                     && (popcount (bishopAttacks sq 0) <=? 13)
                     && (popcount (rookAttacks sq 0) <=? 14))
          allSquares = true.
Proof. vm_compute. reflexivity. Qed.

Lemma attack_counts (sq occ : Z) :
  0 <= sq < 64 ->
  popcount (knightAttacks sq) <= 8
  /\ popcount (bishopAttacks sq occ) <= 13
  /\ popcount (rookAttacks sq occ) <= 14.
Proof.
  intros Hsq.
  pose proof (forall_squares _ attacks_on_empty_board sq Hsq) as H.
  cbv beta in H. rewrite !andb_true_iff, !Z.leb_le in H.
  destruct H as [[Hn Hb] Hr]. split; [exact Hn|]. split.
  - etransitivity; [|exact Hb]. apply popcount_subset.
    intros s _. apply bishopAttacks_subset.
  - etransitivity; [|exact Hr]. apply popcount_subset.
    intros s _. apply rookAttacks_subset.
Qed.

Lemma mobilityCount_le (US : Colour) (ei : EvalInfo) (attacks : Z) :
  0 <= mobilityCount US ei attacks <= popcount attacks.
Proof.
  unfold mobilityCount. split; [apply popcount_bounds | apply popcount_land_le_r].
Qed.

(** C10: the index of every mobility lookup is inside its table. *)
Theorem mobility_index_in_bounds (US : Colour) (ei : EvalInfo) (sq : Z) :
  0 <= sq < 64 ->
  (0 <= mobilityCount US ei (knightAttacks sq) <= 8
   /\ length KnightMobility = 9%nat)
  /\ (0 <= mobilityCount US ei
             (bishopAttacks sq (sel US (occupiedMinusBishops ei))) <= 13
      /\ length BishopMobility = 14%nat)
  /\ (0 <= mobilityCount US ei
             (rookAttacks sq (sel US (occupiedMinusRooks ei))) <= 14
      /\ length RookMobility = 15%nat)
  /\ (0 <= mobilityCount US ei (queenAttacks US ei sq) <= 27
      /\ length QueenMobility = 28%nat).
Proof.
  intros Hsq.
  pose proof (attack_counts sq (sel US (occupiedMinusBishops ei)) Hsq) as (Hn & Hb & _).
  pose proof (attack_counts sq (sel US (occupiedMinusRooks ei)) Hsq) as (_ & _ & Hr).
  pose proof (mobilityCount_le US ei (knightAttacks sq)).
  pose proof (mobilityCount_le US ei
                (bishopAttacks sq (sel US (occupiedMinusBishops ei)))).
  pose proof (mobilityCount_le US ei
                (rookAttacks sq (sel US (occupiedMinusRooks ei)))).
  pose proof (mobilityCount_le US ei (queenAttacks US ei sq)) as Hq.
  assert (popcount (queenAttacks US ei sq) <= 27).
  { unfold queenAttacks. etransitivity; [apply popcount_lor_le|]. lia. }
  repeat split; try reflexivity; lia.
Qed.

Lemma mobility_index_in_bounds_witness :
  0 <= 27 < 64
  /\ 0 <= mobilityCount WHITE (initializeEvalInfo startBoard None)
            (queenAttacks WHITE (initializeEvalInfo startBoard None) 27) <= 27.
Proof.
  split; [lia|].
  destruct (mobility_index_in_bounds WHITE (initializeEvalInfo startBoard None) 27)
    as (_ & _ & _ & H & _); [lia | exact H].
Defined.

(** * Stacked pawns *)

Lemma squares_land (b m : Z) : squares (Z.land b m) = filter (Z.testbit m) (squares b).
Proof.
  rewrite !squares_unfold.
  induction allSquares as [|x l IH]; simpl; [reflexivity|].
  rewrite Z.land_spec. destruct (Z.testbit b x); simpl.
  - destruct (Z.testbit m x); now rewrite IH.
  - exact IH.
Qed.

Lemma popcount_land_pop (b m k : Z) (rest : list Z) :
  0 <= b < 2 ^ 64 -> squares b = k :: rest ->
  popcount (Z.land b m) = b2z (Z.testbit m k) + popcount (Z.land (above b k) m).
Proof.
  intros Hb E. destruct (poplsb_squares b k rest Hb E) as [_ Hrest].
  rewrite !popcount_unfold, !squares_land, E, <- Hrest. simpl.
  destruct (Z.testbit m k); simpl length; unfold b2z; lia.
Qed.

Lemma testbit_Files (f s : Z) :
  0 <= s < 64 -> Z.testbit (Files f) s = (fileOf s =? f).
Proof.
  intros Hs. unfold Files. rewrite testbit_bbOf.
  apply onBoard_true in Hs. now rewrite Hs.
Qed.

Lemma Files_range (f : Z) : 0 <= Files f < 2 ^ 64.
Proof. apply bbOf_range. Qed.



(** * The scale factor *)

Lemma popcount_land_single (b m : Z) :
  popcount b = 1 -> popcount (Z.land b m) = b2z (Z.testbit m (getlsb b)).
Proof.
  intros H. destruct (Z.testbit m (getlsb b)) eqn:Hm; cbn [b2z].
  - rewrite <- H. apply popcount_ext. intros s Hs.
    rewrite Z.land_spec, (popcount_one_bits b s H Hs).
    destruct (Z.eqb_spec s (getlsb b)) as [->|]; [now rewrite Hm | reflexivity].
  - rewrite <- popcount_0. apply popcount_ext. intros s Hs.
    rewrite Z.land_spec, (popcount_one_bits b s H Hs), Z.testbit_0_l.
    destruct (Z.eqb_spec s (getlsb b)) as [->|]; [now rewrite Hm | reflexivity].
Qed.

Lemma piece_covered (b : Board) (p : PieceType) (s : Z) :
  WellFormed b -> Z.testbit (pieces b p) s = true ->
  Z.testbit (Z.lor (colours b WHITE) (colours b BLACK)) s = true.
Proof.
  intros W H. rewrite <- (wf_cover b W).
  cbn [allPieceTypes map fold_right]. rewrite !Z.lor_spec.
  destruct p; rewrite H; rewrite ?orb_true_r; reflexivity.
Qed.

Lemma pieces_split (b : Board) (p : PieceType) (m : Z) :
  WellFormed b ->
  popcount (Z.land (pieces b p) m)
  = popcount (Z.land (Z.land (colours b WHITE) (pieces b p)) m)
    + popcount (Z.land (Z.land (colours b BLACK) (pieces b p)) m).
Proof.
  intros W. rewrite <- popcount_lor_disjoint.
  - apply popcount_ext. intros s _.
    rewrite Z.lor_spec, !Z.land_spec.
    destruct (Z.testbit (pieces b p) s) eqn:Hp.
    + pose proof (piece_covered b p s W Hp) as Hc. rewrite Z.lor_spec in Hc.
      destruct (Z.testbit (colours b WHITE) s), (Z.testbit (colours b BLACK) s),
        (Z.testbit m s); simpl in *; congruence.
    + now rewrite !andb_false_r.
  - intros s _. rewrite !Z.land_spec.
    pose proof (land_zero_bits _ _ s (wf_sides b W)) as Hd.
    destruct (Z.testbit (colours b WHITE) s), (Z.testbit (colours b BLACK) s),
      (Z.testbit (pieces b p) s), (Z.testbit m s);
      simpl in *; try congruence; reflexivity.
Qed.

Lemma pieces_count (b : Board) (p : PieceType) :
  WellFormed b ->
  popcount (pieces b p)
  = popcount (Z.land (colours b WHITE) (pieces b p))
    + popcount (Z.land (colours b BLACK) (pieces b p)).
Proof.
  intros W.
  rewrite <- (Z.land_diag (pieces b p)) at 1.
  rewrite (pieces_split b p (pieces b p) W).
  f_equal; apply popcount_ext; intros s _; rewrite !Z.land_spec;
    destruct (Z.testbit (pieces b p) s), (Z.testbit (colours b WHITE) s),
      (Z.testbit (colours b BLACK) s); reflexivity.
Qed.

Lemma lor_eqb_0 (a b : Z) :
  0 <= a < 2 ^ 64 -> 0 <= b < 2 ^ 64 ->
  (Z.lor a b =? 0) = (popcount a =? 0) && (popcount b =? 0).
Proof.
  intros Ha Hb. apply eq_iff_eq_true.
  rewrite andb_true_iff, !Z.eqb_eq, Z.lor_eq_0_iff.
  now rewrite (popcount_zero_iff a Ha), (popcount_zero_iff b Hb).
Qed.

Lemma popcount_lor_eqb_0 (a b : Z) :
  0 <= a < 2 ^ 64 -> 0 <= b < 2 ^ 64 ->
  (popcount (Z.lor a b) =? 0) = (popcount a =? 0) && (popcount b =? 0).
Proof.
  intros Ha Hb. rewrite <- lor_eqb_0 by assumption.
  apply eq_iff_eq_true. rewrite !Z.eqb_eq.
  apply popcount_zero_iff. now apply lor_range.
Qed.

Lemma oppositeBishops_code (b : Board) :
  WellFormed b ->
  onlyOne (Z.land (colours b WHITE) (pieces b BISHOP))
  && onlyOne (Z.land (colours b BLACK) (pieces b BISHOP))
  && onlyOne (Z.land (pieces b BISHOP) WHITE_SQUARES)
  = oppositeBishops b.
Proof.
  intros W. unfold oppositeBishops. cbv zeta.
  rewrite !onlyOne_popcount
    by (apply land_range_l; (apply (wf_colours b W) || apply (wf_pieces b W))).
  destruct (Z.eqb_spec (popcount (Z.land (colours b WHITE) (pieces b BISHOP))) 1)
    as [Hw|]; [|reflexivity].
  destruct (Z.eqb_spec (popcount (Z.land (colours b BLACK) (pieces b BISHOP))) 1)
    as [Hb|]; [|reflexivity].
  cbn [andb]. rewrite (pieces_split b BISHOP WHITE_SQUARES W).
  rewrite (popcount_land_single _ WHITE_SQUARES Hw),
          (popcount_land_single _ WHITE_SQUARES Hb).
  unfold testBit.
  destruct (Z.testbit WHITE_SQUARES _), (Z.testbit WHITE_SQUARES _); reflexivity.
Qed.

Section ScaleFactor.

Variables SCALE_OCB_BISHOPS_ONLY SCALE_OCB_ONE_KNIGHT
          SCALE_OCB_ONE_ROOK SCALE_NORMAL : Z.

Local Notation "'scaleFactor'" :=
  (evaluateScaleFactor SCALE_OCB_BISHOPS_ONLY SCALE_OCB_ONE_KNIGHT
                       SCALE_OCB_ONE_ROOK SCALE_NORMAL).

Lemma evaluateScaleFactor_cases (b : Board) :
  WellFormed b ->
  scaleFactor b =
  if oppositeBishops b then
    if noneOf b KNIGHT && noneOf b ROOK && noneOf b QUEEN
    then SCALE_OCB_BISHOPS_ONLY
    else if oneEach b KNIGHT && noneOf b ROOK && noneOf b QUEEN
    then SCALE_OCB_ONE_KNIGHT
    else if oneEach b ROOK && noneOf b KNIGHT && noneOf b QUEEN
    then SCALE_OCB_ONE_ROOK
    else SCALE_NORMAL
  else SCALE_NORMAL.
Proof.
  intros W. unfold evaluateScaleFactor. cbv zeta.
  rewrite (oppositeBishops_code b W).
  pose proof (wf_pieces b W) as Hp. pose proof (wf_colours b W) as Hc.
  rewrite !lor_eqb_0 by (try apply lor_range; apply Hp).
  rewrite !popcount_lor_eqb_0 by apply Hp.
  rewrite !onlyOne_popcount by (apply land_range_l, Hc).
  unfold noneOf, oneEach.
  destruct (oppositeBishops b); [|reflexivity].
  destruct (popcount (pieces b KNIGHT) =? 0), (popcount (pieces b ROOK) =? 0),
    (popcount (pieces b QUEEN) =? 0),
    (popcount (Z.land (colours b WHITE) (pieces b KNIGHT)) =? 1),
    (popcount (Z.land (colours b BLACK) (pieces b KNIGHT)) =? 1),
    (popcount (Z.land (colours b WHITE) (pieces b ROOK)) =? 1),
    (popcount (Z.land (colours b BLACK) (pieces b ROOK)) =? 1); reflexivity.
Qed.

Lemma oneEach_not_none (b : Board) (p : PieceType) :
  WellFormed b -> oneEach b p = true -> noneOf b p = false.
Proof.
  intros W. unfold oneEach, noneOf. rewrite andb_true_iff, !Z.eqb_eq.
  intros [Hw Hb]. rewrite (pieces_count b p W), Hw, Hb. reflexivity.
Qed.

(** C6: which scale factor [evaluateScaleFactor] returns. *)
Theorem evaluateScaleFactor_exactly (b : Board) :
  wfBoard b = true ->
  NoDup [SCALE_OCB_BISHOPS_ONLY; SCALE_OCB_ONE_KNIGHT;
         SCALE_OCB_ONE_ROOK; SCALE_NORMAL] ->
  let bishopsOnly := oppositeBishops b && noneOf b KNIGHT
                     && noneOf b ROOK && noneOf b QUEEN in
  let oneKnight := oppositeBishops b && oneEach b KNIGHT
                   && noneOf b ROOK && noneOf b QUEEN in
  let oneRook := oppositeBishops b && oneEach b ROOK
                 && noneOf b KNIGHT && noneOf b QUEEN in
  (scaleFactor b = SCALE_OCB_BISHOPS_ONLY <-> bishopsOnly = true)
  /\ (scaleFactor b = SCALE_OCB_ONE_KNIGHT <-> oneKnight = true)
  /\ (scaleFactor b = SCALE_OCB_ONE_ROOK <-> oneRook = true)
  /\ (scaleFactor b = SCALE_NORMAL
      <-> bishopsOnly = false /\ oneKnight = false /\ oneRook = false).
Proof.
  intros Hwf Hnd. apply wfBoard_WellFormed in Hwf. cbv zeta.
  rewrite (evaluateScaleFactor_cases b Hwf).
  pose proof (oneEach_not_none b KNIGHT Hwf) as HK.
  pose proof (oneEach_not_none b ROOK Hwf) as HR.
  inversion Hnd as [|x1 l1 N1 Hnd1]; subst.
  inversion Hnd1 as [|x2 l2 N2 Hnd2]; subst.
  inversion Hnd2 as [|x3 l3 N3 _]; subst.
  cbn [In] in N1, N2, N3.
  destruct (oppositeBishops b), (noneOf b KNIGHT) eqn:E1, (noneOf b ROOK) eqn:E2,
    (noneOf b QUEEN), (oneEach b KNIGHT), (oneEach b ROOK);
    cbn [andb];
    try (specialize (HK eq_refl); discriminate);
    try (specialize (HR eq_refl); discriminate);
    repeat split; intros; try reflexivity; try discriminate;
    try tauto; try (exfalso; intuition congruence).
Qed.

End ScaleFactor.

Lemma evaluateScaleFactor_exactly_witness :
  wfBoard oppositeBishopsBoard = true
  /\ NoDup [64; 106; 96; 128]
  /\ (evaluateScaleFactor 64 106 96 128 oppositeBishopsBoard = 64
      <-> oppositeBishops oppositeBishopsBoard
          && noneOf oppositeBishopsBoard KNIGHT
          && noneOf oppositeBishopsBoard ROOK
          && noneOf oppositeBishopsBoard QUEEN = true).
Proof.
  assert (Hnd : NoDup [64; 106; 96; 128]).
  { repeat (apply NoDup_cons; [cbn [In]; intuition discriminate|]).
    apply NoDup_nil. }
  split; [vm_compute; reflexivity|]. split; [exact Hnd|].
  destruct (evaluateScaleFactor_exactly 64 106 96 128 oppositeBishopsBoard)
    as [H _]; [vm_compute; reflexivity | exact Hnd | exact H].
Defined.


(** * The pawn-king cache *)

Lemma bbLoop_morph {S T} (m : S -> T) (body : Z -> Z -> S -> S)
      (body' : Z -> Z -> T -> T) (n : nat) :
  (forall sq bb s, m (body sq bb s) = body' sq bb (m s)) ->
  forall bb s, m (bbLoop n body bb s) = bbLoop n body' bb (m s).
Proof.
  intros H. induction n as [|n IH]; intros bb s; cbn [bbLoop]; [reflexivity|].
  destruct (bb =? 0); [reflexivity|].
  destruct (poplsb bb) as [sq bb']. now rewrite IH, H.
Qed.

Lemma bbLoop_invariant {S T} (m : S -> T) (body : Z -> Z -> S -> S) (n : nat) :
  (forall sq bb s, m (body sq bb s) = m s) ->
  forall bb s, m (bbLoop n body bb s) = m s.
Proof.
  intros H. induction n as [|n IH]; intros bb s; cbn [bbLoop]; [reflexivity|].
  destruct (bb =? 0); [reflexivity|].
  destruct (poplsb bb) as [sq bb']. now rewrite IH, H.
Qed.

Lemma fold_left_invariant {S A T} (m : S -> T) (f : S -> A -> S) (l : list A) :
  (forall s a, m (f s a) = m s) -> forall s, m (fold_left f l s) = m s.
Proof.
  intros H. induction l as [|a l IH]; intros s; simpl; [reflexivity|].
  now rewrite IH, H.
Qed.

Section WithPawnKing.

Variables (e : option PawnKingEntry) (p : Z) (k : PerColour Z).

Local Notation "'wpk'" := (withPawnKing e p k).

Local Notation "'liftPK'" := (liftPK e p k).

Lemma storeAttacks_wpk US piece attacks ei :
  storeAttacks US piece attacks (wpk ei) = wpk (storeAttacks US piece attacks ei).
Proof. reflexivity. Qed.

Lemma clearAttackedBy_wpk US piece ei :
  clearAttackedBy US piece (wpk ei) = wpk (clearAttackedBy US piece ei).
Proof. reflexivity. Qed.

Lemma updateKingSafety_wpk US piece attacks ei :
  updateKingSafety US piece attacks (wpk ei)
  = wpk (updateKingSafety US piece attacks ei).
Proof.
  unfold updateKingSafety. cbn [withPawnKing kingAreas].
  destruct (Z.land attacks (sel (opp US) (kingAreas ei)) =? 0); reflexivity.
Qed.

Lemma evaluateKnights_wpk ei b c :
  evaluateKnights (wpk ei) b c = liftPK (evaluateKnights ei b c).
Proof.
  unfold evaluateKnights. rewrite clearAttackedBy_wpk.
  symmetry. apply (bbLoop_morph liftPK). intros sq bb [ev ei'].
  unfold liftPK, evaluateKnights_body, outpostTerm, mobilityCount, rookOnSeventh,
    queenAttacks.
  cbn [fst snd].
  rewrite !storeAttacks_wpk, updateKingSafety_wpk.
  cbn [withPawnKing storeAttacks set_attackedBy set_attacked set_attackedBy2
       pawnAttacks_ mobilityAreas kingSquare rammedPawns occupiedMinusBishops
       occupiedMinusRooks].
  reflexivity.
Qed.

Lemma evaluateBishops_wpk ei b c :
  evaluateBishops (wpk ei) b c = liftPK (evaluateBishops ei b c).
Proof.
  unfold evaluateBishops. rewrite clearAttackedBy_wpk.
  symmetry. apply (bbLoop_morph liftPK). intros sq bb [ev ei'].
  unfold liftPK, evaluateBishops_body, outpostTerm, mobilityCount, rookOnSeventh,
    queenAttacks.
  cbn [fst snd].
  rewrite !storeAttacks_wpk, updateKingSafety_wpk.
  cbn [withPawnKing storeAttacks set_attackedBy set_attacked set_attackedBy2
       pawnAttacks_ mobilityAreas kingSquare rammedPawns occupiedMinusBishops
       occupiedMinusRooks].
  reflexivity.
Qed.

Lemma evaluateRooks_wpk ei b c :
  evaluateRooks (wpk ei) b c = liftPK (evaluateRooks ei b c).
Proof.
  unfold evaluateRooks. rewrite clearAttackedBy_wpk.
  symmetry. apply (bbLoop_morph liftPK). intros sq bb [ev ei'].
  unfold liftPK, evaluateRooks_body, outpostTerm, mobilityCount, rookOnSeventh,
    queenAttacks.
  cbn [fst snd].
  rewrite !storeAttacks_wpk, updateKingSafety_wpk.
  cbn [withPawnKing storeAttacks set_attackedBy set_attacked set_attackedBy2
       pawnAttacks_ mobilityAreas kingSquare rammedPawns occupiedMinusBishops
       occupiedMinusRooks].
  reflexivity.
Qed.

Lemma evaluateQueens_wpk ei b c :
  evaluateQueens (wpk ei) b c = liftPK (evaluateQueens ei b c).
Proof.
  unfold evaluateQueens. rewrite clearAttackedBy_wpk.
  symmetry. apply (bbLoop_morph liftPK). intros sq bb [ev ei'].
  unfold liftPK, evaluateQueens_body, outpostTerm, mobilityCount, rookOnSeventh,
    queenAttacks.
  cbn [fst snd].
  rewrite !storeAttacks_wpk, updateKingSafety_wpk.
  cbn [withPawnKing storeAttacks set_attackedBy set_attacked set_attackedBy2
       pawnAttacks_ mobilityAreas kingSquare rammedPawns occupiedMinusBishops
       occupiedMinusRooks].
  reflexivity.
Qed.

Lemma evaluateThreats_wpk ei b c :
  evaluateThreats (wpk ei) b c = liftPK (evaluateThreats ei b c).
Proof.
  unfold evaluateThreats, liftPK. cbv zeta. cbn [fst snd].
  cbn [withPawnKing attacked attackedBy attackedBy2]. reflexivity.
Qed.

Lemma evaluatePassedPawns_wpk ei b c :
  passedPawns ei = p ->
  evaluatePassedPawns (wpk ei) b c = liftPK (evaluatePassedPawns ei b c).
Proof.
  intros Hp. unfold evaluatePassedPawns, liftPK. cbn [fst snd].
  cbn [withPawnKing passedPawns]. rewrite Hp. f_equal.
Qed.

End WithPawnKing.

(** The loop of [evaluatePawns] and the loop of [evaluateKings] write nothing
    but the pawn-king fields. *)
Lemma evaluatePawns_body_wpk e p k US myPawns enemyPawns sq bb st :
  withPawnKing e p k (fst (evaluatePawns_body US myPawns enemyPawns sq bb st))
  = withPawnKing e p k (fst st).
Proof.
  destruct st as [ei pk]. unfold evaluatePawns_body, pawnPassedOrCandidate.
  destruct (_ =? 0); [reflexivity|].
  destruct (_ && _); reflexivity.
Qed.

Lemma kingShelterStorm_wpk e p k US myPawns enemyPawns kingFile kingRank ei file :
  withPawnKing e p k (kingShelterStorm US myPawns enemyPawns kingFile kingRank ei file)
  = withPawnKing e p k ei.
Proof. reflexivity. Qed.

Lemma evaluatePawns_hit en p k ei b c :
  pkentry ei = None ->
  evaluatePawns (withPawnKing (Some en) p k ei) b c
  = liftPK (Some en) p k (evaluatePawns ei b c).
Proof.
  intros Hmiss. unfold evaluatePawns. cbv zeta.
  cbn [withPawnKing pkentry set_kingAttacksCount set_attackedBy set_attacked
       set_attackedBy2 pawnAttacks_ attacked attackedBy attackedBy2 kingAreas
       kingAttacksCount rammedPawns blockedPawns mobilityAreas
       occupiedMinusBishops occupiedMinusRooks passedPawns kingSquare
       kingAttackersCount kingAttackersWeight pkeval].
  rewrite Hmiss.
  match goal with
  | |- context [bbLoop 64 ?body ?bb ?s] =>
      pose proof (bbLoop_invariant (fun st => withPawnKing (Some en) p k (fst st))
                    body 64
                    (fun sq bb' st => evaluatePawns_body_wpk (Some en) p k c _ _ sq bb' st)
                    bb s) as Hinv;
      destruct (bbLoop 64 body bb s) as [ei' pk']
  end.
  cbn [fst] in Hinv. unfold liftPK. cbn [fst snd].
  f_equal. transitivity (withPawnKing (Some en) p k ei'); [|reflexivity].
  rewrite Hinv. reflexivity.
Qed.

Lemma withPawnKing_same ei :
  withPawnKing (pkentry ei) (passedPawns ei) (pkeval ei) ei = ei.
Proof. destruct ei. reflexivity. Qed.

Lemma pkentry_evaluatePawns_body US myPawns enemyPawns sq bb st :
  pkentry (fst (evaluatePawns_body US myPawns enemyPawns sq bb st))
  = pkentry (fst st).
Proof.
  destruct st as [ei pk]. unfold evaluatePawns_body, pawnPassedOrCandidate.
  destruct (_ =? 0); [reflexivity|].
  destruct (_ && _); reflexivity.
Qed.

Lemma pkentry_evaluatePawns ei b c : pkentry (snd (evaluatePawns ei b c)) = pkentry ei.
Proof.
  unfold evaluatePawns. cbv zeta. ei_simpl.
  destruct (pkentry ei) eqn:E; cbn [snd]; ei_simpl; [exact E|].
  match goal with
  | |- context [bbLoop 64 ?body ?bb ?s] =>
      pose proof (bbLoop_invariant (fun st => pkentry (fst st))
                    body 64
                    (fun sq bb' st => pkentry_evaluatePawns_body c _ _ sq bb' st)
                    bb s) as Hinv;
      destruct (bbLoop 64 body bb s) as [ei' pk']
  end.
  cbn [fst snd] in *. ei_simpl. ei_simpl_in Hinv. rewrite Hinv. exact E.
Qed.

Lemma pkentry_lift (E : EvalInfo -> Board -> Colour -> Z * EvalInfo) b c :
  (forall e p k ei, E (withPawnKing e p k ei) b c = liftPK e p k (E ei b c)) ->
  forall ei, pkentry (snd (E ei b c)) = pkentry ei.
Proof.
  intros H ei.
  rewrite <- (withPawnKing_same ei) at 1. rewrite H. reflexivity.
Qed.

Lemma snd_evaluatePassedPawns ei b c : snd (evaluatePassedPawns ei b c) = ei.
Proof. reflexivity. Qed.

Lemma snd_evaluateThreats ei b c : snd (evaluateThreats ei b c) = ei.
Proof. reflexivity. Qed.

(** Both calls of an evaluator, for a run that has an entry and for the run
    without. *)
Lemma whiteMinusBlack_lift (E : EvalInfo -> Board -> Colour -> Z * EvalInfo)
      (m : EvalInfo -> EvalInfo) (I : EvalInfo -> Prop) (b : Board) :
  (forall ei c, I ei -> E (m ei) b c = (fst (E ei b c), m (snd (E ei b c)))) ->
  (forall ei c, I ei -> I (snd (E ei b c))) ->
  forall ei, I ei ->
    whiteMinusBlack E (m ei) b
    = (fst (whiteMinusBlack E ei b), m (snd (whiteMinusBlack E ei b)))
    /\ I (snd (whiteMinusBlack E ei b)).
Proof.
  intros H HI ei Hei. unfold whiteMinusBlack.
  rewrite (H ei WHITE Hei).
  pose proof (HI ei WHITE Hei) as Hw.
  destruct (E ei b WHITE) as [w ei1]. cbn [fst snd] in *.
  rewrite (H ei1 BLACK Hw).
  pose proof (HI ei1 BLACK Hw) as Hb.
  destruct (E ei1 b BLACK) as [bl ei2]. cbn [fst snd] in *.
  split; [reflexivity | exact Hb].
Qed.

Section CacheTransparency.

Variable floatCount : Z -> Z -> Z -> list Z -> Z.
Variables SCALE_OCB_BISHOPS_ONLY SCALE_OCB_ONE_KNIGHT
          SCALE_OCB_ONE_ROOK SCALE_NORMAL : Z.

Lemma evaluateKings_hit en p k ei b c :
  pkentry ei = None ->
  evaluateKings floatCount (withPawnKing (Some en) p k ei) b c
  = liftPK (Some en) p k (evaluateKings floatCount ei b c).
Proof.
  intros Hmiss. unfold evaluateKings, kingSafetyGate, kingSafetyCount. cbv zeta.
  cbn [withPawnKing pkentry pawnAttacks_ attacked attackedBy attackedBy2 kingAreas
       kingAttacksCount kingSquare kingAttackersCount kingAttackersWeight].
  rewrite Hmiss. unfold liftPK. cbn [fst snd].
  f_equal. symmetry.
  apply (fold_left_invariant (withPawnKing (Some en) p k)).
  intros s a. apply kingShelterStorm_wpk.
Qed.

Lemma pkentry_evaluateKings ei b c :
  pkentry (snd (evaluateKings floatCount ei b c)) = pkentry ei.
Proof.
  unfold evaluateKings. cbv zeta.
  destruct (pkentry ei) eqn:E; cbn [snd]; [exact E|].
  rewrite (fold_left_invariant pkentry); [exact E|]. reflexivity.
Qed.

Lemma evaluatePieces_hit en ei b :
  pkentry ei = None ->
  evaluatePieces floatCount
    (withPawnKing (Some en)
       (passedPawns (snd (evaluatePieces floatCount ei b)))
       (sel WHITE (pkeval (snd (evaluatePieces floatCount ei b)))
        - sel BLACK (pkeval (snd (evaluatePieces floatCount ei b))), 0) ei) b
  = (fst (evaluatePieces floatCount ei b),
     withPawnKing (Some en)
       (passedPawns (snd (evaluatePieces floatCount ei b)))
       (sel WHITE (pkeval (snd (evaluatePieces floatCount ei b)))
        - sel BLACK (pkeval (snd (evaluatePieces floatCount ei b))), 0)
       (snd (evaluatePieces floatCount ei b))).
Proof.
  intros Hmiss.
  set (p := passedPawns (snd (evaluatePieces floatCount ei b))).
  set (k := (sel WHITE (pkeval (snd (evaluatePieces floatCount ei b)))
             - sel BLACK (pkeval (snd (evaluatePieces floatCount ei b))), 0)).
  assert (Hp : passedPawns (snd (evaluatePieces floatCount ei b)) = p) by reflexivity.
  clearbody p k. revert Hp.
  set (m := withPawnKing (Some en) p k).
  set (I := fun ei : EvalInfo => pkentry ei = None).
  unfold evaluatePieces.
  (* pawns *)
  destruct (whiteMinusBlack_lift evaluatePawns m I b
              (fun ei c H => evaluatePawns_hit en p k ei b c H)
              (fun ei c H => eq_trans (pkentry_evaluatePawns ei b c) H)
              ei Hmiss) as [E1 I1].
  rewrite E1. destruct (whiteMinusBlack evaluatePawns ei b) as [d1 ei1].
  cbn [fst snd] in *. clear E1.
  (* knights *)
  destruct (whiteMinusBlack_lift evaluateKnights m I b
              (fun ei c _ => evaluateKnights_wpk (Some en) p k ei b c)
              (fun ei c H => eq_trans
                 (pkentry_lift evaluateKnights b c
                    (fun e p k ei => evaluateKnights_wpk e p k ei b c) ei) H)
              ei1 I1) as [E2 I2].
  rewrite E2. destruct (whiteMinusBlack evaluateKnights ei1 b) as [d2 ei2].
  cbn [fst snd] in *. clear E2.
  (* bishops *)
  destruct (whiteMinusBlack_lift evaluateBishops m I b
              (fun ei c _ => evaluateBishops_wpk (Some en) p k ei b c)
              (fun ei c H => eq_trans
                 (pkentry_lift evaluateBishops b c
                    (fun e p k ei => evaluateBishops_wpk e p k ei b c) ei) H)
              ei2 I2) as [E3 I3].
  rewrite E3. destruct (whiteMinusBlack evaluateBishops ei2 b) as [d3 ei3].
  cbn [fst snd] in *. clear E3.
  (* rooks *)
  destruct (whiteMinusBlack_lift evaluateRooks m I b
              (fun ei c _ => evaluateRooks_wpk (Some en) p k ei b c)
              (fun ei c H => eq_trans
                 (pkentry_lift evaluateRooks b c
                    (fun e p k ei => evaluateRooks_wpk e p k ei b c) ei) H)
              ei3 I3) as [E4 I4].
  rewrite E4. destruct (whiteMinusBlack evaluateRooks ei3 b) as [d4 ei4].
  cbn [fst snd] in *. clear E4.
  (* queens *)
  destruct (whiteMinusBlack_lift evaluateQueens m I b
              (fun ei c _ => evaluateQueens_wpk (Some en) p k ei b c)
              (fun ei c H => eq_trans
                 (pkentry_lift evaluateQueens b c
                    (fun e p k ei => evaluateQueens_wpk e p k ei b c) ei) H)
              ei4 I4) as [E5 I5].
  rewrite E5. destruct (whiteMinusBlack evaluateQueens ei4 b) as [d5 ei5].
  cbn [fst snd] in *. clear E5.
  (* kings *)
  destruct (whiteMinusBlack_lift (evaluateKings floatCount) m I b
              (fun ei c H => evaluateKings_hit en p k ei b c H)
              (fun ei c H => eq_trans (pkentry_evaluateKings ei b c) H)
              ei5 I5) as [E6 I6].
  rewrite E6. destruct (whiteMinusBlack (evaluateKings floatCount) ei5 b) as [d6 ei6].
  cbn [fst snd] in *. clear E6.
  (* passed pawns and threats leave the scratchpad as it is *)
  unfold whiteMinusBlack at 2 4. cbn [evaluateThreats].
  unfold whiteMinusBlack.
  cbn [evaluatePassedPawns evaluateThreats fst snd].
  intros Hp.
  unfold m at 1 2. cbn [withPawnKing passedPawns]. rewrite Hp.
  reflexivity.
Qed.

Lemma pkentry_whiteMinusBlack (E : EvalInfo -> Board -> Colour -> Z * EvalInfo) b :
  (forall ei c, pkentry (snd (E ei b c)) = pkentry ei) ->
  forall ei, pkentry (snd (whiteMinusBlack E ei b)) = pkentry ei.
Proof.
  intros H ei. unfold whiteMinusBlack.
  pose proof (H ei WHITE) as Hw. destruct (E ei b WHITE) as [w ei1].
  pose proof (H ei1 BLACK) as Hb. destruct (E ei1 b BLACK) as [bl ei2].
  cbn [snd] in *. congruence.
Qed.

Lemma pkentry_evaluatePieces ei b :
  pkentry (snd (evaluatePieces floatCount ei b)) = pkentry ei.
Proof.
  unfold evaluatePieces.
  pose proof (pkentry_whiteMinusBlack evaluatePawns b
                (fun ei c => pkentry_evaluatePawns ei b c) ei) as H1.
  destruct (whiteMinusBlack evaluatePawns ei b) as [d1 ei1].
  pose proof (pkentry_whiteMinusBlack evaluateKnights b
                (fun ei c => pkentry_lift evaluateKnights b c
                   (fun e p k ei => evaluateKnights_wpk e p k ei b c) ei) ei1) as H2.
  destruct (whiteMinusBlack evaluateKnights ei1 b) as [d2 ei2].
  pose proof (pkentry_whiteMinusBlack evaluateBishops b
                (fun ei c => pkentry_lift evaluateBishops b c
                   (fun e p k ei => evaluateBishops_wpk e p k ei b c) ei) ei2) as H3.
  destruct (whiteMinusBlack evaluateBishops ei2 b) as [d3 ei3].
  pose proof (pkentry_whiteMinusBlack evaluateRooks b
                (fun ei c => pkentry_lift evaluateRooks b c
                   (fun e p k ei => evaluateRooks_wpk e p k ei b c) ei) ei3) as H4.
  destruct (whiteMinusBlack evaluateRooks ei3 b) as [d4 ei4].
  pose proof (pkentry_whiteMinusBlack evaluateQueens b
                (fun ei c => pkentry_lift evaluateQueens b c
                   (fun e p k ei => evaluateQueens_wpk e p k ei b c) ei) ei4) as H5.
  destruct (whiteMinusBlack evaluateQueens ei4 b) as [d5 ei5].
  pose proof (pkentry_whiteMinusBlack (evaluateKings floatCount) b
                (fun ei c => pkentry_evaluateKings ei b c) ei5) as H6.
  destruct (whiteMinusBlack (evaluateKings floatCount) ei5 b) as [d6 ei6].
  unfold whiteMinusBlack. cbn [evaluatePassedPawns evaluateThreats fst snd] in *.
  congruence.
Qed.

Lemma initializeEvalInfo_miss board t :
  getPawnKingEntry t (pkhash board) = None ->
  initializeEvalInfo board (Some t) = initializeEvalInfo board None.
Proof. intros H. unfold initializeEvalInfo. rewrite H. reflexivity. Qed.

Lemma initializeEvalInfo_hit board t en :
  getPawnKingEntry t (pkhash board) = Some en ->
  initializeEvalInfo board (Some t)
  = withPawnKing (Some en) (pke_passed en) (pke_eval en, 0)
                 (initializeEvalInfo board None).
Proof. intros H. unfold initializeEvalInfo. rewrite H. reflexivity. Qed.

Lemma getPawnKingEntry_store t h passed eval :
  getPawnKingEntry (storePawnKingEntry t h passed eval) h
  = Some (mkPKEntry h passed eval).
Proof.
  unfold getPawnKingEntry, storePawnKingEntry.
  rewrite Z.eqb_refl. cbn [pke_pkhash]. now rewrite Z.eqb_refl.
Qed.

Lemma pkentry_initializeEvalInfo_None board :
  pkentry (initializeEvalInfo board None) = None.
Proof. reflexivity. Qed.

Lemma evaluateBoard_miss board t :
  getPawnKingEntry t (pkhash board) = None ->
  evaluateBoard floatCount SCALE_OCB_BISHOPS_ONLY SCALE_OCB_ONE_KNIGHT
    SCALE_OCB_ONE_ROOK SCALE_NORMAL board (Some t)
  = (fst (evaluateBoard floatCount SCALE_OCB_BISHOPS_ONLY SCALE_OCB_ONE_KNIGHT
            SCALE_OCB_ONE_ROOK SCALE_NORMAL board None),
     Some (storePawnKingEntry t (pkhash board)
             (passedPawns (snd (evaluatePieces floatCount
                                  (initializeEvalInfo board None) board)))
             (sel WHITE (pkeval (snd (evaluatePieces floatCount
                                  (initializeEvalInfo board None) board)))
              - sel BLACK (pkeval (snd (evaluatePieces floatCount
                                  (initializeEvalInfo board None) board)))))).
Proof.
  intros Hmiss.
  unfold evaluateBoard. rewrite (initializeEvalInfo_miss board t Hmiss).
  pose proof (pkentry_evaluatePieces (initializeEvalInfo board None) board) as Hpk.
  rewrite pkentry_initializeEvalInfo_None in Hpk.
  destruct (evaluatePieces floatCount (initializeEvalInfo board None) board)
    as [ev eiF].
  cbn [snd fst] in *. rewrite Hpk. reflexivity.
Qed.

Lemma evaluateBoard_hit board t en :
  getPawnKingEntry t (pkhash board) = Some en ->
  pke_passed en = passedPawns (snd (evaluatePieces floatCount
                                      (initializeEvalInfo board None) board)) ->
  pke_eval en = sel WHITE (pkeval (snd (evaluatePieces floatCount
                                      (initializeEvalInfo board None) board)))
                - sel BLACK (pkeval (snd (evaluatePieces floatCount
                                      (initializeEvalInfo board None) board))) ->
  evaluateBoard floatCount SCALE_OCB_BISHOPS_ONLY SCALE_OCB_ONE_KNIGHT
    SCALE_OCB_ONE_ROOK SCALE_NORMAL board (Some t)
  = (fst (evaluateBoard floatCount SCALE_OCB_BISHOPS_ONLY SCALE_OCB_ONE_KNIGHT
            SCALE_OCB_ONE_ROOK SCALE_NORMAL board None),
     Some t).
Proof.
  intros Hhit Hp Hk.
  unfold evaluateBoard. rewrite (initializeEvalInfo_hit board t en Hhit).
  rewrite Hp, Hk.
  rewrite evaluatePieces_hit by apply pkentry_initializeEvalInfo_None.
  destruct (evaluatePieces floatCount (initializeEvalInfo board None) board)
    as [ev eiF].
  cbn [fst snd]. ei_simpl. cbn [sel fst snd]. rewrite Z.sub_0_r.
  reflexivity.
Qed.

(** C3: a position evaluated without a table, with a table that misses, and
    again with the table the miss has left, gets the same score all three
    times; the miss stores the passed pawns and the pawn-king difference of
    the position, and the hit reads them and writes nothing. *)
Theorem cache_transparency (board : Board) (t : PawnKingTable) :
  getPawnKingEntry t (pkhash board) = None ->
  exists t1 : PawnKingTable,
    evaluateBoard floatCount SCALE_OCB_BISHOPS_ONLY SCALE_OCB_ONE_KNIGHT
      SCALE_OCB_ONE_ROOK SCALE_NORMAL board (Some t)
    = (fst (evaluateBoard floatCount SCALE_OCB_BISHOPS_ONLY SCALE_OCB_ONE_KNIGHT
              SCALE_OCB_ONE_ROOK SCALE_NORMAL board None),
       Some t1)
    /\ getPawnKingEntry t1 (pkhash board)
       = Some (mkPKEntry (pkhash board)
                 (passedPawns (snd (evaluatePieces floatCount
                                      (initializeEvalInfo board None) board)))
                 (sel WHITE (pkeval (snd (evaluatePieces floatCount
                                      (initializeEvalInfo board None) board)))
                  - sel BLACK (pkeval (snd (evaluatePieces floatCount
                                      (initializeEvalInfo board None) board)))))
    /\ evaluateBoard floatCount SCALE_OCB_BISHOPS_ONLY SCALE_OCB_ONE_KNIGHT
         SCALE_OCB_ONE_ROOK SCALE_NORMAL board (Some t1)
       = (fst (evaluateBoard floatCount SCALE_OCB_BISHOPS_ONLY SCALE_OCB_ONE_KNIGHT
                 SCALE_OCB_ONE_ROOK SCALE_NORMAL board None),
          Some t1).
Proof.
  intros Hmiss.
  eexists. split; [apply (evaluateBoard_miss board t Hmiss)|].
  split; [apply getPawnKingEntry_store|].
  eapply evaluateBoard_hit;
    [apply getPawnKingEntry_store | reflexivity | reflexivity].
Qed.

End CacheTransparency.

Lemma cache_transparency_witness :
  getPawnKingEntry emptyPawnKingTable (pkhash pawnsBoard) = None
  /\ exists t1 : PawnKingTable,
       evaluateBoard fixedPointCount 64 106 96 128 pawnsBoard (Some emptyPawnKingTable)
       = (fst (evaluateBoard fixedPointCount 64 106 96 128 pawnsBoard None), Some t1)
       /\ evaluateBoard fixedPointCount 64 106 96 128 pawnsBoard (Some t1)
          = (fst (evaluateBoard fixedPointCount 64 106 96 128 pawnsBoard None), Some t1).
Proof.
  split; [vm_compute; reflexivity|].
  destruct (cache_transparency fixedPointCount 64 106 96 128 pawnsBoard
              emptyPawnKingTable) as (t1 & H1 & _ & H2);
    [vm_compute; reflexivity|].
  exists t1. split; [exact H1 | exact H2].
Defined.


(** * Flipping squares and bitboards *)

Lemma fileOf_flipSq (s : Z) : fileOf (flipSq s) = fileOf s.
Proof.
  unfold flipSq, fileOf, rankOf.
  rewrite Z.add_comm, Z.mul_comm, Z.mod_add by lia. apply Z.mod_mod. lia.
Qed.

Lemma rankOf_flipSq (s : Z) : rankOf (flipSq s) = 7 - rankOf s.
Proof.
  unfold flipSq, fileOf, rankOf.
  rewrite Z.add_comm, Z.mul_comm, Z.div_add by lia.
  rewrite (Z.div_small (s mod 8)) by (apply Z.mod_pos_bound; lia). lia.
Qed.

Lemma square_coords (s : Z) : s = 8 * rankOf s + fileOf s.
Proof. unfold rankOf, fileOf. apply Z.div_mod. lia. Qed.

Lemma fileOf_bounds (s : Z) : 0 <= fileOf s < 8.
Proof. unfold fileOf. apply Z.mod_pos_bound. lia. Qed.

Lemma onBoard_rank (s : Z) : onBoard s = (0 <=? rankOf s) && (rankOf s <=? 7).
Proof.
  unfold onBoard. pose proof (square_coords s). pose proof (fileOf_bounds s).
  destruct (Z.leb_spec 0 s), (Z.ltb_spec s 64), (Z.leb_spec 0 (rankOf s)),
    (Z.leb_spec (rankOf s) 7); simpl; try reflexivity; lia.
Qed.

Lemma flipSq_involutive (s : Z) : flipSq (flipSq s) = s.
Proof.
  unfold flipSq at 1. rewrite rankOf_flipSq, fileOf_flipSq.
  pose proof (square_coords s). lia.
Qed.

Lemma onBoard_flipSq (s : Z) : onBoard (flipSq s) = onBoard s.
Proof.
  rewrite !onBoard_rank, rankOf_flipSq.
  destruct (Z.leb_spec 0 (rankOf s)), (Z.leb_spec (rankOf s) 7),
    (Z.leb_spec 0 (7 - rankOf s)), (Z.leb_spec (7 - rankOf s) 7);
    simpl; try reflexivity; lia.
Qed.

Lemma flipSq_bounds (s : Z) : 0 <= s < 64 -> 0 <= flipSq s < 64.
Proof. rewrite <- !onBoard_true. now rewrite onBoard_flipSq. Qed.

Lemma testbit_flipBB (b s : Z) :
  Z.testbit (flipBB b) s = onBoard s && Z.testbit b (flipSq s).
Proof. exact (testbit_bbOf (fun s => Z.testbit b (flipSq s)) s). Qed.

Lemma flipBB_range (b : Z) : 0 <= flipBB b < 2 ^ 64.
Proof. apply bbOf_range. Qed.

Lemma bit64_flipBB (b s : Z) : bit64 (flipBB b) s = bit64 b (flipSq s).
Proof.
  unfold bit64. rewrite testbit_flipBB, onBoard_flipSq.
  destruct (onBoard s); reflexivity.
Qed.

Lemma testbit_bit64 (b s : Z) : 0 <= s < 64 -> Z.testbit b s = bit64 b s.
Proof. intros H. unfold bit64. apply onBoard_true in H. now rewrite H. Qed.

Lemma flipBB_bbOf (p : Z -> bool) : flipBB (bbOf p) = bbOf (fun s => p (flipSq s)).
Proof.
  unfold flipBB. apply bbOf_ext. intros s Hs.
  rewrite testbit_bbOf. apply flipSq_bounds, onBoard_true in Hs. now rewrite Hs.
Qed.

Lemma flipBB_land (a b : Z) : flipBB (Z.land a b) = Z.land (flipBB a) (flipBB b).
Proof.
  apply bb_ext; [apply flipBB_range | apply land_range_l, flipBB_range |].
  intros s _. rewrite Z.land_spec, !testbit_flipBB, Z.land_spec.
  destruct (onBoard s); reflexivity.
Qed.

Lemma flipBB_lor (a b : Z) : flipBB (Z.lor a b) = Z.lor (flipBB a) (flipBB b).
Proof.
  apply bb_ext; [apply flipBB_range | apply lor_range; apply flipBB_range |].
  intros s _. rewrite Z.lor_spec, !testbit_flipBB, Z.lor_spec.
  destruct (onBoard s); reflexivity.
Qed.

Lemma flipBB_lxor (a b : Z) : flipBB (Z.lxor a b) = Z.lxor (flipBB a) (flipBB b).
Proof.
  apply bb_ext; [apply flipBB_range | apply lxor_range; apply flipBB_range |].
  intros s _. rewrite Z.lxor_spec, !testbit_flipBB, Z.lxor_spec.
  destruct (onBoard s); reflexivity.
Qed.

Lemma flipBB_bbNot (a : Z) : flipBB (bbNot a) = bbNot (flipBB a).
Proof.
  apply bb_ext; [apply flipBB_range | apply bbNot_range |].
  intros s _. rewrite testbit_flipBB, !testbit_bbNot, testbit_flipBB, onBoard_flipSq.
  destruct (onBoard s); reflexivity.
Qed.

Lemma flipBB_0 : flipBB 0 = 0.
Proof.
  apply bb_ext; [apply flipBB_range | lia |].
  intros s _. rewrite testbit_flipBB, !Z.testbit_0_l. apply andb_false_r.
Qed.

Lemma flipBB_involutive (a : Z) : 0 <= a < 2 ^ 64 -> flipBB (flipBB a) = a.
Proof.
  intros Ha. apply bb_ext; [apply flipBB_range | exact Ha |].
  intros s Hs. rewrite !testbit_flipBB, flipSq_involutive, onBoard_flipSq.
  apply onBoard_true in Hs. now rewrite Hs.
Qed.

Lemma flipBB_eq_0 (a : Z) : 0 <= a < 2 ^ 64 -> flipBB a = 0 -> a = 0.
Proof.
  intros Ha H. rewrite <- (flipBB_involutive a Ha), H. apply flipBB_0.
Qed.

Lemma flipBB_eqb_0 (a : Z) : 0 <= a < 2 ^ 64 -> (flipBB a =? 0) = (a =? 0).
Proof.
  intros Ha. destruct (Z.eqb_spec a 0) as [->|Hne].
  - rewrite flipBB_0. reflexivity.
  - apply Z.eqb_neq. intros H. apply Hne. now apply flipBB_eq_0.
Qed.

Lemma testBit_flip (b sq : Z) :
  0 <= sq < 64 -> testBit (flipBB b) (flipSq sq) = testBit b sq.
Proof.
  intros H. unfold testBit. rewrite testbit_flipBB, flipSq_involutive, onBoard_flipSq.
  apply onBoard_true in H. now rewrite H.
Qed.

Lemma flipBB_shiftl_1 (sq : Z) :
  0 <= sq < 64 -> flipBB (Z.shiftl 1 sq) = Z.shiftl 1 (flipSq sq).
Proof.
  intros H. pose proof (flipSq_bounds sq H) as H'.
  apply bb_ext; [apply flipBB_range | |].
  - rewrite Z.shiftl_1_l. split; [apply Z.pow_nonneg; lia|].
    apply Z.pow_lt_mono_r; lia.
  - intros s Hs. rewrite testbit_flipBB, !testbit_shiftl_1 by lia.
    apply onBoard_true in Hs. rewrite Hs. cbn [andb].
    destruct (Z.eqb_spec sq (flipSq s)) as [->|Hne].
    + rewrite flipSq_involutive. symmetry. apply Z.eqb_refl.
    + symmetry. apply Z.eqb_neq. intros E. apply Hne.
      rewrite <- E. now rewrite flipSq_involutive.
Qed.

Lemma setBit_flip (b sq : Z) :
  0 <= sq < 64 -> flipBB (setBit b sq) = setBit (flipBB b) (flipSq sq).
Proof.
  intros H. unfold setBit. now rewrite flipBB_lxor, flipBB_shiftl_1.
Qed.

(** * The squares of a flipped bitboard *)

Lemma map_flipSq_allSquares : Permutation (map flipSq allSquares) allSquares.
Proof.
  apply NoDup_Permutation.
  - apply Injective_map_NoDup_in.
    + intros x y _ _ E. rewrite <- (flipSq_involutive x), E.
      apply flipSq_involutive.
    + apply NoDup_allSquares.
  - apply NoDup_allSquares.
  - intros s. rewrite in_map_iff, In_allSquares. split.
    + intros (x & <- & Hx). apply flipSq_bounds, In_allSquares, Hx.
    + intros Hs. exists (flipSq s). split; [apply flipSq_involutive|].
      apply In_allSquares, flipSq_bounds, Hs.
Qed.

Lemma filter_map_comm {A B} (f : A -> B) (p : B -> bool) (l : list A) :
  filter p (map f l) = map f (filter (fun x => p (f x)) l).
Proof.
  induction l as [|a l IH]; simpl; [reflexivity|].
  destruct (p (f a)); simpl; now rewrite IH.
Qed.

Lemma squares_flipBB (b : Z) :
  Permutation (squares (flipBB b)) (map flipSq (squares b)).
Proof.
  rewrite (squares_unfold (flipBB b)).
  apply NoDup_Permutation.
  - apply NoDup_filter, NoDup_allSquares.
  - apply Injective_map_NoDup_in.
    + intros x y _ _ E. rewrite <- (flipSq_involutive x), E.
      apply flipSq_involutive.
    + apply NoDup_squares.
  - intros s. rewrite filter_In, In_allSquares, in_map_iff, testbit_flipBB. split.
    + intros [Hs H]. apply andb_true_iff in H as [_ H].
      exists (flipSq s). split; [apply flipSq_involutive|].
      apply squares_In. split; [apply flipSq_bounds, Hs | exact H].
    + intros (x & <- & Hx). apply squares_In in Hx as [Hx Hbit].
      split; [apply flipSq_bounds, Hx|].
      rewrite flipSq_involutive, Hbit.
      apply flipSq_bounds, onBoard_true in Hx. now rewrite Hx.
Qed.

Lemma popcount_flipBB (b : Z) : popcount (flipBB b) = popcount b.
Proof.
  rewrite !popcount_unfold. f_equal.
  rewrite (Permutation_length (squares_flipBB b)). apply length_map.
Qed.

Lemma getlsb_flipBB (b : Z) :
  popcount b = 1 -> getlsb (flipBB b) = flipSq (getlsb b).
Proof.
  intros H. pose proof (squares_flipBB b) as P.
  rewrite (popcount_one_squares b H) in P. cbn [map] in P.
  apply Permutation_sym, Permutation_length_1_inv in P.
  unfold getlsb at 1. rewrite P. reflexivity.
Qed.

(** Sums and folds over the squares of a bitboard do not depend on the
    order. *)
Lemma fold_left_permutation {S A} (f : S -> A -> S) (l l' : list A) :
  (forall s a b, f (f s a) b = f (f s b) a) ->
  Permutation l l' -> forall s, fold_left f l s = fold_left f l' s.
Proof.
  intros Hc P. induction P; intros s; simpl.
  - reflexivity.
  - apply IHP.
  - now rewrite Hc.
  - now rewrite IHP1, IHP2.
Qed.

Lemma fold_left_map {S A B} (f : S -> B -> S) (g : A -> B) (l : list A) (s : S) :
  fold_left f (map g l) s = fold_left (fun s a => f s (g a)) l s.
Proof. revert s. induction l as [|a l IH]; intros s; simpl; [reflexivity | apply IH]. Qed.

Lemma fold_left_morph {S T A} (m : S -> T) (f : S -> A -> S) (g : T -> A -> T)
      (l : list A) :
  (forall s a, In a l -> m (f s a) = g (m s) a) ->
  forall s, m (fold_left f l s) = fold_left g l (m s).
Proof.
  induction l as [|a l IH]; intros H s; simpl; [reflexivity|].
  rewrite IH by (intros; apply H; now right).
  now rewrite H by now left.
Qed.

Lemma sumOver_flipBB (f : Z -> Z) (b : Z) :
  sumOver f (flipBB b) = sumOver (fun s => f (flipSq s)) b.
Proof.
  unfold sumOver.
  assert (Hperm : forall l l' : list Z, Permutation l l' ->
            fold_right Z.add 0 l = fold_right Z.add 0 l').
  { intros l l' P. induction P; simpl; lia. }
  rewrite (Hperm _ _ (Permutation_map f (squares_flipBB b))).
  now rewrite map_map.
Qed.


(** * The masks and the attack sets of a flipped board *)

Lemma forall_squares_colours (P : Colour -> Z -> bool) :
  forallb (fun sq => P WHITE sq && P BLACK sq) allSquares = true ->
  forall c sq, 0 <= sq < 64 -> P c sq = true.
Proof.
  intros H c sq Hsq. pose proof (forall_squares _ H sq Hsq) as H'.
  cbv beta in H'. apply andb_true_iff in H'. destruct c; tauto.
Qed.

Lemma opp_involutive (c : Colour) : opp (opp c) = c.
Proof. destruct c; reflexivity. Qed.

Lemma Forward_opp (c : Colour) : Forward (opp c) = - Forward c.
Proof. destruct c; reflexivity. Qed.

Lemma flipSq_Forward (sq : Z) (c : Colour) :
  flipSq (sq + Forward c) = flipSq sq + Forward (opp c).
Proof.
  unfold flipSq, rankOf, fileOf. destruct c; cbn [Forward opp].
  - replace (sq + 8) with (sq + 1 * 8) by lia.
    rewrite Z.div_add, Z.mod_add by lia. lia.
  - replace (sq + -8) with (sq + (-1) * 8) by lia.
    rewrite Z.div_add, Z.mod_add by lia. lia.
Qed.

Lemma relativeRankOf_flip (c : Colour) (sq : Z) :
  relativeRankOf (opp c) (flipSq sq) = relativeRankOf c sq.
Proof. destruct c; cbn [relativeRankOf opp]; rewrite rankOf_flipSq; lia. Qed.

Lemma relativeSquare32_flip (c : Colour) (sq : Z) :
  relativeSquare32 (flipSq sq) (opp c) = relativeSquare32 sq c.
Proof.
  unfold relativeSquare32. now rewrite relativeRankOf_flip, fileOf_flipSq.
Qed.

Lemma distanceBetween_flip (a b : Z) :
  distanceBetween (flipSq a) (flipSq b) = distanceBetween a b.
Proof.
  unfold distanceBetween. rewrite !fileOf_flipSq, !rankOf_flipSq.
  f_equal. lia.
Qed.

Lemma testBit_flip_range (b x : Z) :
  0 <= b < 2 ^ 64 -> testBit (flipBB b) (flipSq x) = testBit b x.
Proof.
  intros Hb. unfold testBit.
  rewrite testbit_flipBB, flipSq_involutive, onBoard_flipSq.
  symmetry. now apply testbit_onBoard.
Qed.

Lemma flipBB_Files (f : Z) : flipBB (Files f) = Files f.
Proof.
  unfold Files. rewrite flipBB_bbOf. apply bbOf_ext.
  intros s _. now rewrite fileOf_flipSq.
Qed.

Lemma flipBB_adjacentFilesMasks (f : Z) :
  flipBB (adjacentFilesMasks f) = adjacentFilesMasks f.
Proof.
  unfold adjacentFilesMasks. rewrite flipBB_bbOf. apply bbOf_ext.
  intros s _. now rewrite fileOf_flipSq.
Qed.

Lemma flipBB_constants :
  flipBB WHITE_SQUARES = BLACK_SQUARES /\ flipBB BLACK_SQUARES = WHITE_SQUARES
  /\ flipBB RANK_3 = RANK_6 /\ flipBB RANK_6 = RANK_3
  /\ flipBB (outpostRanksMasks WHITE) = outpostRanksMasks BLACK
  /\ flipBB (outpostRanksMasks BLACK) = outpostRanksMasks WHITE
  /\ flipBB (Z.lor (Ranks 0) (Ranks 7)) = Z.lor (Ranks 0) (Ranks 7)
  /\ flipBB (bbNot 0) = bbNot 0.
Proof. vm_compute. repeat split; reflexivity. Qed.

Lemma flipBB_outpostRanksMasks (c : Colour) :
  flipBB (outpostRanksMasks c) = outpostRanksMasks (opp c).
Proof. destruct c; apply flipBB_constants. Qed.

Lemma flipBB_forwardRanksMasks (c : Colour) (r : Z) :
  flipBB (forwardRanksMasks c r) = forwardRanksMasks (opp c) (7 - r).
Proof.
  unfold forwardRanksMasks. rewrite flipBB_bbOf. apply bbOf_ext.
  intros s _. rewrite rankOf_flipSq. destruct c; cbn [opp].
  - destruct (Z.leb_spec r (7 - rankOf s)), (Z.leb_spec (rankOf s) (7 - r));
      try reflexivity; lia.
  - destruct (Z.leb_spec (7 - rankOf s) r), (Z.leb_spec (7 - r) (rankOf s));
      try reflexivity; lia.
Qed.

Lemma aheadOf_flip (c : Colour) (sq s : Z) :
  aheadOf (opp c) (flipSq sq) s = aheadOf c sq (flipSq s).
Proof.
  unfold aheadOf. rewrite !rankOf_flipSq. destruct c; cbn [opp].
  - destruct (Z.ltb_spec (rankOf s) (7 - rankOf sq)),
      (Z.ltb_spec (rankOf sq) (7 - rankOf s)); try reflexivity; lia.
  - destruct (Z.ltb_spec (7 - rankOf sq) (rankOf s)),
      (Z.ltb_spec (7 - rankOf s) (rankOf sq)); try reflexivity; lia.
Qed.

Lemma flipBB_passedPawnMasks (c : Colour) (sq : Z) :
  flipBB (passedPawnMasks c sq) = passedPawnMasks (opp c) (flipSq sq).
Proof.
  unfold passedPawnMasks. rewrite flipBB_bbOf. apply bbOf_ext.
  intros s _. now rewrite aheadOf_flip, !fileOf_flipSq.
Qed.

Lemma flipBB_outpostSquareMasks (c : Colour) (sq : Z) :
  flipBB (outpostSquareMasks c sq) = outpostSquareMasks (opp c) (flipSq sq).
Proof.
  unfold outpostSquareMasks. rewrite flipBB_bbOf. apply bbOf_ext.
  intros s _. now rewrite aheadOf_flip, !fileOf_flipSq.
Qed.

Lemma forwardRank_opp (c : Colour) : forwardRank (opp c) = - forwardRank c.
Proof. destruct c; reflexivity. Qed.

Lemma flipBB_pawnAttacks (c : Colour) (sq : Z) :
  flipBB (pawnAttacks c sq) = pawnAttacks (opp c) (flipSq sq).
Proof.
  unfold pawnAttacks. rewrite flipBB_bbOf. apply bbOf_ext.
  intros s _. rewrite !fileOf_flipSq, !rankOf_flipSq, forwardRank_opp.
  f_equal.
  destruct (Z.eqb_spec (7 - rankOf s) (rankOf sq + forwardRank c)),
    (Z.eqb_spec (rankOf s) (7 - rankOf sq + - forwardRank c));
    try reflexivity; lia.
Qed.

Lemma flipBB_pawnConnectedMasks (c : Colour) (sq : Z) :
  flipBB (pawnConnectedMasks c sq) = pawnConnectedMasks (opp c) (flipSq sq).
Proof.
  unfold pawnConnectedMasks. rewrite flipBB_bbOf. apply bbOf_ext.
  intros s _. rewrite !fileOf_flipSq, !rankOf_flipSq, forwardRank_opp.
  f_equal.
  destruct (Z.eqb_spec (7 - rankOf s) (rankOf sq)),
    (Z.eqb_spec (rankOf s) (7 - rankOf sq)),
    (Z.eqb_spec (7 - rankOf s) (rankOf sq - forwardRank c)),
    (Z.eqb_spec (rankOf s) (7 - rankOf sq - - forwardRank c));
    try reflexivity; lia.
Qed.

Lemma flipBB_knightAttacks (sq : Z) :
  flipBB (knightAttacks sq) = knightAttacks (flipSq sq).
Proof.
  unfold knightAttacks. rewrite flipBB_bbOf. apply bbOf_ext.
  intros s _. cbv zeta. rewrite !fileOf_flipSq, !rankOf_flipSq.
  replace (Z.abs (7 - rankOf s - rankOf sq))
    with (Z.abs (rankOf s - (7 - rankOf sq))) by lia.
  reflexivity.
Qed.

Lemma flipBB_kingAttacks (sq : Z) :
  flipBB (kingAttacks sq) = kingAttacks (flipSq sq).
Proof.
  unfold kingAttacks. rewrite flipBB_bbOf. apply bbOf_ext.
  intros s _. rewrite !fileOf_flipSq, !rankOf_flipSq.
  replace (Z.abs (7 - rankOf s - rankOf sq))
    with (Z.abs (rankOf s - (7 - rankOf sq))) by lia.
  reflexivity.
Qed.

Lemma flipBB_kingAreaMasks (c : Colour) (sq : Z) :
  flipBB (kingAreaMasks c sq) = kingAreaMasks (opp c) (flipSq sq).
Proof.
  unfold kingAreaMasks. rewrite flipBB_bbOf. apply bbOf_ext.
  intros s _. cbv zeta. rewrite !fileOf_flipSq, !rankOf_flipSq, forwardRank_opp.
  f_equal.
  replace (Z.abs (7 - rankOf s - rankOf sq))
    with (Z.abs (rankOf s - (7 - rankOf sq))) by lia.
  f_equal.
  destruct (Z.eqb_spec (7 - rankOf s - rankOf sq) (2 * forwardRank c)),
    (Z.eqb_spec (rankOf s - (7 - rankOf sq)) (2 * - forwardRank c));
    try reflexivity; lia.
Qed.

Lemma flipBB_pawnAdvance (pawns occupied : Z) (c : Colour) :
  flipBB (pawnAdvance pawns occupied c)
  = pawnAdvance (flipBB pawns) (flipBB occupied) (opp c).
Proof.
  unfold pawnAdvance. rewrite flipBB_bbOf. apply bbOf_ext.
  intros s Hs. rewrite testbit_flipBB, bit64_flipBB.
  apply onBoard_true in Hs. rewrite Hs. cbn [andb].
  f_equal. f_equal.
  replace (s - Forward (opp c)) with (s + Forward c)
    by (rewrite Forward_opp; lia).
  rewrite flipSq_Forward, Forward_opp. lia.
Qed.

Lemma flipSq_pred (s : Z) : 1 <= fileOf s -> flipSq (s - 1) = flipSq s - 1.
Proof.
  unfold flipSq, rankOf, fileOf. intros H.
  Z.to_euclidean_division_equations. lia.
Qed.

Lemma flipSq_succ (s : Z) : fileOf s <= 6 -> flipSq (s + 1) = flipSq s + 1.
Proof.
  unfold flipSq, rankOf, fileOf. intros H.
  Z.to_euclidean_division_equations. lia.
Qed.

Lemma flipBB_pawnAttackSpan (pawns targets : Z) (c : Colour) :
  flipBB (pawnAttackSpan pawns targets c)
  = pawnAttackSpan (flipBB pawns) (flipBB targets) (opp c).
Proof.
  unfold pawnAttackSpan. rewrite flipBB_bbOf. apply bbOf_ext.
  intros s Hs. rewrite testbit_flipBB, !bit64_flipBB, fileOf_flipSq.
  apply onBoard_true in Hs. rewrite Hs. cbn [andb].
  f_equal.
  assert (E : s - Forward (opp c) = s + Forward c)
    by (rewrite Forward_opp; lia).
  rewrite E.
  assert (F : flipSq s - Forward c = flipSq (s + Forward c))
    by (rewrite flipSq_Forward, Forward_opp; lia).
  rewrite F.
  assert (Hf : fileOf (s + Forward c) = fileOf s).
  { unfold fileOf. destruct c; cbn [Forward].
    - replace (s + 8) with (s + 1 * 8) by lia. now rewrite Z.mod_add.
    - replace (s + -8) with (s + (-1) * 8) by lia. now rewrite Z.mod_add. }
  f_equal.
  - destruct (Z.leb_spec 1 (fileOf s)); [|reflexivity]. cbn [andb].
    now rewrite flipSq_pred by (rewrite Hf; lia).
  - destruct (Z.leb_spec (fileOf s) 6); [|reflexivity]. cbn [andb].
    now rewrite flipSq_succ by (rewrite Hf; lia).
Qed.


(** * Sliding attacks on a flipped board *)

Lemma forallb_ext_in {A} (f g : A -> bool) (l : list A) :
  (forall x, In x l -> f x = g x) -> forallb f l = forallb g l.
Proof.
  induction l as [|a l IH]; intros H; simpl; [reflexivity|].
  rewrite (H a) by now left. f_equal. apply IH. intros; apply H; now right.
Qed.

Lemma forallb_eqb_in (f g : Z -> Z) (l : list Z) :
  forallb (fun k => f k =? g k) l = true -> forall k, In k l -> f k = g k.
Proof.
  intros H k Hk. rewrite forallb_forall in H. now apply Z.eqb_eq, H.
Qed.

Lemma between_check :
  forallb (fun sq =>
    forallb (fun s =>
      let df := Z.abs (fileOf s - fileOf (flipSq sq)) in
      let dr := Z.abs (rankOf s - rankOf (flipSq sq)) in
      (if (df =? dr) && (0 <? df) then betweenFlipped sq s df else true)
      && (if ((df =? 0) && (0 <? dr)) || ((dr =? 0) && (0 <? df))
          then betweenFlipped sq s (df + dr) else true))
      allSquares) allSquares = true.
Proof. vm_compute. reflexivity. Qed.

Lemma clearBetween_flip (occ sq s n : Z) :
  betweenFlipped sq s n = true ->
  clearBetween (flipBB occ) (flipSq sq) s n = clearBetween occ sq (flipSq s) n.
Proof.
  intros H. unfold clearBetween. apply forallb_ext_in. intros k Hk.
  rewrite bit64_flipBB. f_equal. f_equal.
  exact (forallb_eqb_in _ _ _ H k Hk).
Qed.

Lemma flipBB_bishopAttacks (sq occ : Z) :
  0 <= sq < 64 ->
  flipBB (bishopAttacks sq occ) = bishopAttacks (flipSq sq) (flipBB occ).
Proof.
  intros Hsq. unfold bishopAttacks. rewrite flipBB_bbOf. apply bbOf_ext.
  intros s Hs. cbv zeta.
  pose proof (forall_squares _ (forall_squares _ between_check sq Hsq) s Hs) as H.
  cbv beta zeta in H. apply andb_true_iff in H as [H _].
  rewrite !fileOf_flipSq, !rankOf_flipSq in *.
  replace (Z.abs (7 - rankOf s - rankOf sq))
    with (Z.abs (rankOf s - (7 - rankOf sq))) by lia.
  destruct ((Z.abs (fileOf s - fileOf sq) =? Z.abs (rankOf s - (7 - rankOf sq)))
            && (0 <? Z.abs (fileOf s - fileOf sq))); [|reflexivity].
  cbn [andb]. symmetry. now apply clearBetween_flip.
Qed.

Lemma flipBB_rookAttacks (sq occ : Z) :
  0 <= sq < 64 ->
  flipBB (rookAttacks sq occ) = rookAttacks (flipSq sq) (flipBB occ).
Proof.
  intros Hsq. unfold rookAttacks. rewrite flipBB_bbOf. apply bbOf_ext.
  intros s Hs. cbv zeta.
  pose proof (forall_squares _ (forall_squares _ between_check sq Hsq) s Hs) as H.
  cbv beta zeta in H. apply andb_true_iff in H as [_ H].
  rewrite !fileOf_flipSq, !rankOf_flipSq in *.
  replace (Z.abs (7 - rankOf s - rankOf sq))
    with (Z.abs (rankOf s - (7 - rankOf sq))) by lia.
  destruct (((Z.abs (fileOf s - fileOf sq) =? 0)
             && (0 <? Z.abs (rankOf s - (7 - rankOf sq))))
            || ((Z.abs (rankOf s - (7 - rankOf sq)) =? 0)
                && (0 <? Z.abs (fileOf s - fileOf sq)))); [|reflexivity].
  cbn [andb]. symmetry. now apply clearBetween_flip.
Qed.

(** * The most backward pawn of a file *)

Lemma squares_last_spec (b : Z) :
  squares b <> [] ->
  In (getmsb b) (squares b) /\ forall s, In s (squares b) -> s <= getmsb b.
Proof.
  unfold getmsb. rewrite squares_unfold, allSquares_unfold.
  generalize 0%nat, 64%nat. intros a n. revert a.
  induction n as [|n IH]; intros a; cbn [seq map filter]; [congruence|].
  destruct (Z.testbit b (Z.of_nat a)) eqn:Hb.
  - destruct (filter (Z.testbit b) (map Z.of_nat (seq (S a) n))) as [|x l] eqn:E.
    + intros _. cbn [last]. split; [now left|].
      intros s [<-|[]]. lia.
    + intros _. destruct (IH (S a)) as [H1 H2]; [rewrite E; discriminate|].
      rewrite E in H1, H2.
      change (last (Z.of_nat a :: x :: l) 0) with (last (x :: l) 0).
      split; [now right|].
      intros s [<-|Hs]; [|now apply H2].
      assert (Hin : In (last (x :: l) 0)
                       (filter (Z.testbit b) (map Z.of_nat (seq (S a) n))))
        by (rewrite E; exact H1).
      apply filter_In in Hin as [Hin _].
      apply in_map_iff in Hin as (m & <- & Hm). apply in_seq in Hm. lia.
  - intros Hne. destruct (IH (S a) Hne) as [H1 H2]. split; assumption.
Qed.

Lemma getmsb_spec (b : Z) :
  0 <= b < 2 ^ 64 -> b <> 0 ->
  0 <= getmsb b < 64 /\ Z.testbit b (getmsb b) = true
  /\ (forall s, 0 <= s < 64 -> Z.testbit b s = true -> s <= getmsb b).
Proof.
  intros Hb Hnz.
  assert (Hne : squares b <> []).
  { intros E. apply Hnz. apply squares_nil; assumption. }
  destruct (squares_last_spec b Hne) as [H1 H2].
  apply squares_In in H1. split; [tauto|]. split; [tauto|].
  intros s Hs Hbit. apply H2, squares_In. tauto.
Qed.

Lemma rankOf_mono (a b : Z) : a <= b -> rankOf a <= rankOf b.
Proof. unfold rankOf. intros H. apply Z.div_le_mono; lia. Qed.

(** The rank of the most backward square, seen from either side. *)
Lemma rankOf_backmost_flip (c : Colour) (b : Z) :
  0 <= b < 2 ^ 64 -> b <> 0 ->
  rankOf (backmost (opp c) (flipBB b)) = 7 - rankOf (backmost c b).
Proof.
  intros Hb Hnz.
  assert (Hfnz : flipBB b <> 0) by (intros E; apply Hnz; now apply flipBB_eq_0).
  pose proof (flipBB_range b) as Hfb.
  destruct (getlsb_spec b Hb Hnz) as (L1 & L2 & L3).
  destruct (getmsb_spec b Hb Hnz) as (M1 & M2 & M3).
  destruct (getlsb_spec (flipBB b) Hfb Hfnz) as (FL1 & FL2 & FL3).
  destruct (getmsb_spec (flipBB b) Hfb Hfnz) as (FM1 & FM2 & FM3).
  rewrite testbit_flipBB in FL2, FM2.
  apply andb_true_iff in FL2 as [_ FL2]. apply andb_true_iff in FM2 as [_ FM2].
  destruct c; cbn [backmost opp].
  - (* the highest square of the flipped board against the lowest of the board *)
    assert (A : getlsb b <= flipSq (getmsb (flipBB b))).
    { destruct (Z.le_gt_cases (getlsb b) (flipSq (getmsb (flipBB b)))) as [|Hlt];
        [assumption|].
      rewrite L3 in FM2; [discriminate|].
      pose proof (flipSq_bounds _ FM1). lia. }
    assert (B : flipSq (getlsb b) <= getmsb (flipBB b)).
    { apply FM3; [apply flipSq_bounds, L1|].
      rewrite testbit_flipBB, flipSq_involutive, L2.
      apply flipSq_bounds, onBoard_true in L1. now rewrite L1. }
    apply rankOf_mono in A, B. rewrite rankOf_flipSq in A, B. lia.
  - assert (A : flipSq (getlsb (flipBB b)) <= getmsb b).
    { apply M3; [apply flipSq_bounds, FL1 | exact FL2]. }
    assert (B : getlsb (flipBB b) <= flipSq (getmsb b)).
    { destruct (Z.le_gt_cases (getlsb (flipBB b)) (flipSq (getmsb b))) as [|Hlt];
        [assumption|].
      assert (Hbit : Z.testbit (flipBB b) (flipSq (getmsb b)) = true).
      { rewrite testbit_flipBB, flipSq_involutive, M2.
        apply flipSq_bounds, onBoard_true in M1. now rewrite M1. }
      rewrite FL3 in Hbit; [discriminate|].
      pose proof (flipSq_bounds _ M1). lia. }
    apply rankOf_mono in A, B. rewrite rankOf_flipSq in A, B. lia.
Qed.


(** * Storing attacks: the order does not matter *)

Ltac bits :=
  apply Z.bits_inj'; intros ?n ?Hn;
  repeat (rewrite Z.lor_spec || rewrite Z.land_spec || rewrite Z.lxor_spec);
  btauto.

(** Reads and writes of a scratchpad that is given field by field. *)
Ltac ei_compute :=
  cbv beta iota zeta delta
      [set_attackedBy set_attacked set_attackedBy2 set_kingAttacksCount
       set_kingAttackersCount set_kingAttackersWeight set_passedPawns set_pkeval
       storeAttacks clearAttackedBy withPawnKing
       attacked attackedBy2 attackedBy sel upd selP updP fst snd
       ofPawn ofKnight ofBishop ofRook ofQueen ofKing
       pawnAttacks_ rammedPawns blockedPawns kingAreas
       mobilityAreas occupiedMinusBishops occupiedMinusRooks passedPawns
       kingSquare kingAttacksCount kingAttackersCount kingAttackersWeight
       pkeval pkentry].

Ltac rec_eq :=
  repeat match goal with
         | |- mkEvalInfo _ _ _ _ _ _ _ _ _ _ _ _ _ _ _ _ _ = _ => f_equal
         | |- @pair _ _ _ _ = _ => f_equal
         | |- mkPerPiece _ _ _ _ _ _ = _ => f_equal
         end; try reflexivity.

Lemma bbLoop_ext {S} (f g : Z -> Z -> S -> S) (n : nat) :
  (forall sq bb s, f sq bb s = g sq bb s) ->
  forall bb s, bbLoop n f bb s = bbLoop n g bb s.
Proof.
  intros H. induction n as [|n IH]; intros bb s; cbn [bbLoop]; [reflexivity|].
  destruct (bb =? 0); [reflexivity|].
  destruct (poplsb bb) as [sq bb']. now rewrite H, IH.
Qed.

Lemma storeAttacks_comm c K a c' K' a' ei :
  storeAttacks c K a (storeAttacks c' K' a' ei)
  = storeAttacks c' K' a' (storeAttacks c K a ei).
Proof.
  destruct ei as [pa rp bp ka ma [atw atb] [a2w a2b] [[bw1 bw2 bw3 bw4 bw5 bw6]
                  [bb1 bb2 bb3 bb4 bb5 bb6]] omb omr pp ks kac kan kaw pk pe].
  unfold storeAttacks.
  destruct c, c'; destruct K, K';
    ei_compute; rec_eq; bits.
Qed.

Ltac ei_destruct ei :=
  destruct ei as [[paw pab] [rpw rpb] [bpw bpb] [kaw kab] [maw mab] [atw atb]
                  [a2w a2b] [[bw1 bw2 bw3 bw4 bw5 bw6] [bb1 bb2 bb3 bb4 bb5 bb6]]
                  [obw obb] [orw orb] pp [ksw ksb] [kcw kcb] [knw knb] [kww kwb]
                  [pkw pkb] pe].

Ltac ks_compute :=
  cbv beta iota zeta delta
      [updateKingSafety opp set_kingAttacksCount set_kingAttackersCount
       set_kingAttackersWeight set_attackedBy set_attacked set_attackedBy2
       storeAttacks clearAttackedBy selP updP
       ofPawn ofKnight ofBishop ofRook ofQueen ofKing
       sel upd fst snd kingAreas kingAttacksCount
       kingAttackersCount kingAttackersWeight
       pawnAttacks_ rammedPawns blockedPawns mobilityAreas attacked attackedBy2
       attackedBy occupiedMinusBishops occupiedMinusRooks passedPawns kingSquare
       pkeval pkentry].

(** The tests of [updateKingSafety] read the king areas, which nothing
    changes: they are decided once, for both sides. *)
Ltac ks_cases a a' kaw kab :=
  let E1 := fresh "E" in let E2 := fresh "E" in
  let E3 := fresh "E" in let E4 := fresh "E" in
  destruct (Z.land a kab =? 0) eqn:E1; destruct (Z.land a kaw =? 0) eqn:E2;
  destruct (Z.land a' kab =? 0) eqn:E3; destruct (Z.land a' kaw =? 0) eqn:E4;
  ks_compute;
  repeat (progress (rewrite ?E1, ?E2, ?E3, ?E4; ks_compute)).

Lemma updateKingSafety_comm c K a c' K' a' ei :
  updateKingSafety c K a (updateKingSafety c' K' a' ei)
  = updateKingSafety c' K' a' (updateKingSafety c K a ei).
Proof.
  ei_destruct ei.
  destruct c, c'; ks_cases a a' kaw kab;
    rec_eq; lia.
Qed.

Lemma storeAttacks_updateKingSafety c K a c' K' a' ei :
  storeAttacks c K a (updateKingSafety c' K' a' ei)
  = updateKingSafety c' K' a' (storeAttacks c K a ei).
Proof.
  ei_destruct ei.
  destruct c, c'; ks_cases a a' kaw kab;
    reflexivity.
Qed.

Lemma dynStep_comm c K a c' K' a' ei :
  dynStep c K a (dynStep c' K' a' ei) = dynStep c' K' a' (dynStep c K a ei).
Proof.
  unfold dynStep.
  rewrite storeAttacks_updateKingSafety, updateKingSafety_comm.
  rewrite storeAttacks_comm, <- storeAttacks_updateKingSafety.
  reflexivity.
Qed.

Lemma clearAttackedBy_storeAttacks c K c' K' a ei :
  c <> c' \/ K <> K' ->
  clearAttackedBy c K (storeAttacks c' K' a ei)
  = storeAttacks c' K' a (clearAttackedBy c K ei).
Proof.
  intros H. ei_destruct ei.
  destruct c, c'; destruct K, K';
    try (exfalso; destruct H as [H|H]; apply H; reflexivity);
    reflexivity.
Qed.

Lemma clearAttackedBy_updateKingSafety c K c' K' a ei :
  clearAttackedBy c K (updateKingSafety c' K' a ei)
  = updateKingSafety c' K' a (clearAttackedBy c K ei).
Proof.
  ei_destruct ei.
  destruct c, c'; ks_cases a a kaw kab;
    reflexivity.
Qed.

Lemma clearAttackedBy_dynStep c K c' K' a ei :
  c <> c' \/ K <> K' ->
  clearAttackedBy c K (dynStep c' K' a ei) = dynStep c' K' a (clearAttackedBy c K ei).
Proof.
  intros H. unfold dynStep.
  now rewrite clearAttackedBy_updateKingSafety, clearAttackedBy_storeAttacks.
Qed.

Lemma clearAttackedBy_comm c K c' K' ei :
  clearAttackedBy c K (clearAttackedBy c' K' ei)
  = clearAttackedBy c' K' (clearAttackedBy c K ei).
Proof.
  ei_destruct ei. destruct c, c'; destruct K, K'; reflexivity.
Qed.

(** * What the evaluators leave alone *)

Lemma staticView_storeAttacks c K a ei :
  staticView (storeAttacks c K a ei) = staticView ei.
Proof. reflexivity. Qed.

Lemma staticView_updateKingSafety c K a ei :
  staticView (updateKingSafety c K a ei) = staticView ei.
Proof.
  unfold updateKingSafety.
  destruct (Z.land a (sel (opp c) (kingAreas ei)) =? 0); reflexivity.
Qed.

Lemma staticView_dynStep c K a ei : staticView (dynStep c K a ei) = staticView ei.
Proof.
  unfold dynStep. now rewrite staticView_updateKingSafety.
Qed.

Lemma staticView_clearAttackedBy c K ei :
  staticView (clearAttackedBy c K ei) = staticView ei.
Proof. reflexivity. Qed.


(** * The steps of the piece evaluators, seen from the other side *)

Ltac mi_compute :=
  cbv beta iota zeta delta
      [mirrorInfo mirrorBBs mirrorSqs swapSides mapP
       updateKingSafety opp set_kingAttacksCount set_kingAttackersCount
       set_kingAttackersWeight set_attackedBy set_attacked set_attackedBy2
       set_passedPawns set_pkeval
       storeAttacks clearAttackedBy selP updP
       ofPawn ofKnight ofBishop ofRook ofQueen ofKing
       sel upd fst snd kingAreas kingAttacksCount
       kingAttackersCount kingAttackersWeight
       pawnAttacks_ rammedPawns blockedPawns mobilityAreas attacked attackedBy2
       attackedBy occupiedMinusBishops occupiedMinusRooks passedPawns kingSquare
       pkeval pkentry].

Lemma mirrorInfo_storeAttacks c K a ei :
  mirrorInfo (storeAttacks c K a ei)
  = storeAttacks (opp c) K (flipBB a) (mirrorInfo ei).
Proof.
  ei_destruct ei.
  destruct c, K; mi_compute; rewrite ?flipBB_lor, ?flipBB_land; reflexivity.
Qed.

Lemma mirrorInfo_clearAttackedBy c K ei :
  mirrorInfo (clearAttackedBy c K ei) = clearAttackedBy (opp c) K (mirrorInfo ei).
Proof.
  ei_destruct ei.
  destruct c, K; mi_compute; rewrite ?flipBB_0; reflexivity.
Qed.

Lemma mirrorInfo_updateKingSafety c K a ei :
  0 <= a < 2 ^ 64 ->
  mirrorInfo (updateKingSafety c K a ei)
  = updateKingSafety (opp c) K (flipBB a) (mirrorInfo ei).
Proof.
  intros Ha. ei_destruct ei.
  assert (Hw : (Z.land (flipBB a) (flipBB kaw) =? 0) = (Z.land a kaw =? 0)).
  { rewrite <- flipBB_land. apply flipBB_eqb_0, land_range_l, Ha. }
  assert (Hb : (Z.land (flipBB a) (flipBB kab) =? 0) = (Z.land a kab =? 0)).
  { rewrite <- flipBB_land. apply flipBB_eqb_0, land_range_l, Ha. }
  assert (Pw : popcount (Z.land (flipBB a) (flipBB kaw)) = popcount (Z.land a kaw)).
  { rewrite <- flipBB_land. apply popcount_flipBB. }
  assert (Pb : popcount (Z.land (flipBB a) (flipBB kab)) = popcount (Z.land a kab)).
  { rewrite <- flipBB_land. apply popcount_flipBB. }
  destruct c; unfold updateKingSafety;
    cbn [opp sel fst snd kingAreas mirrorInfo mirrorBBs];
    rewrite ?Hw, ?Hb;
    match goal with
    | |- context [if ?x =? 0 then _ else _] => destruct (x =? 0)
    end;
    mi_compute; rewrite ?Pw, ?Pb; reflexivity.
Qed.

Lemma mirrorInfo_dynStep c K a ei :
  0 <= a < 2 ^ 64 ->
  mirrorInfo (dynStep c K a ei) = dynStep (opp c) K (flipBB a) (mirrorInfo ei).
Proof.
  intros Ha. unfold dynStep.
  rewrite mirrorInfo_updateKingSafety by exact Ha.
  now rewrite mirrorInfo_storeAttacks.
Qed.

Lemma staticView_mirrorInfo ei ei' :
  staticView ei = staticView ei' ->
  staticView (mirrorInfo ei) = staticView (mirrorInfo ei').
Proof.
  unfold staticView. intros H. injection H as H1 H2 H3 H4 H5 H6 H7 H8 H9.
  cbn [mirrorInfo pawnAttacks_ rammedPawns blockedPawns kingAreas mobilityAreas
       occupiedMinusBishops occupiedMinusRooks kingSquare pkentry].
  now rewrite H1, H2, H3, H4, H5, H6, H7, H8, H9.
Qed.

(** * The piece loop in closed form *)

Lemma sum_map_ext_in (f g : Z -> Z) (l : list Z) :
  (forall x, In x l -> f x = g x) ->
  fold_right Z.add 0 (map f l) = fold_right Z.add 0 (map g l).
Proof.
  intros H. induction l as [|x l IH]; cbn [map fold_right]; [reflexivity|].
  rewrite H by (left; reflexivity). rewrite IH; [reflexivity|].
  intros y Hy. apply H. right. exact Hy.
Qed.

Lemma pieceFold_closed c K (att bonus : EvalInfo -> Z -> Z) bb ei :
  Static att -> Static bonus ->
  forall l v e,
    staticView e = staticView ei ->
    fold_left (fun s sq => pieceStep c K att bonus sq (above bb sq) s) l (v, e)
    = (v + fold_right Z.add 0 (map (bonus ei) l),
       fold_left (fun e sq => dynStep c K (att ei sq) e) l e).
Proof.
  intros Hatt Hbonus. induction l as [|sq l IH]; intros v e He.
  - cbn [fold_left map fold_right]. rewrite Z.add_0_r. reflexivity.
  - cbn [fold_left map fold_right]. unfold pieceStep at 2. cbn [fst snd].
    rewrite (Hatt e ei He), (Hbonus e ei He).
    rewrite IH by (rewrite staticView_dynStep; exact He).
    rewrite Z.add_assoc. reflexivity.
Qed.

Lemma pieceLoop_closed c K (att bonus : EvalInfo -> Z -> Z) bb ev0 ei :
  Static att -> Static bonus -> 0 <= bb < 2 ^ 64 ->
  pieceLoop c K att bonus bb ev0 ei
  = (ev0 + sumOver (bonus ei) bb,
     fold_left (fun e sq => dynStep c K (att ei sq) e) (squares bb)
               (clearAttackedBy c K ei)).
Proof.
  intros Hatt Hbonus Hbb. unfold pieceLoop, sumOver.
  rewrite bbLoop_squares by exact Hbb.
  apply pieceFold_closed; [exact Hatt|exact Hbonus|].
  apply staticView_clearAttackedBy.
Qed.

Lemma staticView_dynFold c K (a : Z -> Z) (l : list Z) e :
  staticView (fold_left (fun e sq => dynStep c K (a sq) e) l e) = staticView e.
Proof.
  apply (fold_left_invariant staticView). intros s x. apply staticView_dynStep.
Qed.

Lemma staticView_pieceLoop c K (att bonus : EvalInfo -> Z -> Z) bb ev0 ei :
  Static att -> Static bonus -> 0 <= bb < 2 ^ 64 ->
  staticView (snd (pieceLoop c K att bonus bb ev0 ei)) = staticView ei.
Proof.
  intros Hatt Hbonus Hbb. rewrite pieceLoop_closed by assumption.
  cbn [snd]. rewrite staticView_dynFold. apply staticView_clearAttackedBy.
Qed.

(** The score of a piece loop depends on nothing the evaluators write. *)
Lemma fst_pieceLoop_static c K (att bonus : EvalInfo -> Z -> Z) bb ev0 ei ei' :
  Static att -> Static bonus -> 0 <= bb < 2 ^ 64 ->
  staticView ei = staticView ei' ->
  fst (pieceLoop c K att bonus bb ev0 ei) = fst (pieceLoop c K att bonus bb ev0 ei').
Proof.
  intros Hatt Hbonus Hbb He. rewrite !pieceLoop_closed by assumption.
  cbn [fst]. rewrite (Hbonus ei ei' He). reflexivity.
Qed.

(** * The two sides do not see each other *)

Lemma dynFold_dynStep c K (a : Z -> Z) (l : list Z) c' K' a' e :
  fold_left (fun e sq => dynStep c K (a sq) e) l (dynStep c' K' a' e)
  = dynStep c' K' a' (fold_left (fun e sq => dynStep c K (a sq) e) l e).
Proof.
  symmetry.
  apply (fold_left_morph (dynStep c' K' a')
           (fun e sq => dynStep c K (a sq) e) (fun e sq => dynStep c K (a sq) e)).
  intros s x _. apply dynStep_comm.
Qed.

Lemma dynFold_clearAttackedBy c K (a : Z -> Z) (l : list Z) c' K' e :
  c <> c' \/ K <> K' ->
  fold_left (fun e sq => dynStep c K (a sq) e) l (clearAttackedBy c' K' e)
  = clearAttackedBy c' K' (fold_left (fun e sq => dynStep c K (a sq) e) l e).
Proof.
  intros H. symmetry.
  apply (fold_left_morph (clearAttackedBy c' K')
           (fun e sq => dynStep c K (a sq) e) (fun e sq => dynStep c K (a sq) e)).
  intros s x _. apply clearAttackedBy_dynStep.
  destruct H as [H|H]; [left|right]; congruence.
Qed.

Lemma dynFold_comm c K (a : Z -> Z) (l : list Z) c' K' (a' : Z -> Z) (l' : list Z) e :
  fold_left (fun e sq => dynStep c K (a sq) e) l
    (fold_left (fun e sq => dynStep c' K' (a' sq) e) l' e)
  = fold_left (fun e sq => dynStep c' K' (a' sq) e) l'
      (fold_left (fun e sq => dynStep c K (a sq) e) l e).
Proof.
  symmetry.
  apply (fold_left_morph
           (fun e => fold_left (fun e sq => dynStep c' K' (a' sq) e) l' e)
           (fun e sq => dynStep c K (a sq) e) (fun e sq => dynStep c K (a sq) e)).
  intros s x _. apply dynFold_dynStep.
Qed.

Lemma opp_neq (c : Colour) : c <> opp c.
Proof. destruct c; discriminate. Qed.

Lemma pieceLoop_swap c K (att1 bonus1 att2 bonus2 : EvalInfo -> Z -> Z)
      bb1 bb2 ev1 ev2 ei :
  Static att1 -> Static bonus1 -> Static att2 -> Static bonus2 ->
  0 <= bb1 < 2 ^ 64 -> 0 <= bb2 < 2 ^ 64 ->
  snd (pieceLoop (opp c) K att2 bonus2 bb2 ev2
         (snd (pieceLoop c K att1 bonus1 bb1 ev1 ei)))
  = snd (pieceLoop c K att1 bonus1 bb1 ev1
           (snd (pieceLoop (opp c) K att2 bonus2 bb2 ev2 ei))).
Proof.
  intros H1 H1' H2 H2' Hb1 Hb2.
  rewrite (pieceLoop_closed (opp c) K att2 bonus2 bb2 ev2
             (snd (pieceLoop c K att1 bonus1 bb1 ev1 ei))) by assumption.
  rewrite (pieceLoop_closed c K att1 bonus1 bb1 ev1
             (snd (pieceLoop (opp c) K att2 bonus2 bb2 ev2 ei))) by assumption.
  cbn [snd].
  rewrite (H2 _ ei (staticView_pieceLoop c K att1 bonus1 bb1 ev1 ei H1 H1' Hb1)).
  rewrite (H1 _ ei (staticView_pieceLoop (opp c) K att2 bonus2 bb2 ev2 ei H2 H2' Hb2)).
  rewrite !pieceLoop_closed by assumption. cbn [snd].
  rewrite <- (dynFold_clearAttackedBy c K (att1 ei) (squares bb1) (opp c) K)
    by (left; apply opp_neq).
  rewrite dynFold_comm.
  rewrite (clearAttackedBy_comm (opp c) K c K).
  rewrite (dynFold_clearAttackedBy (opp c) K (att2 ei) (squares bb2) c K)
    by (left; intros E; symmetry in E; revert E; apply opp_neq).
  reflexivity.
Qed.

(** * The piece loop of the twin *)

Lemma pieceLoop_mirror c K (att bonus att' bonus' : EvalInfo -> Z -> Z) bb ev0 ei :
  Static att -> Static bonus -> Static att' -> Static bonus' ->
  0 <= bb < 2 ^ 64 ->
  (forall sq, 0 <= sq < 64 -> 0 <= att ei sq < 2 ^ 64) ->
  (forall sq, In sq (squares bb) ->
              att' (mirrorInfo ei) (flipSq sq) = flipBB (att ei sq)) ->
  (forall sq, In sq (squares bb) ->
              bonus' (mirrorInfo ei) (flipSq sq) = bonus ei sq) ->
  pieceLoop (opp c) K att' bonus' (flipBB bb) ev0 (mirrorInfo ei)
  = liftInfo mirrorInfo (pieceLoop c K att bonus bb ev0 ei).
Proof.
  intros Ha Hb Ha' Hb' Hbb Hrange Hatt Hbonus.
  rewrite (pieceLoop_closed (opp c)) by (try assumption; apply flipBB_range).
  rewrite (pieceLoop_closed c) by assumption.
  unfold liftInfo. cbn [fst snd]. f_equal.
  - rewrite sumOver_flipBB. unfold sumOver. f_equal.
    apply sum_map_ext_in. exact Hbonus.
  - rewrite (fold_left_permutation _ _ _
               (fun s x y => dynStep_comm (opp c) K _ (opp c) K _ s)
               (squares_flipBB bb)).
    rewrite fold_left_map.
    rewrite <- mirrorInfo_clearAttackedBy.
    symmetry. apply fold_left_morph.
    intros s x Hx. rewrite (Hatt x Hx).
    apply mirrorInfo_dynStep. apply Hrange.
    apply squares_In in Hx. tauto.
Qed.


(** * The four piece evaluators are piece loops *)

Lemma if_add (b : bool) (x y : Z) : (if b then x + y else x) = x + (if b then y else 0).
Proof. destruct b; lia. Qed.

Lemma evaluateKnights_shape ei b c :
  evaluateKnights ei b c
  = pieceLoop c KNIGHT (fun _ sq => knightAttacks sq) (knightBonus c b)
              (Z.land (pieces b KNIGHT) (colours b c)) 0 ei.
Proof.
  unfold evaluateKnights, pieceLoop. apply bbLoop_ext.
  intros sq bb [ev e].
  unfold evaluateKnights_body, pieceStep, dynStep, knightBonus, outpostTerm,
    mobilityCount.
  cbn [fst snd]. f_equal.
  change (pawnAttacks_ (storeAttacks c KNIGHT (knightAttacks sq) e))
    with (pawnAttacks_ e).
  change (mobilityAreas (storeAttacks c KNIGHT (knightAttacks sq) e))
    with (mobilityAreas e).
  rewrite if_add. lia.
Qed.

Lemma evaluateBishops_shape ei b c :
  evaluateBishops ei b c
  = pieceLoop c BISHOP (bishopAttacksOf c) (bishopBonus c b)
              (Z.land (pieces b BISHOP) (colours b c))
              (if negb (Z.land (Z.land (pieces b BISHOP) (colours b c))
                               WHITE_SQUARES =? 0)
                  && negb (Z.land (Z.land (pieces b BISHOP) (colours b c))
                                  BLACK_SQUARES =? 0)
               then BishopPair else 0) ei.
Proof.
  unfold evaluateBishops, pieceLoop. apply bbLoop_ext.
  intros sq bb [ev e].
  unfold evaluateBishops_body, pieceStep, dynStep, bishopBonus, bishopAttacksOf,
    outpostTerm, mobilityCount.
  cbn [fst snd].
  change (occupiedMinusBishops
            (clearAttackedBy c BISHOP ei)) with (occupiedMinusBishops ei).
  f_equal.
  match goal with
  | |- context [storeAttacks c BISHOP ?a e] =>
      change (pawnAttacks_ (storeAttacks c BISHOP a e)) with (pawnAttacks_ e);
      change (mobilityAreas (storeAttacks c BISHOP a e)) with (mobilityAreas e);
      change (rammedPawns (storeAttacks c BISHOP a e)) with (rammedPawns e)
  end.
  rewrite if_add. lia.
Qed.

Lemma evaluateRooks_shape ei b c :
  evaluateRooks ei b c
  = pieceLoop c ROOK (rookAttacksOf c) (rookBonus c b)
              (Z.land (pieces b ROOK) (colours b c)) 0 ei.
Proof.
  unfold evaluateRooks, pieceLoop. apply bbLoop_ext.
  intros sq bb [ev e].
  unfold evaluateRooks_body, pieceStep, dynStep, rookBonus, rookAttacksOf,
    rookOnSeventh, mobilityCount.
  cbn [fst snd]. f_equal.
  match goal with
  | |- context [storeAttacks c ROOK ?a e] =>
      change (kingSquare (storeAttacks c ROOK a e)) with (kingSquare e);
      change (mobilityAreas (storeAttacks c ROOK a e)) with (mobilityAreas e)
  end.
  rewrite if_add.
  destruct (Z.land (Z.land (pieces b PAWN) (colours b c)) (Files (fileOf sq)) =? 0);
    lia.
Qed.

Lemma evaluateQueens_shape ei b c :
  evaluateQueens ei b c
  = pieceLoop c QUEEN (queenAttacks c) (queenBonus c)
              (Z.land (pieces b QUEEN) (colours b c)) 0 ei.
Proof.
  unfold evaluateQueens, pieceLoop. apply bbLoop_ext.
  intros sq bb [ev e].
  unfold evaluateQueens_body, pieceStep, dynStep, queenBonus, mobilityCount.
  cbn [fst snd]. f_equal.
Qed.

(** * Attacks and bonuses read only what no evaluator writes *)

Ltac static_fields H :=
  unfold staticView in H;
  injection H as Hpa Hrp Hbp Hka Hma Hob Hor Hks Hpe.

Lemma Static_knightAttacks : Static (fun (_ : EvalInfo) sq => knightAttacks sq).
Proof. intros ei ei' _. reflexivity. Qed.

Lemma Static_knightBonus c b : Static (knightBonus c b).
Proof.
  intros ei ei' H. static_fields H.
  unfold knightBonus, outpostTerm, mobilityCount. rewrite Hpa, Hma. reflexivity.
Qed.

Lemma Static_bishopAttacksOf c : Static (bishopAttacksOf c).
Proof.
  intros ei ei' H. static_fields H. unfold bishopAttacksOf. rewrite Hob. reflexivity.
Qed.

Lemma Static_bishopBonus c b : Static (bishopBonus c b).
Proof.
  intros ei ei' H. static_fields H.
  unfold bishopBonus, bishopAttacksOf, outpostTerm, mobilityCount.
  rewrite Hpa, Hma, Hrp, Hob. reflexivity.
Qed.

Lemma Static_rookAttacksOf c : Static (rookAttacksOf c).
Proof.
  intros ei ei' H. static_fields H. unfold rookAttacksOf. rewrite Hor. reflexivity.
Qed.

Lemma Static_rookBonus c b : Static (rookBonus c b).
Proof.
  intros ei ei' H. static_fields H.
  unfold rookBonus, rookAttacksOf, rookOnSeventh, mobilityCount.
  rewrite Hks, Hma, Hor. reflexivity.
Qed.

Lemma Static_queenAttacks c : Static (queenAttacks c).
Proof.
  intros ei ei' H. static_fields H. unfold queenAttacks. rewrite Hob, Hor. reflexivity.
Qed.

Lemma Static_queenBonus c : Static (queenBonus c).
Proof.
  intros ei ei' H. static_fields H.
  unfold queenBonus, queenAttacks, mobilityCount. rewrite Hob, Hor, Hma. reflexivity.
Qed.

(** * The board and the scratchpad of the twin, field by field *)

Lemma pieces_mirrorBoard b pm pk p :
  pieces (mirrorBoard b pm pk) p = flipBB (pieces b p).
Proof. destruct p; reflexivity. Qed.

Lemma colours_mirrorBoard b pm pk c :
  colours (mirrorBoard b pm pk) c = flipBB (colours b (opp c)).
Proof. destruct c; reflexivity. Qed.

Lemma sel_mirrorBBs c (x : PerColour Z) : sel c (mirrorBBs x) = flipBB (sel (opp c) x).
Proof. destruct c; reflexivity. Qed.

Lemma sel_mirrorSqs c (x : PerColour Z) : sel c (mirrorSqs x) = flipSq (sel (opp c) x).
Proof. destruct c; reflexivity. Qed.

Lemma sel_swapSides {A} c (x : PerColour A) : sel c (swapSides x) = sel (opp c) x.
Proof. destruct c; reflexivity. Qed.

Lemma attackedBy_mirrorInfo c K ei :
  selP K (sel c (attackedBy (mirrorInfo ei)))
  = flipBB (selP K (sel (opp c) (attackedBy ei))).
Proof. destruct c, K; reflexivity. Qed.

(** Rewrites every read of the twin into a read of the position itself. *)
Ltac twin :=
  repeat (rewrite attackedBy_mirrorInfo);
  cbn [mirrorInfo pawnAttacks_ rammedPawns blockedPawns kingAreas mobilityAreas
       attacked attackedBy2 occupiedMinusBishops occupiedMinusRooks passedPawns
       kingSquare kingAttacksCount kingAttackersCount kingAttackersWeight pkeval
       pkentry];
  rewrite ?pieces_mirrorBoard, ?colours_mirrorBoard, ?sel_mirrorBBs,
    ?sel_mirrorSqs, ?sel_swapSides, ?opp_involutive.

Lemma testBit_squareColours (sq : Z) :
  0 <= sq < 64 ->
  testBit BLACK_SQUARES sq = negb (testBit WHITE_SQUARES sq).
Proof.
  intros H. unfold testBit, BLACK_SQUARES, WHITE_SQUARES.
  rewrite !testbit_bbOf. rewrite (proj2 (onBoard_true sq) H). cbn [andb].
  rewrite <- Z.negb_odd. reflexivity.
Qed.

Lemma testBit_WHITE_SQUARES_flip (sq : Z) :
  0 <= sq < 64 ->
  testBit WHITE_SQUARES (flipSq sq) = negb (testBit WHITE_SQUARES sq).
Proof.
  intros H. unfold testBit, WHITE_SQUARES.
  rewrite !testbit_bbOf, onBoard_flipSq, rankOf_flipSq, fileOf_flipSq.
  rewrite (proj2 (onBoard_true sq) H). cbn [andb].
  rewrite !Z.odd_add, Z.odd_sub.
  change (Z.odd 7) with true.
  destruct (Z.odd (rankOf sq)), (Z.odd (fileOf sq)); reflexivity.
Qed.

Lemma flipBB_WHITE_SQUARES : flipBB WHITE_SQUARES = BLACK_SQUARES.
Proof. apply flipBB_constants. Qed.

Lemma flipBB_BLACK_SQUARES : flipBB BLACK_SQUARES = WHITE_SQUARES.
Proof. apply flipBB_constants. Qed.

Lemma eqb0_flip_land (a m m' : Z) :
  flipBB m = m' -> 0 <= m < 2 ^ 64 ->
  (Z.land (flipBB a) m' =? 0) = (Z.land a m =? 0).
Proof.
  intros <- Hm. rewrite <- flipBB_land. apply flipBB_eqb_0, land_range_r, Hm.
Qed.

Lemma popcount_flip_land (a m : Z) :
  popcount (Z.land (flipBB a) (flipBB m)) = popcount (Z.land a m).
Proof. rewrite <- flipBB_land. apply popcount_flipBB. Qed.

(** * The bonuses of the twin *)

Lemma pawnAdvance_twin (pawns occupied : Z) (c : Colour) :
  pawnAdvance (flipBB pawns) (flipBB occupied) c
  = flipBB (pawnAdvance pawns occupied (opp c)).
Proof. rewrite flipBB_pawnAdvance, opp_involutive. reflexivity. Qed.

Lemma pawnAdvance_twin_0 (pawns : Z) (c : Colour) :
  pawnAdvance (flipBB pawns) 0 c = flipBB (pawnAdvance pawns 0 (opp c)).
Proof. rewrite <- pawnAdvance_twin, flipBB_0. reflexivity. Qed.

Lemma outpostTerm_mirror c ei enemyPawns sq table :
  0 <= sq < 64 ->
  outpostTerm (opp c) (mirrorInfo ei) (flipBB enemyPawns) (flipSq sq) table
  = outpostTerm c ei enemyPawns sq table.
Proof.
  intros Hsq. unfold outpostTerm. twin.
  rewrite <- flipBB_outpostRanksMasks, <- flipBB_outpostSquareMasks.
  rewrite !testBit_flip by exact Hsq.
  rewrite <- flipBB_land.
  rewrite flipBB_eqb_0 by (apply land_range_l, bbOf_range).
  reflexivity.
Qed.

Lemma mobilityCount_mirror c ei a :
  mobilityCount (opp c) (mirrorInfo ei) (flipBB a) = mobilityCount c ei a.
Proof. unfold mobilityCount. twin. apply popcount_flip_land. Qed.

Lemma knightBonus_mirror c b pm pk ei sq :
  0 <= sq < 64 ->
  knightBonus (opp c) (mirrorBoard b pm pk) (mirrorInfo ei) (flipSq sq)
  = knightBonus c b ei sq.
Proof.
  intros Hsq. unfold knightBonus. twin.
  rewrite <- flipBB_land, outpostTerm_mirror by exact Hsq.
  rewrite <- flipBB_knightAttacks, mobilityCount_mirror.
  rewrite pawnAdvance_twin_0, testBit_flip by exact Hsq.
  reflexivity.
Qed.

Lemma bishopAttacksOf_mirror c ei sq :
  0 <= sq < 64 ->
  bishopAttacksOf (opp c) (mirrorInfo ei) (flipSq sq)
  = flipBB (bishopAttacksOf c ei sq).
Proof.
  intros Hsq. unfold bishopAttacksOf. twin.
  now rewrite flipBB_bishopAttacks.
Qed.

Lemma rookAttacksOf_mirror c ei sq :
  0 <= sq < 64 ->
  rookAttacksOf (opp c) (mirrorInfo ei) (flipSq sq) = flipBB (rookAttacksOf c ei sq).
Proof.
  intros Hsq. unfold rookAttacksOf. twin.
  now rewrite flipBB_rookAttacks.
Qed.

Lemma queenAttacks_mirror c ei sq :
  0 <= sq < 64 ->
  queenAttacks (opp c) (mirrorInfo ei) (flipSq sq) = flipBB (queenAttacks c ei sq).
Proof.
  intros Hsq. unfold queenAttacks. twin.
  now rewrite flipBB_lor, flipBB_rookAttacks, flipBB_bishopAttacks.
Qed.

Lemma bishopBonus_mirror c b pm pk ei sq :
  0 <= sq < 64 ->
  bishopBonus (opp c) (mirrorBoard b pm pk) (mirrorInfo ei) (flipSq sq)
  = bishopBonus c b ei sq.
Proof.
  intros Hsq. unfold bishopBonus.
  rewrite bishopAttacksOf_mirror, mobilityCount_mirror by exact Hsq.
  twin.
  rewrite <- !flipBB_land, outpostTerm_mirror by exact Hsq.
  rewrite <- flipBB_lor, pawnAdvance_twin_0, testBit_flip by exact Hsq.
  rewrite testBit_WHITE_SQUARES_flip by exact Hsq.
  replace (if negb (testBit WHITE_SQUARES sq) then WHITE_SQUARES else BLACK_SQUARES)
    with (flipBB (if testBit WHITE_SQUARES sq then WHITE_SQUARES else BLACK_SQUARES))
    by (destruct (testBit WHITE_SQUARES sq); cbn [negb];
        [apply flipBB_WHITE_SQUARES | apply flipBB_BLACK_SQUARES]).
  rewrite popcount_flip_land.
  reflexivity.
Qed.

Lemma rookOnSeventh_mirror c ei sq :
  rookOnSeventh (opp c) (mirrorInfo ei) (flipSq sq) = rookOnSeventh c ei sq.
Proof.
  unfold rookOnSeventh. twin. now rewrite !relativeRankOf_flip.
Qed.

Lemma rookBonus_mirror c b pm pk ei sq :
  0 <= sq < 64 ->
  rookBonus (opp c) (mirrorBoard b pm pk) (mirrorInfo ei) (flipSq sq)
  = rookBonus c b ei sq.
Proof.
  intros Hsq. unfold rookBonus.
  rewrite rookAttacksOf_mirror, mobilityCount_mirror, rookOnSeventh_mirror
    by exact Hsq.
  twin. rewrite fileOf_flipSq.
  rewrite <- !flipBB_land.
  rewrite !(eqb0_flip_land _ _ _ (flipBB_Files _) (Files_range _)).
  reflexivity.
Qed.

Lemma queenBonus_mirror c ei sq :
  0 <= sq < 64 ->
  queenBonus (opp c) (mirrorInfo ei) (flipSq sq) = queenBonus c ei sq.
Proof.
  intros Hsq. unfold queenBonus.
  now rewrite queenAttacks_mirror, mobilityCount_mirror.
Qed.

(** * The four piece evaluators on the twin *)

Lemma pieces_range (b : Board) (p : PieceType) (c : Colour) :
  WellFormed b -> 0 <= Z.land (pieces b p) (colours b c) < 2 ^ 64.
Proof. intros W. apply land_range_l, W. Qed.

Lemma squares_onBoard (bb sq : Z) : In sq (squares bb) -> 0 <= sq < 64.
Proof. intros H. apply squares_In in H. tauto. Qed.

Lemma evaluateKnights_mirror b pm pk ei c :
  WellFormed b ->
  evaluateKnights (mirrorInfo ei) (mirrorBoard b pm pk) (opp c)
  = liftInfo mirrorInfo (evaluateKnights ei b c).
Proof.
  intros W. rewrite !evaluateKnights_shape. twin. rewrite <- flipBB_land.
  apply pieceLoop_mirror;
    try apply Static_knightAttacks; try apply Static_knightBonus.
  - apply pieces_range, W.
  - intros sq _. apply bbOf_range.
  - intros sq _. symmetry. apply flipBB_knightAttacks.
  - intros sq Hsq. apply knightBonus_mirror. eapply squares_onBoard, Hsq.
Qed.

Lemma evaluateBishops_mirror b pm pk ei c :
  WellFormed b ->
  evaluateBishops (mirrorInfo ei) (mirrorBoard b pm pk) (opp c)
  = liftInfo mirrorInfo (evaluateBishops ei b c).
Proof.
  intros W. rewrite !evaluateBishops_shape. twin. rewrite <- flipBB_land.
  rewrite (eqb0_flip_land _ _ _ flipBB_BLACK_SQUARES (bbOf_range _)).
  rewrite (eqb0_flip_land _ _ _ flipBB_WHITE_SQUARES (bbOf_range _)).
  rewrite (andb_comm (negb (Z.land _ BLACK_SQUARES =? 0))).
  apply pieceLoop_mirror;
    try apply Static_bishopAttacksOf; try apply Static_bishopBonus.
  - apply pieces_range, W.
  - intros sq _. apply bbOf_range.
  - intros sq Hsq. apply bishopAttacksOf_mirror. eapply squares_onBoard, Hsq.
  - intros sq Hsq. apply bishopBonus_mirror. eapply squares_onBoard, Hsq.
Qed.

Lemma evaluateRooks_mirror b pm pk ei c :
  WellFormed b ->
  evaluateRooks (mirrorInfo ei) (mirrorBoard b pm pk) (opp c)
  = liftInfo mirrorInfo (evaluateRooks ei b c).
Proof.
  intros W. rewrite !evaluateRooks_shape. twin. rewrite <- flipBB_land.
  apply pieceLoop_mirror;
    try apply Static_rookAttacksOf; try apply Static_rookBonus.
  - apply pieces_range, W.
  - intros sq _. apply bbOf_range.
  - intros sq Hsq. apply rookAttacksOf_mirror. eapply squares_onBoard, Hsq.
  - intros sq Hsq. apply rookBonus_mirror. eapply squares_onBoard, Hsq.
Qed.

Lemma evaluateQueens_mirror b pm pk ei c :
  WellFormed b ->
  evaluateQueens (mirrorInfo ei) (mirrorBoard b pm pk) (opp c)
  = liftInfo mirrorInfo (evaluateQueens ei b c).
Proof.
  intros W. rewrite !evaluateQueens_shape. twin. rewrite <- flipBB_land.
  apply pieceLoop_mirror;
    try apply Static_queenAttacks; try apply Static_queenBonus.
  - apply pieces_range, W.
  - intros sq _. apply lor_range; apply bbOf_range.
  - intros sq Hsq. apply queenAttacks_mirror. eapply squares_onBoard, Hsq.
  - intros sq Hsq. apply queenBonus_mirror. eapply squares_onBoard, Hsq.
Qed.


(** * White minus Black on the twin *)

Lemma whiteMinusBlack_mirror (E : EvalInfo -> Board -> Colour -> Z * EvalInfo)
      (I : EvalInfo -> Prop) (b mb : Board) :
  (forall ei c, I ei -> E (mirrorInfo ei) mb (opp c) = liftInfo mirrorInfo (E ei b c)) ->
  (forall ei c, I ei -> I (snd (E ei b c))) ->
  (forall ei c, I ei -> fst (E (snd (E ei b (opp c))) b c) = fst (E ei b c)) ->
  (forall ei, I ei -> snd (E (snd (E ei b WHITE)) b BLACK)
                      = snd (E (snd (E ei b BLACK)) b WHITE)) ->
  forall ei, I ei ->
    whiteMinusBlack E (mirrorInfo ei) mb
    = (- fst (whiteMinusBlack E ei b), mirrorInfo (snd (whiteMinusBlack E ei b)))
    /\ I (snd (whiteMinusBlack E ei b)).
Proof.
  intros Hm Hs Hf Hc ei Hi. unfold whiteMinusBlack.
  pose proof (Hm ei BLACK Hi) as HmB. cbn [opp] in HmB. rewrite HmB.
  pose proof (Hf ei WHITE Hi) as HfW. cbn [opp] in HfW.
  pose proof (Hf ei BLACK Hi) as HfB. cbn [opp] in HfB.
  pose proof (Hc ei Hi) as Hc'.
  pose proof (Hs ei BLACK Hi) as HsB.
  pose proof (Hs ei WHITE Hi) as HsW.
  pose proof (Hm (snd (E ei b BLACK)) WHITE HsB) as HmW. cbn [opp] in HmW.
  pose proof (Hs (snd (E ei b WHITE)) BLACK HsW) as HsWB.
  destruct (E ei b BLACK) as [vB eB]. destruct (E ei b WHITE) as [vW eW].
  unfold liftInfo at 1. cbn [fst snd] in *.
  rewrite HmW. unfold liftInfo.
  destruct (E eB b WHITE) as [vW' eBW]. destruct (E eW b BLACK) as [vB' eWB].
  cbn [fst snd] in *. subst. split; [|exact HsWB].
  f_equal. lia.
Qed.

(** * The pawns *)

Lemma set_passedPawns_same ei : set_passedPawns (passedPawns ei) ei = ei.
Proof. destruct ei; reflexivity. Qed.

Lemma pawnStacked_add sq temp pk : pawnStacked sq temp pk = pk + pawnStacked sq temp 0.
Proof. unfold pawnStacked. destruct (negb _); lia. Qed.

Lemma evaluatePawns_body_closed US myPawns enemyPawns sq temp ei pk :
  evaluatePawns_body US myPawns enemyPawns sq temp (ei, pk)
  = (set_passedPawns (passedStep US enemyPawns (passedPawns ei) sq) ei,
     pk + pawnTerm US ei myPawns enemyPawns sq + pawnStacked sq temp 0).
Proof.
  unfold evaluatePawns_body, pawnTerm, passedStep, pawnPassedOrCandidate.
  destruct (Z.land enemyPawns (passedPawnMasks US sq) =? 0).
  - cbn [snd]. f_equal.
    unfold pawnBackwardOrConnected, pawnIsolated, pawnStacked.
    change (pawnAttacks_ (set_passedPawns (setBit (passedPawns ei) sq) ei))
      with (pawnAttacks_ ei).
    repeat match goal with
           | |- context [if ?x then _ else _] => destruct x
           end; lia.
  - rewrite set_passedPawns_same.
    match goal with
    | |- context [if ?x then _ else _] => destruct x
    end; cbn [snd]; f_equal;
      unfold pawnBackwardOrConnected, pawnIsolated, pawnStacked;
      repeat match goal with
             | |- context [if ?x then _ else _] => destruct x
             end; lia.
Qed.

Lemma pawnTerm_static US ei ei' myPawns enemyPawns sq :
  pawnAttacks_ ei = pawnAttacks_ ei' ->
  pawnTerm US ei myPawns enemyPawns sq = pawnTerm US ei' myPawns enemyPawns sq.
Proof.
  intros H. unfold pawnTerm, pawnBackwardOrConnected, pawnPassedOrCandidate.
  rewrite H.
  destruct (Z.land enemyPawns (passedPawnMasks US sq) =? 0);
    [cbn [snd]; reflexivity|].
  match goal with
  | |- context [snd (if ?x then _ else _)] => destruct x
  end; cbn [snd]; reflexivity.
Qed.

Lemma pawnFold_closed US myPawns enemyPawns (tempOf : Z -> Z) :
  forall l ei pk,
    fold_left (fun st sq => evaluatePawns_body US myPawns enemyPawns sq (tempOf sq) st)
              l (ei, pk)
    = (set_passedPawns (fold_left (passedStep US enemyPawns) l (passedPawns ei)) ei,
       pk + fold_right Z.add 0 (map (pawnTerm US ei myPawns enemyPawns) l)
          + fold_right Z.add 0 (map (fun sq => pawnStacked sq (tempOf sq) 0) l)).
Proof.
  induction l as [|sq l IH]; intros ei pk.
  - cbn [fold_left map fold_right]. rewrite set_passedPawns_same, !Z.add_0_r.
    reflexivity.
  - cbn [fold_left map fold_right]. rewrite evaluatePawns_body_closed, IH.
    f_equal.
    rewrite (sum_map_ext_in
                 (pawnTerm US (set_passedPawns
                                 (passedStep US enemyPawns (passedPawns ei) sq) ei)
                           myPawns enemyPawns)
                 (pawnTerm US ei myPawns enemyPawns))
      by (intros x _; apply pawnTerm_static; reflexivity).
    lia.
Qed.

(** ** The stacked penalties, file by file *)

Lemma stacked_term_pop (b f k : Z) (rest : list Z) :
  0 <= b < 2 ^ 64 -> squares b = k :: rest ->
  Z.max (popcount (Z.land b (Files f)) - 1) 0 * PawnStacked
  = Z.max (popcount (Z.land (above b k) (Files f)) - 1) 0 * PawnStacked
    + (if fileOf k =? f then pawnStacked k (above b k) 0 else 0).
Proof.
  intros Hb E.
  rewrite (popcount_land_pop b (Files f) k rest Hb E).
  assert (Hk : 0 <= k < 64).
  { apply (squares_onBoard b). rewrite E. left. reflexivity. }
  rewrite testbit_Files by exact Hk.
  pose proof (popcount_bounds (Z.land (above b k) (Files f))) as Hpc.
  unfold pawnStacked.
  destruct (Z.eqb_spec (fileOf k) f) as [Ef|Ef]; cbn [b2z].
  - rewrite Ef, (Z.land_comm (Files f) (above b k)).
    destruct (Z.eqb_spec (Z.land (above b k) (Files f)) 0) as [E0|E0]; cbn [negb].
    + rewrite E0, popcount_0. lia.
    + assert (popcount (Z.land (above b k) (Files f)) <> 0).
      { intros Hz. apply E0.
        apply (proj1 (popcount_zero_iff _
                        (land_range_l _ (Files f) (above_range b k)))).
        exact Hz. }
      rewrite !Z.max_l by lia. lia.
  - rewrite Z.add_0_l, Z.add_0_r. reflexivity.
Qed.

Lemma sum_map_add (g h : Z -> Z) (l : list Z) :
  fold_right Z.add 0 (map (fun x => g x + h x) l)
  = fold_right Z.add 0 (map g l) + fold_right Z.add 0 (map h l).
Proof.
  induction l as [|x l IH]; cbn [map fold_right]; [reflexivity|].
  rewrite IH. lia.
Qed.

Lemma zrange_0_7 : zrange 0 7 = [0; 1; 2; 3; 4; 5; 6; 7].
Proof. reflexivity. Qed.

Lemma sum_indicator_files (v X : Z) :
  0 <= v < 8 ->
  fold_right Z.add 0 (map (fun f => if v =? f then X else 0) (zrange 0 7)) = X.
Proof.
  intros Hv. rewrite zrange_0_7.
  assert (H : v = 0 \/ v = 1 \/ v = 2 \/ v = 3 \/ v = 4 \/ v = 5 \/ v = 6 \/ v = 7)
    by lia.
  destruct H as [->|[->|[->|[->|[->|[->|[->| ->]]]]]]];
    cbn [map fold_right Z.eqb Pos.eqb]; lia.
Qed.

Lemma stackedTotal_pop (b k : Z) (rest : list Z) :
  0 <= b < 2 ^ 64 -> squares b = k :: rest ->
  stackedTotal b = stackedTotal (above b k) + pawnStacked k (above b k) 0.
Proof.
  intros Hb E. unfold stackedTotal.
  rewrite (sum_map_ext_in _ _ _
             (fun f _ => stacked_term_pop b f k rest Hb E)).
  rewrite sum_map_add. f_equal.
  apply sum_indicator_files, fileOf_bounds.
Qed.

Lemma stackedTotal_0 : stackedTotal 0 = 0.
Proof.
  unfold stackedTotal.
  rewrite (sum_map_ext_in _ (fun _ => 0)).
  - generalize (zrange 0 7). intros l.
    induction l as [|x l IH]; cbn [map fold_right]; [reflexivity|].
    rewrite IH. reflexivity.
  - intros f _. rewrite Z.land_0_l, popcount_0. reflexivity.
Qed.

Lemma stacked_all_loop (n : nat) :
  forall (b acc : Z),
    0 <= b < 2 ^ 64 -> (length (squares b) <= n)%nat ->
    bbLoop n pawnStacked b acc = acc + stackedTotal b.
Proof.
  induction n as [|n IH]; intros b acc Hb Hlen.
  - cbn [bbLoop].
    assert (E : squares b = []).
    { destruct (squares b); [reflexivity | cbn [length] in Hlen; lia]. }
    apply squares_nil in E; [|exact Hb]. subst b.
    rewrite stackedTotal_0. lia.
  - cbn [bbLoop]. destruct (Z.eqb_spec b 0) as [->|Hnz].
    + rewrite stackedTotal_0. lia.
    + destruct (squares b) as [|k rest] eqn:E.
      * exfalso. apply Hnz. apply squares_nil; assumption.
      * destruct (poplsb_squares b k rest Hb E) as [Hp Hrest]. rewrite Hp.
        rewrite IH; [|apply above_range | rewrite <- Hrest; cbn [length] in Hlen; lia].
        rewrite (stackedTotal_pop b k rest Hb E).
        rewrite (pawnStacked_add k (above b k) acc). lia.
Qed.

Lemma fold_left_add_sum (g : Z -> Z) (l : list Z) :
  forall acc, fold_left (fun a x => a + g x) l acc
              = acc + fold_right Z.add 0 (map g l).
Proof.
  induction l as [|x l IH]; intros acc; cbn [fold_left map fold_right]; [lia|].
  rewrite IH. lia.
Qed.

Lemma stacked_sum (b : Z) :
  0 <= b < 2 ^ 64 ->
  fold_right Z.add 0 (map (fun sq => pawnStacked sq (above b sq) 0) (squares b))
  = stackedTotal b.
Proof.
  intros Hb.
  pose proof (stacked_all_loop 64 b 0 Hb (squares_length_le b)) as H.
  rewrite bbLoop_squares in H by exact Hb.
  rewrite (fold_left_ext_In _ (fun a x => a + pawnStacked x (above b x) 0)) in H
    by (intros a x _; apply pawnStacked_add).
  rewrite fold_left_add_sum in H. lia.
Qed.

Lemma stackedTotal_flipBB (b : Z) : stackedTotal (flipBB b) = stackedTotal b.
Proof.
  unfold stackedTotal. apply sum_map_ext_in. intros f _.
  rewrite <- (popcount_flip_land b (Files f)), flipBB_Files. reflexivity.
Qed.

(** ** [evaluatePawns] on a miss, in closed form *)

Lemma passedStep_lxor US enemyPawns pp sq :
  passedStep US enemyPawns pp sq
  = Z.lxor pp (passedStep US enemyPawns 0 sq).
Proof.
  unfold passedStep, setBit.
  destruct (Z.land enemyPawns (passedPawnMasks US sq) =? 0).
  - rewrite Z.lxor_0_l. reflexivity.
  - rewrite Z.lxor_0_r. reflexivity.
Qed.

Lemma passedFold_lxor US enemyPawns (l : list Z) :
  forall pp, fold_left (passedStep US enemyPawns) l pp
             = Z.lxor pp (fold_left (passedStep US enemyPawns) l 0).
Proof.
  induction l as [|sq l IH]; intros pp; cbn [fold_left].
  - rewrite Z.lxor_0_r. reflexivity.
  - rewrite IH, (IH (passedStep US enemyPawns 0 sq)).
    rewrite (passedStep_lxor US enemyPawns pp sq).
    rewrite Z.lxor_assoc. reflexivity.
Qed.

Lemma evaluatePawns_closed ei b c :
  WellFormed b -> pkentry ei = None ->
  evaluatePawns ei b c
  = (0, pawnFinal c (pawnScore c ei b)
                  (passedMask c (Z.land (pieces b PAWN) (colours b c))
                              (Z.land (pieces b PAWN) (colours b (opp c)))) ei).
Proof.
  intros W Hpe. unfold evaluatePawns.
  change (set_kingAttacksCount _ _) with (pawnStore c ei).
  change (pkentry (pawnStore c ei)) with (pkentry ei). rewrite Hpe.
  rewrite bbLoop_squares by (apply pieces_range, W).
  rewrite pawnFold_closed.
  rewrite stacked_sum by (apply pieces_range, W).
  rewrite passedFold_lxor.
  unfold pawnFinal, pawnScore, passedMask, sumOver.
  rewrite (sum_map_ext_in
             (pawnTerm c (pawnStore c ei) _ _) (pawnTerm c ei _ _))
    by (intros x _; apply pawnTerm_static; reflexivity).
  rewrite Z.add_0_l. reflexivity.
Qed.

(** ** The pawns of the twin *)

Lemma eqb0_flip_land_l (a m m' : Z) :
  flipBB m = m' -> 0 <= m < 2 ^ 64 ->
  (Z.land m' (flipBB a) =? 0) = (Z.land m a =? 0).
Proof.
  intros <- Hm. rewrite <- flipBB_land. apply flipBB_eqb_0, land_range_l, Hm.
Qed.

Lemma pawnAttacks_twin (c : Colour) (sq : Z) :
  pawnAttacks c (flipSq sq) = flipBB (pawnAttacks (opp c) sq).
Proof. rewrite flipBB_pawnAttacks, opp_involutive. reflexivity. Qed.

Lemma passedPawnMasks_twin (c : Colour) (sq : Z) :
  passedPawnMasks c (flipSq sq) = flipBB (passedPawnMasks (opp c) sq).
Proof. rewrite flipBB_passedPawnMasks, opp_involutive. reflexivity. Qed.

Lemma passedStep_mirror c enemyPawns pp sq :
  0 <= sq < 64 ->
  passedStep (opp c) (flipBB enemyPawns) (flipBB pp) (flipSq sq)
  = flipBB (passedStep c enemyPawns pp sq).
Proof.
  intros Hsq. unfold passedStep.
  rewrite <- flipBB_passedPawnMasks, <- flipBB_land.
  rewrite flipBB_eqb_0 by (apply land_range_r, bbOf_range).
  destruct (Z.land enemyPawns (passedPawnMasks c sq) =? 0); [|reflexivity].
  symmetry. apply setBit_flip, Hsq.
Qed.

Lemma passedStep_comm c enemyPawns pp s1 s2 :
  passedStep c enemyPawns (passedStep c enemyPawns pp s1) s2
  = passedStep c enemyPawns (passedStep c enemyPawns pp s2) s1.
Proof.
  unfold passedStep, setBit.
  destruct (Z.land enemyPawns (passedPawnMasks c s1) =? 0);
    destruct (Z.land enemyPawns (passedPawnMasks c s2) =? 0); try reflexivity.
  rewrite !Z.lxor_assoc. f_equal. apply Z.lxor_comm.
Qed.

Lemma passedMask_mirror c myPawns enemyPawns :
  passedMask (opp c) (flipBB myPawns) (flipBB enemyPawns)
  = flipBB (passedMask c myPawns enemyPawns).
Proof.
  unfold passedMask.
  rewrite (fold_left_permutation _ _ _
             (fun s x y => passedStep_comm (opp c) (flipBB enemyPawns) s x y)
             (squares_flipBB myPawns)).
  rewrite fold_left_map.
  rewrite <- flipBB_0 at 1.
  symmetry. apply fold_left_morph.
  intros s x Hx. symmetry. apply passedStep_mirror.
  eapply squares_onBoard, Hx.
Qed.

Lemma pawnCandidate_mirror c myPawns enemyPawns sq ei ei' pk :
  snd (pawnPassedOrCandidate (opp c) (flipBB myPawns) (flipBB enemyPawns)
                             (flipSq sq) (ei', pk))
  = snd (pawnPassedOrCandidate c myPawns enemyPawns sq (ei, pk)).
Proof.
  unfold pawnPassedOrCandidate.
  rewrite <- flipSq_Forward, opp_involutive.
  rewrite <- flipBB_passedPawnMasks, <- !flipBB_pawnAttacks, !pawnAttacks_twin.
  rewrite <- !flipBB_land, <- !flipBB_lxor, !popcount_flipBB.
  rewrite !flipBB_eqb_0
    by (repeat apply lxor_range; apply land_range_r, bbOf_range).
  rewrite relativeRankOf_flip.
  destruct (Z.land enemyPawns (passedPawnMasks c sq) =? 0); [reflexivity|].
  match goal with
  | |- context [if ?x then _ else _] => destruct x
  end; reflexivity.
Qed.

Lemma pawnIsolated_mirror myPawns sq pk :
  pawnIsolated (flipBB myPawns) (flipSq sq) pk = pawnIsolated myPawns sq pk.
Proof.
  unfold pawnIsolated. rewrite fileOf_flipSq.
  rewrite (eqb0_flip_land_l _ _ _ (flipBB_adjacentFilesMasks _) (bbOf_range _)).
  reflexivity.
Qed.

Lemma pawnBackwardOrConnected_mirror c ei myPawns enemyPawns sq pk :
  0 <= sel (opp c) (pawnAttacks_ ei) < 2 ^ 64 ->
  pawnBackwardOrConnected (opp c) (mirrorInfo ei)
    (flipBB myPawns) (flipBB enemyPawns) (flipSq sq) pk
  = pawnBackwardOrConnected c ei myPawns enemyPawns sq pk.
Proof.
  intros Hpa. unfold pawnBackwardOrConnected. twin.
  rewrite <- flipSq_Forward, testBit_flip_range by exact Hpa.
  rewrite passedPawnMasks_twin, <- flipBB_pawnConnectedMasks, fileOf_flipSq.
  rewrite <- !flipBB_land.
  rewrite !flipBB_eqb_0 by (apply land_range_l, bbOf_range).
  rewrite (eqb0_flip_land_l _ _ _ (flipBB_Files _) (Files_range _)).
  rewrite relativeSquare32_flip. reflexivity.
Qed.

Lemma pawnTerm_mirror c ei myPawns enemyPawns sq :
  0 <= sel (opp c) (pawnAttacks_ ei) < 2 ^ 64 ->
  pawnTerm (opp c) (mirrorInfo ei) (flipBB myPawns) (flipBB enemyPawns) (flipSq sq)
  = pawnTerm c ei myPawns enemyPawns sq.
Proof.
  intros Hpa. unfold pawnTerm.
  rewrite pawnBackwardOrConnected_mirror by exact Hpa.
  rewrite pawnIsolated_mirror.
  rewrite (pawnCandidate_mirror c myPawns enemyPawns sq ei (mirrorInfo ei) 0).
  reflexivity.
Qed.

Lemma pawnScore_mirror c ei b pm pk :
  0 <= sel (opp c) (pawnAttacks_ ei) < 2 ^ 64 ->
  pawnScore (opp c) (mirrorInfo ei) (mirrorBoard b pm pk) = pawnScore c ei b.
Proof.
  intros Hpa. unfold pawnScore. twin. rewrite <- !flipBB_land.
  rewrite stackedTotal_flipBB, sumOver_flipBB. f_equal.
  unfold sumOver. apply sum_map_ext_in. intros sq _.
  apply pawnTerm_mirror, Hpa.
Qed.

Ltac pw_compute :=
  cbv beta iota zeta delta
      [pawnFinal pawnStore
       mirrorInfo mirrorBBs mirrorSqs swapSides mapP
       opp set_kingAttacksCount set_kingAttackersCount
       set_kingAttackersWeight set_attackedBy set_attacked set_attackedBy2
       set_passedPawns set_pkeval selP updP
       ofPawn ofKnight ofBishop ofRook ofQueen ofKing
       sel upd fst snd kingAreas kingAttacksCount
       kingAttackersCount kingAttackersWeight
       pawnAttacks_ rammedPawns blockedPawns mobilityAreas attacked attackedBy2
       attackedBy occupiedMinusBishops occupiedMinusRooks passedPawns kingSquare
       pkeval pkentry].

Lemma mirrorInfo_pawnStore c ei :
  mirrorInfo (pawnStore c ei) = pawnStore (opp c) (mirrorInfo ei).
Proof.
  ei_destruct ei.
  destruct c; pw_compute;
    rewrite ?flipBB_lor, ?flipBB_land, ?popcount_flip_land; reflexivity.
Qed.

Lemma mirrorInfo_pawnFinal c score mask ei :
  mirrorInfo (pawnFinal c score mask ei)
  = pawnFinal (opp c) score (flipBB mask) (mirrorInfo ei).
Proof.
  unfold pawnFinal. rewrite <- mirrorInfo_pawnStore.
  generalize (pawnStore c ei). intros e. ei_destruct e.
  destruct c; mi_compute; rewrite ?flipBB_lxor; reflexivity.
Qed.

Lemma evaluatePawns_mirror b pm pk ei c :
  WellFormed b -> WellFormed (mirrorBoard b pm pk) ->
  pkentry ei = None ->
  0 <= sel (opp c) (pawnAttacks_ ei) < 2 ^ 64 ->
  evaluatePawns (mirrorInfo ei) (mirrorBoard b pm pk) (opp c)
  = liftInfo mirrorInfo (evaluatePawns ei b c).
Proof.
  intros W W' Hpe Hpa.
  rewrite (evaluatePawns_closed (mirrorInfo ei)) by (exact W' || exact Hpe).
  rewrite (evaluatePawns_closed ei) by assumption.
  unfold liftInfo. cbn [fst snd].
  rewrite mirrorInfo_pawnFinal, pawnScore_mirror by exact Hpa.
  twin. rewrite <- !flipBB_land, passedMask_mirror. reflexivity.
Qed.

(** ** The pawns of the two sides do not see each other *)

Lemma pawnFinal_swap c s m s' m' ei :
  pawnFinal (opp c) s' m' (pawnFinal c s m ei)
  = pawnFinal c s m (pawnFinal (opp c) s' m' ei).
Proof.
  ei_destruct ei.
  destruct c; pw_compute; rec_eq; bits.
Qed.

Lemma pawnScore_static c ei ei' b :
  pawnAttacks_ ei = pawnAttacks_ ei' -> pawnScore c ei b = pawnScore c ei' b.
Proof.
  intros H. unfold pawnScore, sumOver. f_equal.
  apply sum_map_ext_in. intros sq _. apply pawnTerm_static, H.
Qed.

Lemma staticView_pawnFinal c s m ei : staticView (pawnFinal c s m ei) = staticView ei.
Proof. reflexivity. Qed.


(** * The loop over the pawns, pawn by pawn *)

(** ** The order of a visit *)

Lemma testbit_bbOfSquares (l : list Z) (i : Z) :
  (forall s, In s l -> 0 <= s) ->
  Z.testbit (bbOfSquares l) i = existsb (fun s => s =? i) l.
Proof.
  induction l as [|x l IH]; intros Hl; cbn [bbOfSquares fold_right existsb].
  - apply Z.bits_0.
  - fold (bbOfSquares l).
    rewrite Z.lor_spec, testbit_shiftl_1 by (apply Hl; left; reflexivity).
    rewrite IH by (intros s Hs; apply Hl; right; exact Hs). reflexivity.
Qed.

Lemma bbOfSquares_range (l : list Z) :
  (forall s, In s l -> 0 <= s < 64) -> 0 <= bbOfSquares l < 2 ^ 64.
Proof.
  intros Hl. apply range_of_bits. intros n Hn.
  rewrite testbit_bbOfSquares by (intros s Hs; apply Hl in Hs; lia).
  apply not_true_is_false. intros E. apply existsb_exists in E.
  destruct E as (s & Hs & E). apply Z.eqb_eq in E. apply Hl in Hs. lia.
Qed.

Lemma existsb_squares (b i : Z) :
  0 <= i < 64 -> existsb (fun s => s =? i) (squares b) = Z.testbit b i.
Proof.
  intros Hi. destruct (Z.testbit b i) eqn:E.
  - apply existsb_exists. exists i. split; [|apply Z.eqb_refl].
    apply squares_In. split; assumption.
  - apply not_true_is_false. intros H. apply existsb_exists in H.
    destruct H as (s & Hs & Es). apply Z.eqb_eq in Es. subst s.
    apply squares_In in Hs. destruct Hs as [_ Hs]. congruence.
Qed.

Lemma bbOfSquares_squares (b : Z) : 0 <= b < 2 ^ 64 -> bbOfSquares (squares b) = b.
Proof.
  intros Hb. apply bb_ext; [|exact Hb|].
  - apply bbOfSquares_range. intros s Hs. eapply squares_onBoard, Hs.
  - intros s Hs.
    rewrite testbit_bbOfSquares
      by (intros x Hx; apply squares_onBoard in Hx; lia).
    apply existsb_squares, Hs.
Qed.

Lemma map_ext_In_pairs (g h : Z -> Z * Z) (l : list Z) :
  (forall x, In x l -> g x = h x) -> map g l = map h l.
Proof.
  intros H. induction l as [|x l IH]; cbn [map]; [reflexivity|].
  rewrite H by (left; reflexivity). rewrite IH; [reflexivity|].
  intros y Hy. apply H. right. exact Hy.
Qed.

Lemma visits_squares_gen (n : nat) :
  forall b, 0 <= b < 2 ^ 64 -> (length (squares b) <= n)%nat ->
            visits (squares b) = map (fun s => (s, above b s)) (squares b).
Proof.
  induction n as [|n IH]; intros b Hb Hlen.
  - destruct (squares b); [reflexivity | cbn [length] in Hlen; lia].
  - destruct (squares b) as [|k rest] eqn:E; [reflexivity|].
    destruct (poplsb_squares b k rest Hb E) as [_ Hrest].
    cbn [visits map]. rewrite Hrest at 1 2.
    rewrite bbOfSquares_squares by apply above_range.
    rewrite IH; [|apply above_range | rewrite <- Hrest; cbn [length] in Hlen; lia].
    rewrite <- Hrest. f_equal.
    apply map_ext_In_pairs. intros x Hx. rewrite Hrest in Hx.
    rewrite above_above by (eapply squares_above_gt, Hx). reflexivity.
Qed.

Lemma visits_squares (b : Z) :
  0 <= b < 2 ^ 64 -> visits (squares b) = map (fun s => (s, above b s)) (squares b).
Proof. intros Hb. apply (visits_squares_gen 64 b Hb), squares_length_le. Qed.

(** ** The stacked test, whatever the order *)

Lemma land_Files_bbOfSquares (f : Z) (l : list Z) :
  (forall s, In s l -> 0 <= s < 64) ->
  (Z.land (Files f) (bbOfSquares l) =? 0)
  = (Z.of_nat (length (filter (fun s => fileOf s =? f) l)) =? 0).
Proof.
  intros Hl.
  assert (Hnn : forall s, In s l -> 0 <= s) by (intros s Hs; apply Hl in Hs; lia).
  destruct (filter (fun s => fileOf s =? f) l) as [|x r] eqn:E.
  - cbn [length Z.of_nat Z.eqb]. apply Z.eqb_eq. apply Z.bits_inj'. intros i _.
    rewrite Z.land_spec, Z.bits_0, testbit_bbOfSquares by exact Hnn.
    destruct (existsb (fun s => s =? i) l) eqn:Ex; [|apply andb_false_r].
    apply existsb_exists in Ex. destruct Ex as (s & Hs & Es).
    apply Z.eqb_eq in Es. subst s.
    rewrite testbit_Files by (apply Hl, Hs). rewrite andb_true_r.
    apply not_true_is_false. intros F.
    assert (In i (filter (fun s => fileOf s =? f) l))
      by (apply filter_In; split; assumption).
    rewrite E in H. destruct H.
  - assert (Hx : In x (filter (fun s => fileOf s =? f) l))
      by (rewrite E; left; reflexivity).
    apply filter_In in Hx. destruct Hx as [Hx Fx].
    transitivity false.
    + apply Z.eqb_neq. intros Z0.
      assert (T : Z.testbit (Z.land (Files f) (bbOfSquares l)) x = true).
      { rewrite Z.land_spec, testbit_Files, Fx, testbit_bbOfSquares
          by (exact Hnn || apply Hl, Hx).
        apply existsb_exists. exists x. split; [exact Hx | apply Z.eqb_refl]. }
      rewrite Z0, Z.bits_0 in T. discriminate.
    + symmetry. apply Z.eqb_neq. cbn [length]. lia.
Qed.

Lemma stacked_visits (f : Z) (l : list Z) :
  (forall s, In s l -> 0 <= s < 64) ->
  fold_right Z.add 0
    (map (fun v => pawnStacked (fst v) (snd v) 0)
         (filter (fun v => fileOf (fst v) =? f) (visits l)))
  = Z.max (Z.of_nat (length (filter (fun s => fileOf s =? f) l)) - 1) 0 * PawnStacked.
Proof.
  induction l as [|s rest IH]; intros Hl; [reflexivity|].
  assert (Hrest : forall x, In x rest -> 0 <= x < 64)
    by (intros x Hx; apply Hl; right; exact Hx).
  specialize (IH Hrest).
  cbn [visits filter fst]. destruct (Z.eqb_spec (fileOf s) f) as [Ef|Ef].
  - cbn [map fold_right fst snd length]. rewrite IH.
    unfold pawnStacked. rewrite Ef, land_Files_bbOfSquares by exact Hrest.
    destruct (Z.eqb_spec (Z.of_nat (length (filter (fun s => fileOf s =? f) rest))) 0)
      as [E0|E0]; cbn [negb].
    + rewrite E0. rewrite Nat2Z.inj_succ, E0. cbn. reflexivity.
    + rewrite Nat2Z.inj_succ. rewrite !Z.max_l by lia. lia.
  - exact IH.
Qed.

Lemma filter_length_perm {A} (p : A -> bool) (l l' : list A) :
  Permutation l l' -> length (filter p l) = length (filter p l').
Proof.
  intros H. induction H as [|x l l' H IH|x y l|l l' l'' H1 IH1 H2 IH2];
    cbn [filter].
  - reflexivity.
  - destruct (p x); cbn [length]; rewrite IH; reflexivity.
  - destruct (p x), (p y); reflexivity.
  - rewrite IH1. exact IH2.
Qed.

Lemma pawns_on_file (b f : Z) :
  Z.of_nat (length (filter (fun s => fileOf s =? f) (squares b)))
  = popcount (Z.land b (Files f)).
Proof.
  rewrite popcount_unfold, squares_land. do 2 f_equal.
  apply filter_ext_in. intros s Hs.
  symmetry. apply testbit_Files. eapply squares_onBoard, Hs.
Qed.

(** ** What the loop leaves in [passedPawns] *)

Lemma testbit_passedFold US enemyPawns (l : list Z) :
  NoDup l -> (forall s, In s l -> 0 <= s) ->
  forall pp x,
    Z.testbit (fold_left (passedStep US enemyPawns) l pp) x
    = xorb (Z.testbit pp x)
           (existsb (fun s => s =? x) l
            && (Z.land enemyPawns (passedPawnMasks US x) =? 0)).
Proof.
  induction l as [|s l IH]; intros Hnd Hl pp x; cbn [fold_left existsb].
  - cbn [andb]. rewrite xorb_false_r. reflexivity.
  - inversion Hnd as [|s' l' Hnot Hnd']; subst.
    rewrite IH by (exact Hnd' || (intros y Hy; apply Hl; right; exact Hy)).
    unfold passedStep.
    destruct (Z.eqb_spec s x) as [->|Hne]; cbn [orb].
    + assert (Ex : existsb (fun s => s =? x) l = false).
      { apply not_true_is_false. intros E. apply existsb_exists in E.
        destruct E as (y & Hy & Ey). apply Z.eqb_eq in Ey. subst y.
        apply Hnot, Hy. }
      rewrite Ex. cbn [andb]. rewrite xorb_false_r.
      destruct (Z.land enemyPawns (passedPawnMasks US x) =? 0).
      * rewrite testbit_setBit, Z.eqb_refl by (apply Hl; left; reflexivity).
        reflexivity.
      * rewrite xorb_false_r. reflexivity.
    + destruct (Z.land enemyPawns (passedPawnMasks US s) =? 0); [|reflexivity].
      rewrite testbit_setBit by (apply Hl; left; reflexivity).
      apply Z.eqb_neq in Hne. rewrite Hne, xorb_false_r. reflexivity.
Qed.

Lemma testbit_passedMask US myPawns enemyPawns x :
  0 <= x < 64 ->
  Z.testbit (passedMask US myPawns enemyPawns) x
  = Z.testbit myPawns x && (Z.land enemyPawns (passedPawnMasks US x) =? 0).
Proof.
  intros Hx. unfold passedMask.
  rewrite testbit_passedFold
    by (apply NoDup_squares || (intros s Hs; apply squares_onBoard in Hs; lia)).
  rewrite Z.bits_0, xorb_false_l, existsb_squares by exact Hx. reflexivity.
Qed.

Lemma passedPawns_pawnFinal c s m ei :
  passedPawns (pawnFinal c s m ei) = Z.lxor (passedPawns ei) m.
Proof. reflexivity. Qed.

Lemma pkeval_pawnFinal c s m ei : sel c (pkeval (pawnFinal c s m ei)) = s.
Proof. destruct c; reflexivity. Qed.

Lemma snd_whiteMinusBlack (E : EvalInfo -> Board -> Colour -> Z * EvalInfo) ei b :
  snd (whiteMinusBlack E ei b) = snd (E (snd (E ei b WHITE)) b BLACK).
Proof.
  unfold whiteMinusBlack. destruct (E ei b WHITE) as [w e].
  cbn [snd]. destruct (E e b BLACK) as [v e']. reflexivity.
Qed.

(** ** What one round adds to [pkeval] *)

Lemma pawnIsolated_add myPawns sq pk :
  pawnIsolated myPawns sq pk = pk + pawnIsolated myPawns sq 0.
Proof. unfold pawnIsolated. destruct (_ =? 0); lia. Qed.

Lemma pawnBackwardOrConnected_add US ei myPawns enemyPawns sq pk :
  pawnBackwardOrConnected US ei myPawns enemyPawns sq pk
  = pk + pawnBackwardOrConnected US ei myPawns enemyPawns sq 0.
Proof.
  unfold pawnBackwardOrConnected.
  destruct (_ && _); [lia|]. destruct (negb _); lia.
Qed.

Lemma pawnRest_add US ei myPawns enemyPawns sq temp x y :
  pawnBackwardOrConnected US ei myPawns enemyPawns sq
    (pawnStacked sq temp (pawnIsolated myPawns sq (x + y)))
  = pawnBackwardOrConnected US ei myPawns enemyPawns sq
      (pawnStacked sq temp (pawnIsolated myPawns sq x)) + y.
Proof.
  rewrite pawnBackwardOrConnected_add, pawnStacked_add, pawnIsolated_add.
  rewrite (pawnBackwardOrConnected_add US ei myPawns enemyPawns sq
             (pawnStacked sq temp (pawnIsolated myPawns sq x))).
  rewrite (pawnStacked_add sq temp (pawnIsolated myPawns sq x)).
  rewrite (pawnIsolated_add myPawns sq x). lia.
Qed.

Lemma pawnTerm_candidateBonus US ei myPawns enemyPawns sq temp :
  pawnTerm US ei myPawns enemyPawns sq + pawnStacked sq temp 0
  = candidateBonus US myPawns enemyPawns sq
    + pawnBackwardOrConnected US ei myPawns enemyPawns sq
        (pawnStacked sq temp (pawnIsolated myPawns sq 0)).
Proof.
  unfold pawnTerm.
  rewrite (pawnBackwardOrConnected_add US ei myPawns enemyPawns sq
             (pawnStacked sq temp (pawnIsolated myPawns sq 0))).
  rewrite (pawnStacked_add sq temp (pawnIsolated myPawns sq 0)).
  rewrite pawnBackwardOrConnected_add, pawnIsolated_add.
  assert (E : snd (pawnPassedOrCandidate US myPawns enemyPawns sq (ei, 0))
              = candidateBonus US myPawns enemyPawns sq).
  { unfold pawnPassedOrCandidate, candidateBonus.
    destruct (Z.land enemyPawns (passedPawnMasks US sq) =? 0); [reflexivity|].
    destruct (_ && _); cbn [snd]; [apply Z.add_0_l | reflexivity]. }
  rewrite E. lia.
Qed.

Lemma pkeval_evaluatePawns ei b c :
  WellFormed b -> pkentry ei = None ->
  sel c (pkeval (snd (evaluatePawns ei b c)))
  = fold_right Z.add 0
      (map (fun s => pawnTerm c ei (Z.land (pieces b PAWN) (colours b c))
                              (Z.land (pieces b PAWN) (colours b (opp c))) s
                     + pawnStacked s (above (Z.land (pieces b PAWN) (colours b c)) s) 0)
           (squares (Z.land (pieces b PAWN) (colours b c)))).
Proof.
  intros W Hpe. rewrite evaluatePawns_closed by assumption. cbn [snd].
  rewrite pkeval_pawnFinal. unfold pawnScore, sumOver.
  rewrite <- stacked_sum by (apply pieces_range, W).
  rewrite <- sum_map_add. reflexivity.
Qed.

Lemma testbit_passedPawns_evaluatePawns ei b c s :
  WellFormed b -> pkentry ei = None -> 0 <= s < 64 ->
  Z.testbit (passedPawns (snd (evaluatePawns ei b c))) s
  = xorb (Z.testbit (passedPawns ei) s)
         (Z.testbit (Z.land (pieces b PAWN) (colours b c)) s
          && (Z.land (Z.land (pieces b PAWN) (colours b (opp c)))
                     (passedPawnMasks c s) =? 0)).
Proof.
  intros W Hpe Hs. rewrite evaluatePawns_closed by assumption. cbn [snd].
  rewrite passedPawns_pawnFinal, Z.lxor_spec, testbit_passedMask by exact Hs.
  reflexivity.
Qed.

(** C7: in a round of the loop of [evaluatePawns], a pawn without stoppers
    has its square put into [passedPawns] and gets no bonus for it; a pawn
    with stoppers gets [PawnCandidatePasser[|support| >= |threats|][rank]]
    added to the running [pkeval] when [leftovers] is empty and
    [|pushSupport| >= |pushThreats|], and nothing otherwise; in every case
    the isolated, stacked and backward or connected terms follow.  On a miss
    the loop flips in [passedPawns] exactly the squares of the pawns of the
    side that have no stoppers, and [pkeval] of the side is the sum over its
    pawns of the candidate bonus in the spec's words and of the other three
    terms; from a fresh scratchpad, [passedPawns] after the pawns of both
    sides is the set of the pawns without stoppers. *)
Theorem pawnPassedOrCandidate_cases (board : Board) (US : Colour) (ei : EvalInfo)
        (sq tempPawns pk : Z) :
  let THEM := opp US in
  let myPawns := Z.land (pieces board PAWN) (colours board US) in
  let enemyPawns := Z.land (pieces board PAWN) (colours board THEM) in
  let stoppers    := Z.land enemyPawns (passedPawnMasks US sq) in
  let threats     := Z.land enemyPawns (pawnAttacks US sq) in
  let support     := Z.land myPawns (pawnAttacks THEM sq) in
  let pushThreats := Z.land enemyPawns (pawnAttacks US (sq + Forward US)) in
  let pushSupport := Z.land myPawns (pawnAttacks THEM (sq + Forward US)) in
  let leftovers   := Z.lxor (Z.lxor stoppers threats) pushThreats in
  let candidate   := (leftovers =? 0)
                     && (popcount pushThreats <=? popcount pushSupport) in
  let bonus := nthZ2 (b2z (popcount threats <=? popcount support))
                     (relativeRankOf US sq) PawnCandidatePasser in
  let res := evaluatePawns_body US myPawns enemyPawns sq tempPawns (ei, pk) in
  let others := fun x =>
    pawnBackwardOrConnected US ei myPawns enemyPawns sq
      (pawnStacked sq tempPawns (pawnIsolated myPawns sq x)) in
  ((stoppers =? 0) = true ->
     passedPawns (fst res) = setBit (passedPawns ei) sq /\ snd res = others pk)
  /\ ((stoppers =? 0) = false -> candidate = true ->
        passedPawns (fst res) = passedPawns ei /\ snd res = others pk + bonus)
  /\ ((stoppers =? 0) = false -> candidate = false ->
        passedPawns (fst res) = passedPawns ei /\ snd res = others pk)
  /\ (wfBoard board = true -> pkentry ei = None ->
        (forall s, 0 <= s < 64 ->
           Z.testbit (passedPawns (snd (evaluatePawns ei board US))) s
           = xorb (Z.testbit (passedPawns ei) s)
                  (Z.testbit myPawns s
                   && (Z.land enemyPawns (passedPawnMasks US s) =? 0)))
        /\ sel US (pkeval (snd (evaluatePawns ei board US)))
           = sumOver (fun s =>
                        candidateBonus US myPawns enemyPawns s
                        + pawnBackwardOrConnected US ei myPawns enemyPawns s
                            (pawnStacked s (above myPawns s)
                                         (pawnIsolated myPawns s 0)))
                     myPawns)
  /\ (wfBoard board = true ->
        forall s, 0 <= s < 64 ->
          Z.testbit (passedPawns
                       (snd (whiteMinusBlack evaluatePawns
                               (initializeEvalInfo board None) board))) s
          = existsb (fun c =>
                       Z.testbit (Z.land (pieces board PAWN) (colours board c)) s
                       && (Z.land (Z.land (pieces board PAWN)
                                          (colours board (opp c)))
                                  (passedPawnMasks c s) =? 0))
                    [WHITE; BLACK]).
Proof.
  cbv zeta.
  assert (Hbody :
    evaluatePawns_body US (Z.land (pieces board PAWN) (colours board US))
      (Z.land (pieces board PAWN) (colours board (opp US))) sq tempPawns (ei, pk)
    = (set_passedPawns
         (passedStep US (Z.land (pieces board PAWN) (colours board (opp US)))
                     (passedPawns ei) sq) ei,
       pawnBackwardOrConnected US ei (Z.land (pieces board PAWN) (colours board US))
         (Z.land (pieces board PAWN) (colours board (opp US))) sq
         (pawnStacked sq tempPawns
            (pawnIsolated (Z.land (pieces board PAWN) (colours board US)) sq pk))
       + candidateBonus US (Z.land (pieces board PAWN) (colours board US))
           (Z.land (pieces board PAWN) (colours board (opp US))) sq)).
  { rewrite evaluatePawns_body_closed. f_equal.
    rewrite <- Z.add_assoc, pawnTerm_candidateBonus.
    pose proof (pawnRest_add US ei (Z.land (pieces board PAWN) (colours board US))
                  (Z.land (pieces board PAWN) (colours board (opp US)))
                  sq tempPawns 0 pk) as R.
    rewrite Z.add_0_l in R. rewrite R. lia. }
  rewrite Hbody. cbn [fst snd].
  change (passedPawns (set_passedPawns ?x ei)) with x.
  unfold passedStep, candidateBonus.
  split; [|split; [|split; [|split]]].
  - intros Hs. rewrite Hs. split; [reflexivity|apply Z.add_0_r].
  - intros Hs Hc. rewrite Hs, Hc. split; reflexivity.
  - intros Hs Hc. rewrite Hs, Hc. split; [reflexivity|apply Z.add_0_r].
  - intros Hwf Hpe. apply wfBoard_WellFormed in Hwf. split.
    + intros s Hs. apply testbit_passedPawns_evaluatePawns; assumption.
    + rewrite pkeval_evaluatePawns by assumption. unfold sumOver.
      apply sum_map_ext_in. intros s _. apply pawnTerm_candidateBonus.
  - intros Hwf s Hs. apply wfBoard_WellFormed in Hwf.
    rewrite snd_whiteMinusBlack.
    rewrite testbit_passedPawns_evaluatePawns
      by (try assumption; rewrite pkentry_evaluatePawns;
          apply pkentry_initializeEvalInfo_None).
    rewrite testbit_passedPawns_evaluatePawns
      by (try assumption; apply pkentry_initializeEvalInfo_None).
    change (passedPawns (initializeEvalInfo board None)) with 0.
    rewrite Z.bits_0, xorb_false_l. cbn [existsb opp]. rewrite orb_false_r.
    assert (D : Z.testbit (Z.land (pieces board PAWN) (colours board WHITE)) s
                && Z.testbit (Z.land (pieces board PAWN) (colours board BLACK)) s
                = false).
    { rewrite !Z.land_spec.
      pose proof (land_zero_bits _ _ s (wf_sides board Hwf)) as D.
      destruct (Z.testbit (pieces board PAWN) s); [exact D|reflexivity]. }
    destruct (Z.testbit (Z.land (pieces board PAWN) (colours board WHITE)) s),
      (Z.testbit (Z.land (pieces board PAWN) (colours board BLACK)) s);
      try discriminate D; cbn [andb xorb orb];
      repeat match goal with |- context [?x =? 0] => destruct (x =? 0) end;
      reflexivity.
Qed.

Lemma pawnPassedOrCandidate_cases_witness :
  (Z.land (Z.land (pieces pawnsBoard PAWN) (colours pawnsBoard WHITE))
          (passedPawnMasks BLACK 35) =? 0) = false
  /\ wfBoard pawnsBoard = true
  /\ pkentry pawnsInfoForBlack = None
  /\ snd (evaluatePawns_body BLACK
            (Z.land (pieces pawnsBoard PAWN) (colours pawnsBoard BLACK))
            (Z.land (pieces pawnsBoard PAWN) (colours pawnsBoard WHITE))
            35 (bbOfSquares [53; 54; 55]) (pawnsInfoForBlack, 0))
     = pawnBackwardOrConnected BLACK pawnsInfoForBlack
         (Z.land (pieces pawnsBoard PAWN) (colours pawnsBoard BLACK))
         (Z.land (pieces pawnsBoard PAWN) (colours pawnsBoard WHITE)) 35
         (pawnStacked 35 (bbOfSquares [53; 54; 55])
            (pawnIsolated
               (Z.land (pieces pawnsBoard PAWN) (colours pawnsBoard BLACK)) 35 0))
       + nthZ2 0 3 PawnCandidatePasser
  /\ Z.testbit (passedPawns (snd (evaluatePawns pawnsInfoForBlack pawnsBoard BLACK)))
               35
     = Z.testbit (passedPawns pawnsInfoForBlack) 35.
Proof.
  assert (Hs : (Z.land (Z.land (pieces pawnsBoard PAWN) (colours pawnsBoard WHITE))
                       (passedPawnMasks BLACK 35) =? 0) = false)
    by (vm_compute; reflexivity).
  assert (Hwf : wfBoard pawnsBoard = true) by (vm_compute; reflexivity).
  assert (Hpe : pkentry pawnsInfoForBlack = None) by (vm_compute; reflexivity).
  pose proof (pawnPassedOrCandidate_cases pawnsBoard BLACK pawnsInfoForBlack
                35 (bbOfSquares [53; 54; 55]) 0) as H.
  cbv zeta in H. cbn [opp] in H. destruct H as (_ & Hc & _ & Hl & _).
  split; [exact Hs|]. split; [exact Hwf|]. split; [exact Hpe|]. split.
  - destruct (Hc Hs) as [_ Hc']; [vm_compute; reflexivity|].
    rewrite Hc'. f_equal; vm_compute; reflexivity.
  - destruct (Hl Hwf Hpe) as [Hl' _].
    rewrite (Hl' 35) by lia. rewrite Hs. rewrite andb_false_r, xorb_false_r.
    reflexivity.
Defined.

(** C8: whatever the order in which a loop pops the pawns of a side, the
    stacked test ("some pawn that is left shares the file") fires [k - 1]
    times on a file with [k >= 1] pawns of the side, so that [k - 1] times
    [PawnStacked] is charged for the file; the loop of [evaluatePawns] pops
    in ascending order, each of its rounds adds the stacked test of its pawn
    to the other terms of the pawn, and on a miss [pkeval] of the side is the
    sum of those rounds: the other terms of every pawn and, for every file,
    one [PawnStacked] for each pawn after the first. *)
Theorem stacked_penalty_per_file (board : Board) (US : Colour) (ei : EvalInfo)
        (f : Z) (order : list Z) :
  let myPawns := Z.land (pieces board PAWN) (colours board US) in
  let enemyPawns := Z.land (pieces board PAWN) (colours board (opp US)) in
  let k := popcount (Z.land myPawns (Files f)) in
  wfBoard board = true ->
  Permutation order (squares myPawns) ->
  1 <= k ->
  fold_right Z.add 0
    (map (fun v => pawnStacked (fst v) (snd v) 0)
         (filter (fun v => fileOf (fst v) =? f) (visits order)))
  = (k - 1) * PawnStacked
  /\ visits (squares myPawns) = map (fun s => (s, above myPawns s)) (squares myPawns)
  /\ (forall sq tempPawns e pk,
        snd (evaluatePawns_body US myPawns enemyPawns sq tempPawns (e, pk))
        = pk + pawnTerm US e myPawns enemyPawns sq + pawnStacked sq tempPawns 0)
  /\ (pkentry ei = None ->
        sel US (pkeval (snd (evaluatePawns ei board US)))
        = fold_right Z.add 0
            (map (fun v => pawnTerm US ei myPawns enemyPawns (fst v)
                           + pawnStacked (fst v) (snd v) 0)
                 (visits (squares myPawns)))
        /\ sel US (pkeval (snd (evaluatePawns ei board US)))
           = sumOver (pawnTerm US ei myPawns enemyPawns) myPawns
             + fold_right Z.add 0
                 (map (fun f' =>
                         Z.max (popcount (Z.land myPawns (Files f')) - 1) 0
                         * PawnStacked)
                      (zrange 0 7))).
Proof.
  cbv zeta. intros Hwf Hperm Hk. apply wfBoard_WellFormed in Hwf.
  assert (Hb : 0 <= Z.land (pieces board PAWN) (colours board US) < 2 ^ 64)
    by (apply pieces_range, Hwf).
  split; [|split; [|split]].
  - rewrite stacked_visits.
    + rewrite (filter_length_perm _ _ _ Hperm), pawns_on_file.
      rewrite Z.max_l by lia. reflexivity.
    + intros s Hs. apply (squares_onBoard (Z.land (pieces board PAWN) (colours board US))).
      eapply Permutation_in; [exact Hperm|exact Hs].
  - apply visits_squares, Hb.
  - intros sq tempPawns e pk. rewrite evaluatePawns_body_closed. reflexivity.
  - intros Hpe. split.
    + rewrite pkeval_evaluatePawns by assumption.
      rewrite visits_squares by exact Hb. rewrite map_map. cbn [fst snd].
      reflexivity.
    + rewrite evaluatePawns_closed by assumption. cbn [snd].
      rewrite pkeval_pawnFinal. reflexivity.
Qed.

Lemma stacked_penalty_per_file_witness :
  wfBoard pawnsBoard = true
  /\ Permutation
       (rev (squares (Z.land (pieces pawnsBoard PAWN) (colours pawnsBoard WHITE))))
       (squares (Z.land (pieces pawnsBoard PAWN) (colours pawnsBoard WHITE)))
  /\ 1 <= popcount (Z.land (Z.land (pieces pawnsBoard PAWN) (colours pawnsBoard WHITE))
                           (Files 4))
  /\ fold_right Z.add 0
       (map (fun v => pawnStacked (fst v) (snd v) 0)
            (filter (fun v => fileOf (fst v) =? 4)
               (visits (rev (squares (Z.land (pieces pawnsBoard PAWN)
                                             (colours pawnsBoard WHITE)))))))
     = (popcount (Z.land (Z.land (pieces pawnsBoard PAWN) (colours pawnsBoard WHITE))
                         (Files 4)) - 1) * PawnStacked.
Proof.
  assert (Hwf : wfBoard pawnsBoard = true) by (vm_compute; reflexivity).
  assert (Hp : Permutation
       (rev (squares (Z.land (pieces pawnsBoard PAWN) (colours pawnsBoard WHITE))))
       (squares (Z.land (pieces pawnsBoard PAWN) (colours pawnsBoard WHITE))))
    by (apply Permutation_sym, Permutation_rev).
  assert (Hk : 1 <= popcount (Z.land (Z.land (pieces pawnsBoard PAWN)
                                             (colours pawnsBoard WHITE)) (Files 4)))
    by (vm_compute; discriminate).
  split; [exact Hwf|]. split; [exact Hp|]. split; [exact Hk|].
  pose proof (stacked_penalty_per_file pawnsBoard WHITE
                (initializeEvalInfo pawnsBoard None) 4
                (rev (squares (Z.land (pieces pawnsBoard PAWN)
                                      (colours pawnsBoard WHITE))))) as H.
  cbv zeta in H. destruct (H Hwf Hp Hk) as [H1 _]. exact H1.
Defined.


(** * The kings *)

(** Moves the flips of a bitboard expression to its root. *)
Ltac flip_out :=
  repeat (progress (rewrite <- ?flipBB_bbNot, <- ?flipBB_land, <- ?flipBB_lor,
                      <- ?flipBB_lxor)).

Section Kings.

Variable floatCount : Z -> Z -> Z -> list Z -> Z.

Lemma kingShelterStorm_closed c myPawns enemyPawns kingFile kingRank ei file :
  kingShelterStorm c myPawns enemyPawns kingFile kingRank ei file
  = set_pkeval
      (upd c (sel c (pkeval ei)
              + shelterTerm c myPawns enemyPawns kingFile kingRank file)
           (pkeval ei)) ei.
Proof.
  unfold kingShelterStorm, shelterTerm.
  ei_destruct ei. destruct c; ei_simpl; cbn [sel upd fst snd];
    rewrite Z.add_assoc; reflexivity.
Qed.

Lemma shelterFold_closed c myPawns enemyPawns kingFile kingRank (l : list Z) :
  forall ei,
    fold_left (kingShelterStorm c myPawns enemyPawns kingFile kingRank) l ei
    = set_pkeval
        (upd c (sel c (pkeval ei)
                + fold_right Z.add 0
                    (map (shelterTerm c myPawns enemyPawns kingFile kingRank) l))
             (pkeval ei)) ei.
Proof.
  induction l as [|file l IH]; intros ei; cbn [fold_left map fold_right].
  - rewrite Z.add_0_r. ei_destruct ei. destruct c; reflexivity.
  - rewrite IH, kingShelterStorm_closed.
    ei_destruct ei. destruct c; ei_simpl; cbn [sel upd fst snd];
      rewrite Z.add_assoc; reflexivity.
Qed.

Lemma snd_evaluateKings ei b c :
  pkentry ei = None ->
  snd (evaluateKings floatCount ei b c)
  = set_pkeval
      (upd c (sel c (pkeval ei) + shelterSum c b (sel c (kingSquare ei)))
           (pkeval ei)) ei.
Proof.
  intros Hpe. unfold evaluateKings. rewrite Hpe. cbn [snd].
  apply shelterFold_closed.
Qed.

Lemma fst_evaluateKings_pkeval v ei b c :
  fst (evaluateKings floatCount (set_pkeval v ei) b c)
  = fst (evaluateKings floatCount ei b c).
Proof.
  unfold evaluateKings, kingSafetyGate, kingSafetyCount.
  ei_destruct ei. ei_simpl. destruct pe; cbn [fst]; reflexivity.
Qed.

Lemma kings_swap ei b :
  pkentry ei = None ->
  snd (evaluateKings floatCount (snd (evaluateKings floatCount ei b WHITE)) b BLACK)
  = snd (evaluateKings floatCount (snd (evaluateKings floatCount ei b BLACK)) b WHITE).
Proof.
  intros Hpe.
  rewrite (snd_evaluateKings ei b WHITE), (snd_evaluateKings ei b BLACK) by exact Hpe.
  rewrite !snd_evaluateKings by exact Hpe.
  ei_destruct ei. reflexivity.
Qed.

(** ** The king of the twin *)

Lemma shelterDist_mirror c p file kingRank :
  (if Z.land (Z.land (flipBB p) (Files file))
             (forwardRanksMasks (opp c) (7 - kingRank)) =? 0
   then 7
   else Z.abs (7 - kingRank
               - rankOf (backmost (opp c)
                           (Z.land (Z.land (flipBB p) (Files file))
                                   (forwardRanksMasks (opp c) (7 - kingRank))))))
  = (if Z.land (Z.land p (Files file)) (forwardRanksMasks c kingRank) =? 0
     then 7
     else Z.abs (kingRank
                 - rankOf (backmost c
                             (Z.land (Z.land p (Files file))
                                     (forwardRanksMasks c kingRank))))).
Proof.
  assert (E : Z.land (Z.land (flipBB p) (Files file))
                     (forwardRanksMasks (opp c) (7 - kingRank))
              = flipBB (Z.land (Z.land p (Files file))
                               (forwardRanksMasks c kingRank))).
  { rewrite !flipBB_land, flipBB_Files, flipBB_forwardRanksMasks. reflexivity. }
  rewrite E.
  assert (R : 0 <= Z.land (Z.land p (Files file)) (forwardRanksMasks c kingRank)
              < 2 ^ 64) by apply land_range_r, bbOf_range.
  rewrite flipBB_eqb_0 by exact R.
  destruct (Z.eqb_spec (Z.land (Z.land p (Files file))
                               (forwardRanksMasks c kingRank)) 0) as [E0|E0];
    [reflexivity|].
  rewrite rankOf_backmost_flip by assumption.
  lia.
Qed.

Lemma shelterTerm_mirror c myPawns enemyPawns kingFile kingRank file :
  shelterTerm (opp c) (flipBB myPawns) (flipBB enemyPawns) kingFile (7 - kingRank) file
  = shelterTerm c myPawns enemyPawns kingFile kingRank file.
Proof.
  unfold shelterTerm. rewrite !shelterDist_mirror. reflexivity.
Qed.

Lemma shelterSum_mirror c b pm pk kingSq :
  shelterSum (opp c) (mirrorBoard b pm pk) (flipSq kingSq) = shelterSum c b kingSq.
Proof.
  unfold shelterSum. twin. rewrite <- !flipBB_land.
  rewrite fileOf_flipSq, rankOf_flipSq.
  apply sum_map_ext_in. intros file _. apply shelterTerm_mirror.
Qed.

Lemma occupied_mirror b pm pk :
  Z.lor (colours (mirrorBoard b pm pk) WHITE) (colours (mirrorBoard b pm pk) BLACK)
  = flipBB (Z.lor (colours b WHITE) (colours b BLACK)).
Proof.
  rewrite !colours_mirrorBoard. cbn [opp].
  rewrite <- flipBB_lor, Z.lor_comm. reflexivity.
Qed.

Lemma kingSafetyGate_mirror c ei q :
  kingSafetyGate (opp c) (mirrorInfo ei) (flipBB q) = kingSafetyGate c ei q.
Proof.
  unfold kingSafetyGate. twin. rewrite popcount_flipBB. reflexivity.
Qed.

Lemma kingSafetyCount_mirror c ei b pm pk :
  WellFormed b -> 0 <= sel c (kingSquare ei) < 64 ->
  kingSafetyCount floatCount (opp c) (mirrorInfo ei) (mirrorBoard b pm pk)
  = kingSafetyCount floatCount c ei b.
Proof.
  intros W Hks. unfold kingSafetyCount.
  rewrite occupied_mirror. twin.
  rewrite <- flipBB_knightAttacks.
  rewrite <- !flipBB_bishopAttacks, <- !flipBB_rookAttacks by exact Hks.
  flip_out. rewrite !popcount_flipBB.
  rewrite flipBB_eqb_0 by (apply land_range_l, W).
  reflexivity.
Qed.

Lemma fst_evaluateKings_mirror c ei b pm pk :
  WellFormed b -> 0 <= sel c (kingSquare ei) < 64 ->
  fst (evaluateKings floatCount (mirrorInfo ei) (mirrorBoard b pm pk) (opp c))
  = fst (evaluateKings floatCount ei b c).
Proof.
  intros W Hks. unfold evaluateKings.
  rewrite kingSafetyCount_mirror by assumption.
  change (pkentry (mirrorInfo ei)) with (pkentry ei).
  destruct (pkentry ei); cbn [fst]; twin; flip_out;
    rewrite kingSafetyGate_mirror, popcount_flipBB; reflexivity.
Qed.

Lemma mirrorInfo_set_pkeval c x ei :
  mirrorInfo (set_pkeval (upd c x (pkeval ei)) ei)
  = set_pkeval (upd (opp c) x (pkeval (mirrorInfo ei))) (mirrorInfo ei).
Proof. ei_destruct ei. destruct c; mi_compute; reflexivity. Qed.

Lemma evaluateKings_mirror b pm pk ei c :
  WellFormed b -> pkentry ei = None -> 0 <= sel c (kingSquare ei) < 64 ->
  evaluateKings floatCount (mirrorInfo ei) (mirrorBoard b pm pk) (opp c)
  = liftInfo mirrorInfo (evaluateKings floatCount ei b c).
Proof.
  intros W Hpe Hks.
  rewrite (surjective_pairing (evaluateKings floatCount (mirrorInfo ei) _ _)).
  rewrite fst_evaluateKings_mirror by assumption.
  rewrite (snd_evaluateKings (mirrorInfo ei)) by exact Hpe.
  unfold liftInfo. rewrite (snd_evaluateKings ei) by exact Hpe.
  rewrite mirrorInfo_set_pkeval. twin.
  rewrite shelterSum_mirror. reflexivity.
Qed.

End Kings.


(** * The passed pawns *)

Lemma passedBody_add US ei occupied sq temp acc :
  evaluatePassedPawns_body US ei occupied sq temp acc
  = acc + passedTerm US ei occupied sq.
Proof.
  unfold passedTerm, evaluatePassedPawns_body.
  rewrite Z.add_0_l, !Z.add_assoc. reflexivity.
Qed.

Lemma fst_evaluatePassedPawns ei b c :
  WellFormed b ->
  fst (evaluatePassedPawns ei b c)
  = sumOver (passedTerm c ei (Z.lor (colours b WHITE) (colours b BLACK)))
            (Z.land (colours b c) (passedPawns ei)).
Proof.
  intros W. unfold evaluatePassedPawns. cbn [fst].
  rewrite bbLoop_squares by (apply land_range_l, W).
  rewrite (fold_left_ext_In _
             (fun a x => a + passedTerm c ei
                                        (Z.lor (colours b WHITE) (colours b BLACK)) x))
    by (intros a x _; apply passedBody_add).
  rewrite fold_left_add_sum, Z.add_0_l. unfold sumOver. reflexivity.
Qed.

Lemma passedTerm_mirror c ei occupied sq :
  0 <= sq < 64 ->
  passedTerm (opp c) (mirrorInfo ei) (flipBB occupied) (flipSq sq)
  = passedTerm c ei occupied sq.
Proof.
  intros Hsq. unfold passedTerm, evaluatePassedPawns_body. twin.
  rewrite relativeRankOf_flip, !distanceBetween_flip.
  rewrite <- flipBB_shiftl_1 by exact Hsq.
  rewrite (pawnAdvance_twin_0 (Z.shiftl 1 sq) (opp c)), opp_involutive.
  rewrite fileOf_flipSq, rankOf_flipSq.
  rewrite <- flipBB_forwardRanksMasks.
  rewrite <- (flipBB_Files (fileOf sq)).
  flip_out.
  rewrite !flipBB_eqb_0
    by first [ apply land_range_l, bbOf_range
             | apply land_range_l, land_range_l, bbOf_range ].
  rewrite flipBB_Files. reflexivity.
Qed.

Lemma evaluatePassedPawns_mirror b pm pk ei c :
  WellFormed b -> WellFormed (mirrorBoard b pm pk) ->
  evaluatePassedPawns (mirrorInfo ei) (mirrorBoard b pm pk) (opp c)
  = liftInfo mirrorInfo (evaluatePassedPawns ei b c).
Proof.
  intros W W'.
  rewrite (surjective_pairing (evaluatePassedPawns (mirrorInfo ei) _ _)).
  rewrite snd_evaluatePassedPawns.
  rewrite fst_evaluatePassedPawns by exact W'.
  unfold liftInfo. rewrite snd_evaluatePassedPawns.
  rewrite fst_evaluatePassedPawns by exact W.
  rewrite occupied_mirror. twin. rewrite <- flipBB_land.
  rewrite sumOver_flipBB. f_equal.
  unfold sumOver. apply sum_map_ext_in. intros sq Hsq.
  apply passedTerm_mirror. eapply squares_onBoard, Hsq.
Qed.

(** * The threats *)

Lemma rank3_mirror (c : Colour) :
  match opp c with WHITE => RANK_3 | BLACK => RANK_6 end
  = flipBB (match c with WHITE => RANK_3 | BLACK => RANK_6 end).
Proof. destruct c; cbn [opp]; symmetry; apply flipBB_constants. Qed.

Ltac flip_out_all :=
  repeat (progress (rewrite <- ?flipBB_bbNot, <- ?flipBB_land, <- ?flipBB_lor,
                      <- ?flipBB_lxor, <- ?flipBB_pawnAdvance,
                      <- ?flipBB_pawnAttackSpan)).

Lemma evaluateThreats_mirror b pm pk ei c :
  evaluateThreats (mirrorInfo ei) (mirrorBoard b pm pk) (opp c)
  = liftInfo mirrorInfo (evaluateThreats ei b c).
Proof.
  unfold evaluateThreats, liftInfo. cbn [fst snd]. f_equal.
  rewrite rank3_mirror. twin. flip_out_all.
  rewrite !popcount_flipBB. reflexivity.
Qed.


(** * The twin of a well-formed board *)

Lemma flipBB_lastRanks :
  flipBB (Z.lor (Ranks 0) (Ranks 7)) = Z.lor (Ranks 0) (Ranks 7).
Proof. apply flipBB_constants. Qed.

Lemma WellFormed_mirror b pm pk : WellFormed b -> WellFormed (mirrorBoard b pm pk).
Proof.
  intros W. constructor.
  - intros p. rewrite pieces_mirrorBoard. apply flipBB_range.
  - intros c. rewrite colours_mirrorBoard. apply flipBB_range.
  - rewrite !colours_mirrorBoard. cbn [opp].
    rewrite <- flipBB_land, Z.land_comm, (wf_sides b W). apply flipBB_0.
  - intros p q H. rewrite !pieces_mirrorBoard, <- flipBB_land, (wf_kinds b W p q H).
    apply flipBB_0.
  - pose proof (wf_cover b W) as C.
    cbn [map allPieceTypes fold_right] in *.
    rewrite !pieces_mirrorBoard, !colours_mirrorBoard. cbn [opp].
    rewrite Z.lor_0_r in *. flip_out. rewrite C, Z.lor_comm. reflexivity.
  - rewrite colours_mirrorBoard, pieces_mirrorBoard. cbn [opp].
    rewrite popcount_flip_land. apply W.
  - rewrite colours_mirrorBoard, pieces_mirrorBoard. cbn [opp].
    rewrite popcount_flip_land. apply W.
  - rewrite pieces_mirrorBoard. apply Z.eqb_eq.
    rewrite (eqb0_flip_land _ _ _ flipBB_lastRanks)
      by (apply lor_range; apply bbOf_range).
    apply Z.eqb_eq, W.
Qed.

(** * The scratchpad of the twin at the start *)

Lemma pawnAttackSpan_twin (pawns : Z) (c : Colour) :
  pawnAttackSpan (flipBB pawns) (bbNot 0) c
  = flipBB (pawnAttackSpan pawns (bbNot 0) (opp c)).
Proof.
  rewrite flipBB_pawnAttackSpan, flipBB_bbNot, flipBB_0, opp_involutive.
  reflexivity.
Qed.

Lemma kingAreaMasks_twin (c : Colour) (sq : Z) :
  kingAreaMasks c (flipSq sq) = flipBB (kingAreaMasks (opp c) sq).
Proof. rewrite flipBB_kingAreaMasks, opp_involutive. reflexivity. Qed.

Lemma initializeEvalInfo_mirror b pm pk :
  WellFormed b ->
  initializeEvalInfo (mirrorBoard b pm pk) None
  = mirrorInfo (initializeEvalInfo b None).
Proof.
  intros W. unfold initializeEvalInfo.
  cbv beta iota zeta delta
      [mirrorInfo mirrorBBs mirrorSqs swapSides mapP fst snd
       ofPawn ofKnight ofBishop ofRook ofQueen ofKing
       kingAreas kingAttacksCount kingAttackersCount kingAttackersWeight
       pawnAttacks_ rammedPawns blockedPawns mobilityAreas attacked attackedBy2
       attackedBy occupiedMinusBishops occupiedMinusRooks passedPawns kingSquare
       pkeval pkentry].
  rewrite !pieces_mirrorBoard, !colours_mirrorBoard. cbn [opp].
  rewrite <- !(flipBB_land (colours b WHITE) (pieces b KING)).
  rewrite <- !(flipBB_land (colours b BLACK) (pieces b KING)).
  rewrite !getlsb_flipBB by apply W.
  rewrite !kingAreaMasks_twin, <- !flipBB_kingAttacks. cbn [opp].
  flip_out. rewrite !pawnAttackSpan_twin, !pawnAdvance_twin. cbn [opp].
  flip_out. rewrite flipBB_0.
  rewrite (Z.lor_comm (colours b BLACK) (colours b WHITE)).
  reflexivity.
Qed.

(** * What the evaluators can rely on *)

Lemma freshView_pkentry b ei : freshView b ei -> pkentry ei = None.
Proof.
  unfold freshView, staticView. intros H.
  injection H as _ _ _ _ _ _ _ _ Hpe. exact Hpe.
Qed.

Lemma king_nonzero (x : Z) : popcount x = 1 -> x <> 0.
Proof. intros H E. subst x. rewrite popcount_0 in H. discriminate. Qed.

Lemma freshView_kingSquare b ei c :
  WellFormed b -> freshView b ei -> 0 <= sel c (kingSquare ei) < 64.
Proof.
  unfold freshView, staticView. intros W H.
  injection H as _ _ _ _ _ _ _ Hks _. rewrite Hks.
  unfold initializeEvalInfo. cbn [kingSquare].
  destruct c; cbn [sel fst snd]; apply getlsb_spec.
  - apply land_range_l. exact (wf_colours b W WHITE).
  - apply king_nonzero. exact (wf_wking b W).
  - apply land_range_l. exact (wf_colours b W BLACK).
  - apply king_nonzero. exact (wf_bking b W).
Qed.

Lemma freshView_pawnAttacks b ei c :
  freshView b ei -> 0 <= sel c (pawnAttacks_ ei) < 2 ^ 64.
Proof.
  unfold freshView, staticView. intros H.
  injection H as Hpa _ _ _ _ _ _ _ _. rewrite Hpa.
  unfold initializeEvalInfo. cbn [pawnAttacks_].
  destruct c; cbn [sel fst snd]; apply bbOf_range.
Qed.

Lemma freshView_initializeEvalInfo b : freshView b (initializeEvalInfo b None).
Proof. reflexivity. Qed.

Lemma freshView_step b ei ei' :
  staticView ei' = staticView ei -> freshView b ei -> freshView b ei'.
Proof. unfold freshView. intros H1 H2. rewrite H1. exact H2. Qed.

(** * White minus Black, evaluator by evaluator *)

Section Twin.

Variable floatCount : Z -> Z -> Z -> list Z -> Z.
Variables (b : Board) (pm pk : Z).
Hypothesis W : WellFormed b.

Lemma pieceEvaluator_twin (E : EvalInfo -> Board -> Colour -> Z * EvalInfo)
      (K : PieceType) (att bonus : Colour -> EvalInfo -> Z -> Z)
      (bbs ev0 : Colour -> Z) :
  (forall ei c, E ei b c = pieceLoop c K (att c) (bonus c) (bbs c) (ev0 c) ei) ->
  (forall c, Static (att c)) -> (forall c, Static (bonus c)) ->
  (forall c, 0 <= bbs c < 2 ^ 64) ->
  (forall ei c, E (mirrorInfo ei) (mirrorBoard b pm pk) (opp c)
                = liftInfo mirrorInfo (E ei b c)) ->
  forall ei, freshView b ei ->
    whiteMinusBlack E (mirrorInfo ei) (mirrorBoard b pm pk)
    = (- fst (whiteMinusBlack E ei b), mirrorInfo (snd (whiteMinusBlack E ei b)))
    /\ freshView b (snd (whiteMinusBlack E ei b)).
Proof.
  intros Hshape Hatt Hbonus Hbb Hm.
  apply whiteMinusBlack_mirror.
  - intros ei c _. apply Hm.
  - intros ei c Hi. rewrite Hshape.
    eapply freshView_step; [|exact Hi].
    apply staticView_pieceLoop; auto.
  - intros ei c Hi. rewrite !Hshape.
    apply fst_pieceLoop_static; auto.
    apply staticView_pieceLoop; auto.
  - intros ei Hi. rewrite !Hshape.
    apply (pieceLoop_swap WHITE K (att WHITE) (bonus WHITE) (att BLACK) (bonus BLACK));
      auto.
Qed.

Lemma knights_twin ei :
  freshView b ei ->
  whiteMinusBlack evaluateKnights (mirrorInfo ei) (mirrorBoard b pm pk)
  = (- fst (whiteMinusBlack evaluateKnights ei b),
     mirrorInfo (snd (whiteMinusBlack evaluateKnights ei b)))
  /\ freshView b (snd (whiteMinusBlack evaluateKnights ei b)).
Proof.
  apply (pieceEvaluator_twin evaluateKnights KNIGHT
           (fun _ _ sq => knightAttacks sq) (fun c => knightBonus c b)
           (fun c => Z.land (pieces b KNIGHT) (colours b c)) (fun _ => 0)).
  - intros ei' c. apply evaluateKnights_shape.
  - intros c. apply Static_knightAttacks.
  - intros c. apply Static_knightBonus.
  - intros c. apply pieces_range, W.
  - intros ei' c. apply evaluateKnights_mirror, W.
Qed.

Lemma bishops_twin ei :
  freshView b ei ->
  whiteMinusBlack evaluateBishops (mirrorInfo ei) (mirrorBoard b pm pk)
  = (- fst (whiteMinusBlack evaluateBishops ei b),
     mirrorInfo (snd (whiteMinusBlack evaluateBishops ei b)))
  /\ freshView b (snd (whiteMinusBlack evaluateBishops ei b)).
Proof.
  apply (pieceEvaluator_twin evaluateBishops BISHOP
           bishopAttacksOf (fun c => bishopBonus c b)
           (fun c => Z.land (pieces b BISHOP) (colours b c))
           (fun c => if negb (Z.land (Z.land (pieces b BISHOP) (colours b c))
                                     WHITE_SQUARES =? 0)
                        && negb (Z.land (Z.land (pieces b BISHOP) (colours b c))
                                        BLACK_SQUARES =? 0)
                     then BishopPair else 0)).
  - intros ei' c. apply evaluateBishops_shape.
  - intros c. apply Static_bishopAttacksOf.
  - intros c. apply Static_bishopBonus.
  - intros c. apply pieces_range, W.
  - intros ei' c. apply evaluateBishops_mirror, W.
Qed.

Lemma rooks_twin ei :
  freshView b ei ->
  whiteMinusBlack evaluateRooks (mirrorInfo ei) (mirrorBoard b pm pk)
  = (- fst (whiteMinusBlack evaluateRooks ei b),
     mirrorInfo (snd (whiteMinusBlack evaluateRooks ei b)))
  /\ freshView b (snd (whiteMinusBlack evaluateRooks ei b)).
Proof.
  apply (pieceEvaluator_twin evaluateRooks ROOK
           rookAttacksOf (fun c => rookBonus c b)
           (fun c => Z.land (pieces b ROOK) (colours b c)) (fun _ => 0)).
  - intros ei' c. apply evaluateRooks_shape.
  - intros c. apply Static_rookAttacksOf.
  - intros c. apply Static_rookBonus.
  - intros c. apply pieces_range, W.
  - intros ei' c. apply evaluateRooks_mirror, W.
Qed.

Lemma queens_twin ei :
  freshView b ei ->
  whiteMinusBlack evaluateQueens (mirrorInfo ei) (mirrorBoard b pm pk)
  = (- fst (whiteMinusBlack evaluateQueens ei b),
     mirrorInfo (snd (whiteMinusBlack evaluateQueens ei b)))
  /\ freshView b (snd (whiteMinusBlack evaluateQueens ei b)).
Proof.
  apply (pieceEvaluator_twin evaluateQueens QUEEN
           queenAttacks queenBonus
           (fun c => Z.land (pieces b QUEEN) (colours b c)) (fun _ => 0)).
  - intros ei' c. apply evaluateQueens_shape.
  - intros c. apply Static_queenAttacks.
  - intros c. apply Static_queenBonus.
  - intros c. apply pieces_range, W.
  - intros ei' c. apply evaluateQueens_mirror, W.
Qed.

Lemma pawns_twin ei :
  freshView b ei ->
  whiteMinusBlack evaluatePawns (mirrorInfo ei) (mirrorBoard b pm pk)
  = (- fst (whiteMinusBlack evaluatePawns ei b),
     mirrorInfo (snd (whiteMinusBlack evaluatePawns ei b)))
  /\ freshView b (snd (whiteMinusBlack evaluatePawns ei b)).
Proof.
  assert (Hs : forall ei c, freshView b ei -> freshView b (snd (evaluatePawns ei b c))).
  { intros e c Hi.
    rewrite evaluatePawns_closed by (exact W || apply (freshView_pkentry b), Hi).
    cbn [snd]. eapply freshView_step; [apply staticView_pawnFinal|exact Hi]. }
  apply whiteMinusBlack_mirror.
  - intros e c Hi. apply evaluatePawns_mirror.
    + exact W.
    + apply WellFormed_mirror, W.
    + apply (freshView_pkentry b), Hi.
    + apply (freshView_pawnAttacks b), Hi.
  - exact Hs.
  - intros e c Hi.
    rewrite (evaluatePawns_closed (snd (evaluatePawns e b (opp c))))
      by (exact W || apply (freshView_pkentry b), Hs, Hi).
    rewrite (evaluatePawns_closed e b c)
      by (exact W || apply (freshView_pkentry b), Hi).
    reflexivity.
  - intros e Hi.
    rewrite (evaluatePawns_closed (snd (evaluatePawns e b WHITE)))
      by (exact W || apply (freshView_pkentry b), Hs, Hi).
    rewrite (evaluatePawns_closed (snd (evaluatePawns e b BLACK)))
      by (exact W || apply (freshView_pkentry b), Hs, Hi).
    rewrite !(evaluatePawns_closed e)
      by (exact W || apply (freshView_pkentry b), Hi).
    cbn [snd].
    rewrite (pawnScore_static BLACK (pawnFinal WHITE _ _ e) e) by reflexivity.
    rewrite (pawnScore_static WHITE (pawnFinal BLACK _ _ e) e) by reflexivity.
    apply (pawnFinal_swap WHITE).
Qed.

Lemma kings_twin ei :
  freshView b ei ->
  whiteMinusBlack (evaluateKings floatCount) (mirrorInfo ei) (mirrorBoard b pm pk)
  = (- fst (whiteMinusBlack (evaluateKings floatCount) ei b),
     mirrorInfo (snd (whiteMinusBlack (evaluateKings floatCount) ei b)))
  /\ freshView b (snd (whiteMinusBlack (evaluateKings floatCount) ei b)).
Proof.
  apply whiteMinusBlack_mirror.
  - intros e c Hi. apply evaluateKings_mirror.
    + exact W.
    + apply (freshView_pkentry b), Hi.
    + apply (freshView_kingSquare b); assumption.
  - intros e c Hi.
    rewrite snd_evaluateKings by (apply (freshView_pkentry b), Hi).
    eapply freshView_step; [|exact Hi]. reflexivity.
  - intros e c Hi.
    rewrite snd_evaluateKings by (apply (freshView_pkentry b), Hi).
    apply fst_evaluateKings_pkeval.
  - intros e Hi. apply kings_swap, (freshView_pkentry b), Hi.
Qed.

Lemma passedPawns_twin ei :
  freshView b ei ->
  whiteMinusBlack evaluatePassedPawns (mirrorInfo ei) (mirrorBoard b pm pk)
  = (- fst (whiteMinusBlack evaluatePassedPawns ei b),
     mirrorInfo (snd (whiteMinusBlack evaluatePassedPawns ei b)))
  /\ freshView b (snd (whiteMinusBlack evaluatePassedPawns ei b)).
Proof.
  apply whiteMinusBlack_mirror.
  - intros e c _. apply evaluatePassedPawns_mirror;
      [exact W | apply WellFormed_mirror, W].
  - intros e c Hi. rewrite snd_evaluatePassedPawns. exact Hi.
  - intros e c _. rewrite snd_evaluatePassedPawns. reflexivity.
  - intros e _. rewrite !snd_evaluatePassedPawns. reflexivity.
Qed.

Lemma threats_twin ei :
  freshView b ei ->
  whiteMinusBlack evaluateThreats (mirrorInfo ei) (mirrorBoard b pm pk)
  = (- fst (whiteMinusBlack evaluateThreats ei b),
     mirrorInfo (snd (whiteMinusBlack evaluateThreats ei b)))
  /\ freshView b (snd (whiteMinusBlack evaluateThreats ei b)).
Proof.
  apply whiteMinusBlack_mirror.
  - intros e c _. apply evaluateThreats_mirror.
  - intros e c Hi. rewrite snd_evaluateThreats. exact Hi.
  - intros e c _. rewrite snd_evaluateThreats. reflexivity.
  - intros e _. rewrite !snd_evaluateThreats. reflexivity.
Qed.

End Twin.


(** * All the evaluators on the twin *)

Section TwinPieces.

Variable floatCount : Z -> Z -> Z -> list Z -> Z.

Lemma evaluatePieces_stages ei b :
  evaluatePieces floatCount ei b
  = let r1 := whiteMinusBlack evaluatePawns ei b in
    let r2 := whiteMinusBlack evaluateKnights (snd r1) b in
    let r3 := whiteMinusBlack evaluateBishops (snd r2) b in
    let r4 := whiteMinusBlack evaluateRooks (snd r3) b in
    let r5 := whiteMinusBlack evaluateQueens (snd r4) b in
    let r6 := whiteMinusBlack (evaluateKings floatCount) (snd r5) b in
    let r7 := whiteMinusBlack evaluatePassedPawns (snd r6) b in
    let r8 := whiteMinusBlack evaluateThreats (snd r7) b in
    (fst r1 + fst r2 + fst r3 + fst r4 + fst r5 + fst r6 + fst r7 + fst r8, snd r8).
Proof.
  unfold evaluatePieces. cbv zeta.
  destruct (whiteMinusBlack evaluatePawns ei b) as [d1 e1]. cbn [fst snd].
  destruct (whiteMinusBlack evaluateKnights e1 b) as [d2 e2]. cbn [fst snd].
  destruct (whiteMinusBlack evaluateBishops e2 b) as [d3 e3]. cbn [fst snd].
  destruct (whiteMinusBlack evaluateRooks e3 b) as [d4 e4]. cbn [fst snd].
  destruct (whiteMinusBlack evaluateQueens e4 b) as [d5 e5]. cbn [fst snd].
  destruct (whiteMinusBlack (evaluateKings floatCount) e5 b) as [d6 e6]. cbn [fst snd].
  destruct (whiteMinusBlack evaluatePassedPawns e6 b) as [d7 e7]. cbn [fst snd].
  destruct (whiteMinusBlack evaluateThreats e7 b) as [d8 e8]. cbn [fst snd].
  rewrite Z.add_0_l. reflexivity.
Qed.

Lemma fst_pair {A B} (a : A) (b : B) : fst (a, b) = a.
Proof. reflexivity. Qed.

Lemma snd_pair {A B} (a : A) (b : B) : snd (a, b) = b.
Proof. reflexivity. Qed.

Lemma evaluatePieces_mirror b pm pk ei :
  WellFormed b -> freshView b ei ->
  evaluatePieces floatCount (mirrorInfo ei) (mirrorBoard b pm pk)
  = (- fst (evaluatePieces floatCount ei b),
     mirrorInfo (snd (evaluatePieces floatCount ei b))).
Proof.
  intros W H0. rewrite !evaluatePieces_stages. cbv zeta.
  destruct (pawns_twin b pm pk W _ H0) as [E1 H1].
  destruct (knights_twin b pm pk W _ H1) as [E2 H2].
  destruct (bishops_twin b pm pk W _ H2) as [E3 H3].
  destruct (rooks_twin b pm pk W _ H3) as [E4 H4].
  destruct (queens_twin b pm pk W _ H4) as [E5 H5].
  destruct (kings_twin floatCount b pm pk W _ H5) as [E6 H6].
  destruct (passedPawns_twin b pm pk W _ H6) as [E7 H7].
  destruct (threats_twin b pm pk _ H7) as [E8 _].
  rewrite E1, !fst_pair, !snd_pair.
  rewrite E2, !fst_pair, !snd_pair.
  rewrite E3, !fst_pair, !snd_pair.
  rewrite E4, !fst_pair, !snd_pair.
  rewrite E5, !fst_pair, !snd_pair.
  rewrite E6, !fst_pair, !snd_pair.
  rewrite E7, !fst_pair, !snd_pair.
  rewrite E8, !fst_pair, !snd_pair.
  f_equal. lia.
Qed.

End TwinPieces.


(** * The piece-square tables of the two colours *)

Lemma PSQT_flip_check :
  forallb (fun p =>
    forallb (fun s =>
      (nthZ2 (makePiece p WHITE) (flipSq s) PSQT
       =? - nthZ2 (makePiece p BLACK) s PSQT)
      && (nthZ2 (makePiece p BLACK) (flipSq s) PSQT
          =? - nthZ2 (makePiece p WHITE) s PSQT))
      allSquares) allPieceTypes = true.
Proof. vm_compute. reflexivity. Qed.

Lemma In_allPieceTypes (p : PieceType) : In p allPieceTypes.
Proof. destruct p; cbn [allPieceTypes In]; tauto. Qed.

Lemma PSQT_flip (p : PieceType) (c : Colour) (s : Z) :
  0 <= s < 64 ->
  nthZ2 (makePiece p c) (flipSq s) PSQT = - nthZ2 (makePiece p (opp c)) s PSQT.
Proof.
  intros Hs.
  pose proof (proj1 (forallb_forall _ _) PSQT_flip_check p (In_allPieceTypes p)) as H.
  cbv beta in H.
  pose proof (forall_squares _ H s Hs) as H'. cbv beta in H'.
  apply andb_true_iff in H'. destruct H' as [Hw Hb].
  destruct c; cbn [opp]; apply Z.eqb_eq; assumption.
Qed.

Lemma sum_map_opp_in (f g : Z -> Z) (l : list Z) :
  (forall x, In x l -> f x = - g x) ->
  fold_right Z.add 0 (map f l) = - fold_right Z.add 0 (map g l).
Proof.
  intros H. induction l as [|x l IH]; cbn [map fold_right]; [reflexivity|].
  rewrite H by (left; reflexivity).
  rewrite IH by (intros y Hy; apply H; right; exact Hy). lia.
Qed.

Lemma sum_pieces_opp (f g : PieceType -> Z) (l : list PieceType) :
  (forall p, f p = - g p) ->
  fold_right Z.add 0 (map f l) = - fold_right Z.add 0 (map g l).
Proof.
  intros H. induction l as [|x l IH]; cbn [map fold_right]; [reflexivity|].
  rewrite H, IH. lia.
Qed.

Lemma psqtSide_mirror b pm pk c :
  psqtSide (mirrorBoard b pm pk) c = - psqtSide b (opp c).
Proof.
  unfold psqtSide. apply sum_pieces_opp. intros p.
  rewrite pieces_mirrorBoard, colours_mirrorBoard, <- flipBB_land, sumOver_flipBB.
  unfold sumOver. apply sum_map_opp_in. intros s Hs.
  apply PSQT_flip. eapply squares_onBoard, Hs.
Qed.

Lemma psqtSum_mirror b pm pk : psqtSum (mirrorBoard b pm pk) = - psqtSum b.
Proof.
  unfold psqtSum. rewrite !psqtSide_mirror. cbn [opp]. lia.
Qed.

Lemma Tempo_opp (t : Colour) :
  nthZ (colourIndex (opp t)) Tempo = - nthZ (colourIndex t) Tempo.
Proof. destruct t; vm_compute; reflexivity. Qed.

(** * Phase and scale factor of the twin *)

Lemma gamePhase_mirror b pm pk : gamePhase (mirrorBoard b pm pk) = gamePhase b.
Proof.
  unfold gamePhase. rewrite !pieces_mirrorBoard, <- flipBB_lor, !popcount_flipBB.
  reflexivity.
Qed.

Lemma noneOf_mirror b pm pk p : noneOf (mirrorBoard b pm pk) p = noneOf b p.
Proof. unfold noneOf. rewrite pieces_mirrorBoard, popcount_flipBB. reflexivity. Qed.

Lemma oneEach_mirror b pm pk p : oneEach (mirrorBoard b pm pk) p = oneEach b p.
Proof.
  unfold oneEach. rewrite !colours_mirrorBoard, !pieces_mirrorBoard. cbn [opp].
  rewrite !popcount_flip_land. apply andb_comm.
Qed.

Lemma getlsb_onBoard (x : Z) : popcount x = 1 -> 0 <= getlsb x < 64.
Proof.
  intros H. apply (squares_onBoard x).
  rewrite (popcount_one_squares x H). left. reflexivity.
Qed.

Lemma oppositeBishops_mirror b pm pk :
  oppositeBishops (mirrorBoard b pm pk) = oppositeBishops b.
Proof.
  unfold oppositeBishops.
  rewrite !colours_mirrorBoard, !pieces_mirrorBoard. cbn [opp].
  rewrite <- !flipBB_land, !popcount_flipBB.
  destruct (Z.eqb_spec (popcount (Z.land (colours b WHITE) (pieces b BISHOP))) 1)
    as [Hw|Hw];
    destruct (Z.eqb_spec (popcount (Z.land (colours b BLACK) (pieces b BISHOP))) 1)
      as [Hb|Hb]; cbn [andb]; try reflexivity.
  rewrite !getlsb_flipBB by assumption.
  rewrite !testBit_WHITE_SQUARES_flip by (apply getlsb_onBoard; assumption).
  destruct (testBit WHITE_SQUARES (getlsb (Z.land (colours b WHITE) (pieces b BISHOP)))),
    (testBit WHITE_SQUARES (getlsb (Z.land (colours b BLACK) (pieces b BISHOP))));
    reflexivity.
Qed.

Lemma evaluateScaleFactor_mirror (S1 S2 S3 S4 : Z) b pm pk :
  WellFormed b ->
  evaluateScaleFactor S1 S2 S3 S4 (mirrorBoard b pm pk)
  = evaluateScaleFactor S1 S2 S3 S4 b.
Proof.
  intros W.
  rewrite (evaluateScaleFactor_cases S1 S2 S3 S4 _ (WellFormed_mirror b pm pk W)).
  rewrite (evaluateScaleFactor_cases S1 S2 S3 S4 b W).
  rewrite oppositeBishops_mirror, !noneOf_mirror, !oneEach_mirror. reflexivity.
Qed.

(** * The halves of a negated score *)

Lemma quot_opp_l_any (a b : Z) : Z.quot (- a) b = - Z.quot a b.
Proof.
  destruct (Z.eq_dec b 0) as [->|Hb].
  - destruct a; reflexivity.
  - apply Z.quot_opp_l, Hb.
Qed.

Lemma ScoreMG_opp (s : Z) :
  ScoreMG s <> -32768 -> ScoreMG (- s) = - ScoreMG s.
Proof.
  unfold ScoreMG, toInt16. intros H.
  Z.div_mod_to_equations. lia.
Qed.

Lemma ScoreEG_opp (s : Z) :
  ScoreMG s <> -32768 -> ScoreEG s <> -32768 -> ScoreEG (- s) = - ScoreEG s.
Proof.
  unfold ScoreMG, ScoreEG, toInt16. rewrite !Z.shiftr_div_pow2 by lia.
  change (2 ^ 16) with 65536. intros H1 H2.
  Z.div_mod_to_equations. lia.
Qed.

(** * The evaluation of the twin *)

Section ColourSymmetry.

Variable floatCount : Z -> Z -> Z -> list Z -> Z.
Variables SCALE_OCB_BISHOPS_ONLY SCALE_OCB_ONE_KNIGHT
          SCALE_OCB_ONE_ROOK SCALE_NORMAL : Z.

Lemma fst_evaluateBoard_None b :
  fst (evaluateBoard floatCount SCALE_OCB_BISHOPS_ONLY SCALE_OCB_ONE_KNIGHT
                     SCALE_OCB_ONE_ROOK SCALE_NORMAL b None)
  = match turn b with
    | WHITE =>
        Z.quot (ScoreMG (accumulatedScore floatCount b None) * (256 - gamePhase b)
                + Z.quot (ScoreEG (accumulatedScore floatCount b None) * gamePhase b
                          * evaluateScaleFactor SCALE_OCB_BISHOPS_ONLY
                              SCALE_OCB_ONE_KNIGHT SCALE_OCB_ONE_ROOK SCALE_NORMAL b)
                         SCALE_NORMAL) 256
    | BLACK =>
        - Z.quot (ScoreMG (accumulatedScore floatCount b None) * (256 - gamePhase b)
                  + Z.quot (ScoreEG (accumulatedScore floatCount b None) * gamePhase b
                            * evaluateScaleFactor SCALE_OCB_BISHOPS_ONLY
                                SCALE_OCB_ONE_KNIGHT SCALE_OCB_ONE_ROOK SCALE_NORMAL b)
                           SCALE_NORMAL) 256
    end.
Proof.
  unfold evaluateBoard, accumulatedScore.
  destruct (evaluatePieces floatCount (initializeEvalInfo b None) b) as [ev eiF].
  cbn [fst]. reflexivity.
Qed.

Lemma accumulatedScore_mirror b pm pk :
  WellFormed b -> psqtmat b = psqtSum b -> pm = psqtSum (mirrorBoard b pm pk) ->
  accumulatedScore floatCount (mirrorBoard b pm pk) None
  = - accumulatedScore floatCount b None.
Proof.
  intros W Hpsq Hpm. unfold accumulatedScore.
  rewrite initializeEvalInfo_mirror by exact W.
  rewrite evaluatePieces_mirror
    by (exact W || apply freshView_initializeEvalInfo).
  destruct (evaluatePieces floatCount (initializeEvalInfo b None) b) as [ev eiF].
  cbn [fst snd].
  change (pkeval (mirrorInfo eiF)) with (swapSides (pkeval eiF)).
  change (psqtmat (mirrorBoard b pm pk)) with pm.
  change (turn (mirrorBoard b pm pk)) with (opp (turn b)).
  rewrite Tempo_opp, Hpm, psqtSum_mirror, Hpsq.
  cbn [sel swapSides fst snd]. lia.
Qed.

End ColourSymmetry.


